(** * doc-harvest: the document-ID analyzer of [app/document_analyzer.py]

    A shallow embedding of [GoogleDocsAnalyzer]: structure analysis of an
    identifier, the ID-mutation strategies, the content fingerprint, the
    sequential prober and the uniqueness report.

    Conventions of the embedding.
    - A Python [str] is a [list ascii]; a character is read as the code
      point of the same number, so the strings covered are those over
      U+0000..U+00FF.  The character classes ([isdigit], [isalpha], ...)
      are Python's on that range, including the three superscript digits
      that are [isdigit] without being decimal.
    - A Python [int] is a [Z]; [//] and [%] by a positive number are
      [Z.div] and [Z.modulo] (both floor).
    - An operation that can raise returns a [result]; [try/except] is a
      match on it.
    - [set] is a [gset], a [dict] read by key a [gmap], a [dict] whose key
      order is observed an association list. *)

From Stdlib Require Import ZArith QArith Ascii String DecimalString.
From stdpp Require Import base option list list_numbers sorting gmap sets strings.

Close Scope Q_scope.
Local Open Scope Z_scope.

(** ** Strings *)

Abbreviation pystr := (list ascii) (only parsing).

Definition str (s : string) : pystr := list_ascii_of_string s.

Definition ord (c : ascii) : Z := Z.of_N (N_of_ascii c).

Definition len {A} (l : list A) : Z := Z.of_nat (length l).

(** ** Exceptions *)

Inductive exn : Type :=
| ValueError
| IndexError
| ZeroDivisionError.

Inductive result (A : Type) : Type :=
| Ok (a : A)
| Raise (e : exn).
Arguments Ok {A} a.
Arguments Raise {A} e.

#[global] Instance result_ret : MRet result := @Ok.
#[global] Instance result_bind : MBind result := λ A B f m,
  match m with
  | Ok a => f a
  | Raise e => Raise e
  end.

Definition is_ok {A} (m : result A) : Prop := ∃ a, m = Ok a.

(** [for x in xs: body], the loop state threaded through the body. *)
Fixpoint for_ {X S : Type} (xs : list X) (body : X → S → result S) (st : S)
  : result S :=
  match xs with
  | [] => Ok st
  | x :: xs' => st' ← body x st; for_ xs' body st'
  end.

(** The same loop with [break]: the body says whether to go on. *)
Inductive ctl (S : Type) : Type :=
| Next (st : S)
| Break (st : S).
Arguments Next {S} st.
Arguments Break {S} st.

Fixpoint for_break {X S : Type} (xs : list X) (body : X → S → result (ctl S))
  (st : S) : result S :=
  match xs with
  | [] => Ok st
  | x :: xs' =>
      c ← body x st;
      match c with
      | Next st' => for_break xs' body st'
      | Break st' => Ok st'
      end
  end.

(** ** Built-ins *)

(** [range(start, stop, step)]. *)
Definition range3 (start stop step : Z) : result (list Z) :=
  if decide (step = 0) then Raise ValueError
  else if decide (0 < step) then
    Ok ((λ k, start + k * step) <$> seqZ 0 ((stop - start + step - 1) / step))
  else
    Ok ((λ k, start + k * step) <$> seqZ 0 ((start - stop - step - 1) / (- step))).

Definition range2 (start stop : Z) : list Z := seqZ start (stop - start).

Definition range1 (stop : Z) : list Z := range2 0 stop.

(** [a // b]. *)
Definition floordiv (a b : Z) : result Z :=
  if decide (b = 0) then Raise ZeroDivisionError else Ok (a / b).

(** [s[i]], a negative index counting from the end. *)
Definition getitem {A} (s : list A) (i : Z) : result A :=
  let j := if decide (i < 0) then i + len s else i in
  if decide (0 ≤ j < len s) then
    match s !! Z.to_nat j with
    | Some c => Ok c
    | None => Raise IndexError
    end
  else Raise IndexError.

(** [s[start:stop]]; [None] is an omitted bound. *)
Definition clamp_index (n i : Z) : Z :=
  if decide (i < 0) then Z.max 0 (i + n) else Z.min i n.

Definition slice {A} (s : list A) (start stop : option Z) : list A :=
  let lo := from_option (clamp_index (len s)) 0 start in
  let hi := from_option (clamp_index (len s)) (len s) stop in
  take (Z.to_nat (hi - lo)) (drop (Z.to_nat lo) s).

(** [l.insert(pos, x)] for [0 <= pos]. *)
Definition list_insert_at {A} (pos : Z) (x : A) (l : list A) : list A :=
  take (Z.to_nat pos) l ++ x :: drop (Z.to_nat pos) l.

(** [max(l)]. *)
Definition max_list_Z (l : list Z) : result Z :=
  match l with
  | [] => Raise ValueError
  | x :: l' => Ok (foldl Z.max x l')
  end.

(** [sorted(l, reverse=True)]. *)
Definition sorted_reverse (l : list Z) : list Z :=
  merge_sort Z.ge l.

(** ** Character classes on U+0000..U+00FF *)

Definition in_range (lo hi : Z) (c : ascii) : bool :=
  bool_decide (lo ≤ ord c ≤ hi).

Definition is_char (x : ascii) (c : ascii) : bool := bool_decide (c = x).

(** [c.isdecimal()], also the class [\d] of [re]. *)
Definition isdecimal (c : ascii) : bool := in_range 48 57 c.

(** [c.isdigit()]: the decimal digits and the superscripts two, three, one. *)
Definition isdigit (c : ascii) : bool :=
  isdecimal c || bool_decide (ord c = 178) || bool_decide (ord c = 179)
  || bool_decide (ord c = 185).

Definition isupper (c : ascii) : bool :=
  in_range 65 90 c || in_range 192 214 c || in_range 216 222 c.

Definition islower (c : ascii) : bool :=
  in_range 97 122 c || bool_decide (ord c = 170) || bool_decide (ord c = 181)
  || bool_decide (ord c = 186) || in_range 223 246 c || in_range 248 255 c.

Definition isalpha (c : ascii) : bool := isupper c || islower c.

(** [c.isalnum()] adds the digits and the three vulgar fractions. *)
Definition isalnum (c : ascii) : bool :=
  isalpha c || isdigit c || in_range 188 190 c.

(** [c.isspace()], also the class [\s] of [re]. *)
Definition isspace (c : ascii) : bool :=
  in_range 9 13 c || in_range 28 32 c || bool_decide (ord c = 133)
  || bool_decide (ord c = 160).

(** [s.isalnum()] on a string: non-empty and every character alphanumeric. *)
Definition str_isalnum (s : pystr) : bool :=
  bool_decide (s ≠ []) && forallb isalnum s.

(** [chr(n)]; the code points beyond U+00FF are outside the embedding and
    are not produced by any call in the module. *)
Definition chr (n : Z) : result ascii :=
  if decide (0 ≤ n < 256) then Ok (ascii_of_N (Z.to_N n)) else Raise ValueError.

(** [int(s)] for a string without sign, blanks or underscores: the value of
    a non-empty run of decimal digits, [ValueError] otherwise.  The callers
    pass one character that [isdigit] or a match of [\d+]. *)
Definition int_digits (s : pystr) : Z :=
  foldl (λ acc c, 10 * acc + (ord c - 48)) 0 s.

Definition int_ (s : pystr) : result Z :=
  if bool_decide (s ≠ []) && forallb isdecimal s
  then Ok (int_digits s) else Raise ValueError.

(** [str(n)] on an [int]. *)
Definition str_of_int (n : Z) : pystr :=
  str (NilZero.string_of_int (Z.to_int n)).

(** [s.zfill(width)]. *)
Definition zfill (width : Z) (s : pystr) : pystr :=
  let pad := replicate (Z.to_nat (width - len s)) "0"%char in
  match s with
  | c :: s' =>
      if is_char "+" c || is_char "-" c then c :: pad ++ s' else pad ++ s
  | [] => pad
  end.

(** [s.replace(old, new)] and [s.replace(old, new, 1)] for a non-empty
    [old]: [skip] counts the characters of a replaced occurrence still to
    be dropped, [budget] the replacements left ([None]: no limit). *)
Definition startswith (pre s : pystr) : bool :=
  bool_decide (take (length pre) s = pre).

Fixpoint replace_from (old new : pystr) (budget : option nat) (skip : nat)
  (s : pystr) : pystr :=
  match s with
  | [] => []
  | c :: s' =>
      match skip with
      | S n => replace_from old new budget n s'
      | O =>
          if startswith old s && bool_decide (budget ≠ Some O) then
            new ++ replace_from old new (Nat.pred <$> budget) (length old - 1) s'
          else c :: replace_from old new budget O s'
      end
  end.

Definition replace (old new : pystr) (s : pystr) : pystr :=
  replace_from old new None O s.

Definition replace1 (old new : pystr) (s : pystr) : pystr :=
  replace_from old new (Some 1%nat) O s.

(** ** Regular expressions

    The fragment of [re] the module uses: literals and classes,
    concatenation, alternation, and greedy or lazy repetition of one class.
    [re_match r s k] is the backtracking search of [re]: it tries the
    alternatives in priority order and answers with the first one the
    continuation [k] accepts. *)

Inductive regex : Type :=
| Eps
| Chr (p : ascii → bool)
| Seq (r1 r2 : regex)
| Alt (r1 r2 : regex)
| Star (greedy : bool) (p : ascii → bool).

Fixpoint star_match (greedy : bool) (p : ascii → bool)
  (k : pystr → option pystr) (s : pystr) : option pystr :=
  match s with
  | [] => k []
  | c :: s' =>
      if greedy then
        if p c then
          match star_match greedy p k s' with
          | Some r => Some r
          | None => k s
          end
        else k s
      else
        match k s with
        | Some r => Some r
        | None => if p c then star_match greedy p k s' else None
        end
  end.

Fixpoint re_match (r : regex) (s : pystr) (k : pystr → option pystr)
  : option pystr :=
  match r with
  | Eps => k s
  | Chr p =>
      match s with
      | c :: s' => if p c then k s' else None
      | [] => None
      end
  | Seq r1 r2 => re_match r1 s (λ s', re_match r2 s' k)
  | Alt r1 r2 =>
      match re_match r1 s k with
      | Some x => Some x
      | None => re_match r2 s k
      end
  | Star g p => star_match g p k s
  end.

(** The length of the match of [r] at the start of [s]. *)
Definition match_len (r : regex) (s : pystr) : option nat :=
  rest ← re_match r s Some; Some (length s - length rest)%nat.

(** [re.search(r, s)]: the leftmost match, as (text before, matched text). *)
Fixpoint re_search (r : regex) (s : pystr) : option (pystr * pystr) :=
  match match_len r s with
  | Some n => Some ([], take n s)
  | None =>
      match s with
      | [] => None
      | c :: s' => '(pre, m) ← re_search r s'; Some (c :: pre, m)
      end
  end.

(** [re.sub(r, repl, s)] and [re.findall(r, s)] for a pattern that matches
    no empty string: [skip] counts the characters of the current match that
    are still to be consumed. *)
Fixpoint sub_from (r : regex) (repl : pystr) (skip : nat) (s : pystr) : pystr :=
  match s with
  | [] => []
  | c :: s' =>
      match skip with
      | S n => sub_from r repl n s'
      | O =>
          match match_len r s with
          | Some (S n) => repl ++ sub_from r repl n s'
          | _ => c :: sub_from r repl O s'
          end
      end
  end.

Definition re_sub (r : regex) (repl : pystr) (s : pystr) : pystr :=
  sub_from r repl O s.

Fixpoint findall_from (r : regex) (skip : nat) (s : pystr) : list pystr :=
  match s with
  | [] => []
  | c :: s' =>
      match skip with
      | S n => findall_from r n s'
      | O =>
          match match_len r s with
          | Some (S n) => take (S n) s :: findall_from r n s'
          | _ => findall_from r O s'
          end
      end
  end.

Definition re_findall (r : regex) (s : pystr) : list pystr :=
  findall_from r O s.

(** Pattern syntax. *)
Definition plus (p : ascii → bool) : regex := Seq (Chr p) (Star true p).

Fixpoint lit (s : pystr) : regex :=
  match s with
  | [] => Eps
  | c :: s' => Seq (Chr (is_char c)) (lit s')
  end.

(** A literal under [re.IGNORECASE]; on U+0000..U+00FF a letter of the
    patterns below matches itself in either case and nothing else. *)
Definition is_char_ci (x : ascii) (c : ascii) : bool :=
  bool_decide (c = x)
  || (in_range 97 122 x && bool_decide (ord c = ord x - 32))
  || (in_range 65 90 x && bool_decide (ord c = ord x + 32)).

Fixpoint lit_ci (s : pystr) : regex :=
  match s with
  | [] => Eps
  | c :: s' => Seq (Chr (is_char_ci c)) (lit_ci s')
  end.

Fixpoint seqs (rs : list regex) : regex :=
  match rs with
  | [] => Eps
  | r :: rs' => Seq r (seqs rs')
  end.

Definition any_char (c : ascii) : bool := true.
(** [.] without [re.DOTALL]. *)
Definition dot (c : ascii) : bool := negb (is_char "010" c).
Definition not_char (x : ascii) (c : ascii) : bool := negb (is_char x c).

(** [\d+], [[a-zA-Z]+] and [[-_]]. *)
Definition re_digits : regex := plus isdecimal.
Definition re_letters : regex :=
  plus (λ c, in_range 97 122 c || in_range 65 90 c).
Definition re_special : regex := Chr (λ c, is_char "-" c || is_char "_" c).

(** ** IdMutationEngine *)

Definition dash : ascii := "-"%char.
Definition underscore : ascii := "_"%char.

(** [_increment_last_char(doc_id, count=5)] *)
Definition _increment_last_char (doc_id : pystr) (count : Z)
  : result (list pystr) :=
  if decide (doc_id = []) then Ok []
  else
    last_char ← getitem doc_id (-1);
    let base := slice doc_id None (Some (-1)) in
    for_ (range2 1 (count + 1)) (λ i results,
      if isdigit last_char then
        d ← int_ [last_char];
        let new_digit := (d + i) `mod` 10 in
        Ok (results ++ [base ++ str_of_int new_digit])
      else if islower last_char then
        let new_char_ord := ord last_char + i in
        if decide (new_char_ord ≤ ord "z") then
          c ← chr new_char_ord; Ok (results ++ [base ++ [c]])
        else Ok results
      else if isupper last_char then
        let new_char_ord := ord last_char + i in
        if decide (new_char_ord ≤ ord "Z") then
          c ← chr new_char_ord; Ok (results ++ [base ++ [c]])
        else Ok results
      else Ok results) [].

(** The backward scans of [_increment_last_digit] and
    [_increment_last_letter]: the last index whose character is in the
    class, [-1] when there is none. *)
Definition last_pos_of (p : ascii → bool) (doc_id : pystr) : result Z :=
  idx ← range3 (len doc_id - 1) (-1) (-1);
  for_break idx (λ i last_pos,
    c ← getitem doc_id i;
    if p c then Ok (Break i) else Ok (Next last_pos)) (-1).

(** [_increment_last_digit(doc_id, count=10)] *)
Definition _increment_last_digit (doc_id : pystr) (count : Z)
  : result (list pystr) :=
  last_digit_pos ← last_pos_of isdigit doc_id;
  if decide (last_digit_pos = -1) then Ok []
  else
    c ← getitem doc_id last_digit_pos;
    last_digit ← int_ [c];
    let base_before := slice doc_id None (Some last_digit_pos) in
    let base_after := slice doc_id (Some (last_digit_pos + 1)) None in
    for_ (range2 1 (count + 1)) (λ i results,
      let new_digit := (last_digit + i) `mod` 10 in
      Ok (results ++ [base_before ++ str_of_int new_digit ++ base_after])) [].

(** [_increment_last_letter(doc_id, count=5)] *)
Definition _increment_last_letter (doc_id : pystr) (count : Z)
  : result (list pystr) :=
  last_letter_pos ← last_pos_of isalpha doc_id;
  if decide (last_letter_pos = -1) then Ok []
  else
    last_letter ← getitem doc_id last_letter_pos;
    let base_before := slice doc_id None (Some last_letter_pos) in
    let base_after := slice doc_id (Some (last_letter_pos + 1)) None in
    for_ (range2 1 (count + 1)) (λ i results,
      if islower last_letter then
        let new_char_ord := ord last_letter + i in
        if decide (new_char_ord ≤ ord "z") then
          c ← chr new_char_ord; Ok (results ++ [base_before ++ [c] ++ base_after])
        else Ok results
      else if isupper last_letter then
        let new_char_ord := ord last_letter + i in
        if decide (new_char_ord ≤ ord "Z") then
          c ← chr new_char_ord; Ok (results ++ [base_before ++ [c] ++ base_after])
        else Ok results
      else Ok results) [].

(** [_increment_all_positions(doc_id, max_per_position=2)] *)
Definition _increment_all_positions (doc_id : pystr) (max_per_position : Z)
  : result (list pystr) :=
  for_ (range1 (len doc_id)) (λ pos results,
    char ← getitem doc_id pos;
    let base_before := slice doc_id None (Some pos) in
    let base_after := slice doc_id (Some (pos + 1)) None in
    for_ (range2 1 (max_per_position + 1)) (λ i results,
      if isdigit char then
        d ← int_ [char];
        let new_digit := (d + i) `mod` 10 in
        Ok (results ++ [base_before ++ str_of_int new_digit ++ base_after])
      else if islower char then
        let new_char_ord := ord char + i in
        if decide (new_char_ord ≤ ord "z") then
          c ← chr new_char_ord; Ok (results ++ [base_before ++ [c] ++ base_after])
        else Ok results
      else if isupper char then
        let new_char_ord := ord char + i in
        if decide (new_char_ord ≤ ord "Z") then
          c ← chr new_char_ord; Ok (results ++ [base_before ++ [c] ++ base_after])
        else Ok results
      else Ok results) results) [].

(** [_test_hyphen_variations(base_id, count=5)] *)
Definition known_hyphen_positions : list (list Z) := [[13; 23; 41]; []].

Definition _test_hyphen_variations (base_id : pystr) (count : Z)
  : result (list pystr) :=
  results ← for_ known_hyphen_positions (λ positions results,
    if decide (len positions = 0) then
      let new_id := replace [dash] [] base_id in
      if decide (len new_id = 44) then Ok (results ++ [new_id]) else Ok results
    else
      let chars := replace [dash] [] base_id in
      m ← max_list_Z positions;
      if decide (len chars >= m) then
        chars ← for_ (sorted_reverse positions) (λ pos chars,
          if decide (pos < len chars) then Ok (list_insert_at pos dash chars)
          else Ok chars) chars;
        let new_id := chars in
        if decide (len new_id = 44) then Ok (results ++ [new_id]) else Ok results
      else Ok results) [];
  Ok (slice results None (Some count)).

(** [_test_digit_sequence_patterns(base_id, count=5)]; a [ValueError] of the
    [try] block is the [continue] of its handler. *)
Definition _test_digit_sequence_patterns (base_id : pystr) (count : Z)
  : result (list pystr) :=
  let digit_sequences := re_findall re_digits base_id in
  results ← for_ digit_sequences (λ seq results,
    if decide (len seq >= 2) then
      let attempt :=
        num ← int_ seq;
        for_ [-2; -1; 1; 2] (λ delta results,
          let new_num := Z.max 0 (num + delta) in
          let new_seq := zfill (len seq) (str_of_int new_num) in
          let new_id := replace1 seq new_seq base_id in
          if decide (new_id ≠ base_id) then Ok (results ++ [new_id])
          else Ok results) results in
      match attempt with
      | Raise ValueError => Ok results
      | other => other
      end
    else Ok results) [];
  Ok (slice results None (Some count)).

(** [_test_segment_boundaries(base_id, count=5)] *)
Definition swap_adjacent (base_id : pystr) (i : Z) : result pystr :=
  let chars := base_id in
  a ← getitem chars i;
  b ← getitem chars (i + 1);
  Ok (<[Z.to_nat (i + 1) := a]> (<[Z.to_nat i := b]> chars)).

Definition _test_segment_boundaries (base_id : pystr) (count : Z)
  : result (list pystr) :=
  results ← for_ (range1 (len base_id - 1)) (λ i results,
    curr_char ← getitem base_id i;
    next_char ← getitem base_id (i + 1);
    if isalpha curr_char && isdigit next_char then
      new_id ← swap_adjacent base_id i; Ok (results ++ [new_id])
    else if isdigit curr_char && isalpha next_char then
      new_id ← swap_adjacent base_id i; Ok (results ++ [new_id])
    else Ok results) [];
  Ok (slice results None (Some count)).

(** [_test_length_variations(base_id, count=5)] *)
Definition _test_length_variations (base_id : pystr) (count : Z)
  : result (list pystr) :=
  step ← floordiv (len base_id) count;
  idx ← range3 0 (len base_id) step;
  results ← for_ idx (λ i results,
    c ← getitem base_id i;
    if negb (is_char dash c || is_char underscore c) then
      let new_id := slice base_id None (Some i) ++ slice base_id (Some (i + 1)) None in
      if decide (len new_id = 43) then Ok (results ++ [new_id]) else Ok results
    else Ok results) [];
  step ← floordiv (len base_id) count;
  idx ← range3 0 (len base_id) step;
  results ← for_ idx (λ i results,
    c ← getitem base_id i;
    if isalnum c then
      let new_id := slice base_id None (Some i) ++ [c] ++ slice base_id (Some i) None in
      if decide (len new_id = 45) then Ok (results ++ [new_id]) else Ok results
    else Ok results) results;
  Ok (slice results None (Some count)).

(** [_generate_pattern_based_ids(base_id, count=20)] *)
Definition _generate_pattern_based_ids (base_id : pystr) (count : Z)
  : result (list pystr) :=
  let results := [] in
  q ← floordiv count 4;
  r ← _test_hyphen_variations base_id q;
  let results := results ++ r in
  q ← floordiv count 4;
  r ← _test_digit_sequence_patterns base_id q;
  let results := results ++ r in
  q ← floordiv count 4;
  r ← _test_segment_boundaries base_id q;
  let results := results ++ r in
  q ← floordiv count 4;
  r ← _test_length_variations base_id q;
  let results := results ++ r in
  Ok results.

(** [generate_incremented_ids(base_id, increment_strategies=None)].  The
    final [list(set(...))] lists the set in an order the language leaves
    open; [elements] is one such listing, and the statements below depend
    on membership and size only. *)
Definition default_strategies : list pystr :=
  [str "last_char"; str "last_digit"; str "last_letter"; str "all_positions";
   str "pattern_based"].

(** The body of the loop over the strategies; an unknown name falls
    through every [elif]. *)
Definition apply_strategy (base_id : pystr) (strategy : pystr)
  (incremented_ids : list pystr) : result (list pystr) :=
  if decide (strategy = str "last_char") then
    r ← _increment_last_char base_id 5; Ok (incremented_ids ++ r)
  else if decide (strategy = str "last_digit") then
    r ← _increment_last_digit base_id 10; Ok (incremented_ids ++ r)
  else if decide (strategy = str "last_letter") then
    r ← _increment_last_letter base_id 5; Ok (incremented_ids ++ r)
  else if decide (strategy = str "all_positions") then
    r ← _increment_all_positions base_id 2; Ok (incremented_ids ++ r)
  else if decide (strategy = str "pattern_based") then
    r ← _generate_pattern_based_ids base_id 20; Ok (incremented_ids ++ r)
  else Ok incremented_ids.

Definition generate_incremented_ids (base_id : pystr)
  (increment_strategies : option (list pystr)) : result (list pystr) :=
  let increment_strategies :=
    match increment_strategies with
    | None => default_strategies
    | Some l => l
    end in
  incremented_ids ← for_ increment_strategies (apply_strategy base_id) [];
  Ok (elements (list_to_set incremented_ids : gset pystr)).

(** ** StructureAnalyzer *)

(** [_check_alternating_pattern(doc_id)].  [alternating_body] is the body
    of its loop at index [i]: both arms of the [if] reach the end of the
    body, the first by [continue], and neither touches a variable. *)
Definition alternating_body (doc_id : pystr) (i : Z) (st : unit) : result unit :=
  curr ← getitem doc_id i;
  let curr_is_digit := isdigit curr in
  next ← getitem doc_id (i + 1);
  let next_is_digit := isdigit next in
  if bool_decide (curr_is_digit = next_is_digit)
  then
    c ← getitem doc_id i;
    if negb (is_char dash c || is_char underscore c) then Ok st else Ok st
  else Ok st.

Definition _check_alternating_pattern (doc_id : pystr) : result bool :=
  if decide (len doc_id < 2) then Ok false
  else
    _ ← for_ (range1 (len doc_id - 1)) (alternating_body doc_id) ();
    Ok true.

Record PatternReport : Type := {
  consecutive_digits : list pystr;
  consecutive_letters : list pystr;
  special_chars : list pystr;
  alternating_pattern : bool
}.

(** [_analyze_patterns(doc_id)] *)
Definition _analyze_patterns (doc_id : pystr) : result PatternReport :=
  alt ← _check_alternating_pattern doc_id;
  Ok {| consecutive_digits := re_findall re_digits doc_id;
        consecutive_letters := re_findall re_letters doc_id;
        special_chars := re_findall re_special doc_id;
        alternating_pattern := alt |}.

Record StructureReport : Type := {
  id_length : Z;
  character_counts : gmap ascii Z;
  has_hyphens : bool;
  has_underscores : bool;
  alphanumeric_only : bool;
  starts_with_digit : bool;
  pattern_analysis : PatternReport
}.

(** [doc_id.count(char)] *)
Definition count_char (char : ascii) (doc_id : pystr) : Z :=
  len (filter (λ c, c = char) doc_id).

(** [analyze_id_structure(doc_id)] *)
Definition analyze_id_structure (doc_id : pystr) : result StructureReport :=
  starts ← (if decide (doc_id ≠ []) then c ← getitem doc_id 0; Ok (isdigit c)
            else Ok false);
  patterns ← _analyze_patterns doc_id;
  Ok {| id_length := len doc_id;
        character_counts :=
          set_to_map (λ char, (char, count_char char doc_id))
                     (list_to_set doc_id : gset ascii);
        has_hyphens := bool_decide (dash ∈ doc_id);
        has_underscores := bool_decide (underscore ∈ doc_id);
        alphanumeric_only :=
          str_isalnum (replace [underscore] [] (replace [dash] [] doc_id));
        starts_with_digit := starts;
        pattern_analysis := patterns |}.

(** ** UniquenessAnalyzer *)

Module DocumentInfo.
Record t : Type := mk {
  id : pystr;
  url : pystr;
  accessible : bool;
  title : option pystr;
  content_preview : option pystr;
  content_hash : option pystr;
  error : option pystr
}.
End DocumentInfo.

(** Truth value of an [Optional[str]]: [None] and the empty string are false. *)
Definition truthy (o : option pystr) : bool :=
  match o with
  | Some (_ :: _) => true
  | _ => false
  end.

(** [hash_counts], a [dict] in insertion order. *)
Fixpoint dict_get (k : pystr) (d : list (pystr * Z)) (dflt : Z) : Z :=
  match d with
  | [] => dflt
  | (k', v) :: d' => if decide (k = k') then v else dict_get k d' dflt
  end.

Fixpoint dict_set (k : pystr) (v : Z) (d : list (pystr * Z)) : list (pystr * Z) :=
  match d with
  | [] => [(k, v)]
  | (k', v') :: d' =>
      if decide (k = k') then (k, v) :: d' else (k', v') :: dict_set k v d'
  end.

Definition dict_keys (d : list (pystr * Z)) : list pystr := d.*1.

Record UniquenessReport : Type := {
  total_tested : Z;
  accessible_count : Z;
  unique_count : Z;
  duplicate_count : Z;
  uniqueness_rate : Q;
  unique_hashes : list pystr
}.

(** [a / b] on two [int]s: the quotient as an exact rational, of which the
    [float] of the source is the nearest representable value. *)
Definition truediv (a b : Z) : result Q :=
  if decide (b = 0) then Raise ZeroDivisionError else Ok (Qmake a 1 / Qmake b 1)%Q.

(** The body of the counting loop of [analyze_uniqueness]. *)
Definition count_hash (doc : DocumentInfo.t) (hash_counts : list (pystr * Z))
  : result (list (pystr * Z)) :=
  if truthy (DocumentInfo.content_hash doc) then
    let h := default [] (DocumentInfo.content_hash doc) in
    Ok (dict_set h (dict_get h hash_counts 0 + 1) hash_counts)
  else Ok hash_counts.

(** [analyze_uniqueness(results)] *)
Definition analyze_uniqueness (results : list DocumentInfo.t)
  : result UniquenessReport :=
  let accessible_docs := filter (λ r, DocumentInfo.accessible r = true) results in
  if decide (accessible_docs = []) then
    Ok {| total_tested := len results;
          accessible_count := 0;
          unique_count := 0;
          duplicate_count := 0;
          uniqueness_rate := 0%Q;
          unique_hashes := [] |}
  else
    hash_counts ← for_ accessible_docs count_hash [];
    let unique_count := len hash_counts in
    let duplicate_count := len accessible_docs - unique_count in
    rate ← (if decide (accessible_docs ≠ []) then
              truediv unique_count (len accessible_docs)
            else Ok 0%Q);
    Ok {| total_tested := len results;
          accessible_count := len accessible_docs;
          unique_count := unique_count;
          duplicate_count := duplicate_count;
          uniqueness_rate := rate;
          unique_hashes := dict_keys hash_counts |}.

(** ** SHA-256 ([hashlib.sha256]) and UTF-8

    Words are 32-bit unsigned integers in [Z], reduced modulo [2^32] after
    every addition. *)

Module SHA256.

Definition wrap (x : Z) : Z := x `mod` 2 ^ 32.
Definition add (x y : Z) : Z := wrap (x + y).
Definition rotr (n x : Z) : Z :=
Z.lor (Z.shiftr x n) (wrap (Z.shiftl x (32 - n))).
Definition shr (n x : Z) : Z := Z.shiftr x n.
Definition lnot32 (x : Z) : Z := Z.lxor x (2 ^ 32 - 1).

Definition Ch (x y z : Z) : Z := Z.lxor (Z.land x y) (Z.land (lnot32 x) z).
Definition Maj (x y z : Z) : Z :=
Z.lxor (Z.lxor (Z.land x y) (Z.land x z)) (Z.land y z).
Definition Sigma0 (x : Z) : Z := Z.lxor (Z.lxor (rotr 2 x) (rotr 13 x)) (rotr 22 x).
Definition Sigma1 (x : Z) : Z := Z.lxor (Z.lxor (rotr 6 x) (rotr 11 x)) (rotr 25 x).
Definition sigma0 (x : Z) : Z := Z.lxor (Z.lxor (rotr 7 x) (rotr 18 x)) (shr 3 x).
Definition sigma1 (x : Z) : Z := Z.lxor (Z.lxor (rotr 17 x) (rotr 19 x)) (shr 10 x).

Definition K : list Z :=
[1116352408; 1899447441; 3049323471; 3921009573; 961987163; 1508970993;
 2453635748; 2870763221; 3624381080; 310598401; 607225278; 1426881987;
 1925078388; 2162078206; 2614888103; 3248222580; 3835390401; 4022224774;
 264347078; 604807628; 770255983; 1249150122; 1555081692; 1996064986;
 2554220882; 2821834349; 2952996808; 3210313671; 3336571891; 3584528711;
 113926993; 338241895; 666307205; 773529912; 1294757372; 1396182291;
 1695183700; 1986661051; 2177026350; 2456956037; 2730485921; 2820302411;
 3259730800; 3345764771; 3516065817; 3600352804; 4094571909; 275423344;
 430227734; 506948616; 659060556; 883997877; 958139571; 1322822218;
 1537002063; 1747873779; 1955562222; 2024104815; 2227730452; 2361852424;
 2428436474; 2756734187; 3204031479; 3329325298].

Definition H0 : list Z :=
[1779033703; 3144134277; 1013904242; 2773480762; 1359893119; 2600822924;
 528734635; 1541459225].

(** Padding: the byte 0x80, zeros up to 56 modulo 64, then the bit length
  as a 64-bit big-endian number. *)
Definition be_bytes (n : nat) (x : Z) : list Z :=
(λ i, Z.shiftr x (8 * (Z.of_nat n - 1 - Z.of_nat i)) `mod` 256) <$> seq 0 n.

Definition pad (msg : list Z) : list Z :=
let l := len msg in
msg ++ [128] ++ replicate (Z.to_nat ((55 - l) `mod` 64)) 0 ++ be_bytes 8 (8 * l).

Definition word_of_bytes (bs : list Z) : Z :=
foldl (λ acc b, acc * 256 + b) 0 bs.

Fixpoint chunks {A} (fuel n : nat) (l : list A) : list (list A) :=
match fuel with
| O => []
| S fuel' =>
    match l with
    | [] => []
    | _ => take n l :: chunks fuel' n (drop n l)
    end
end.

Definition words_of_block (block : list Z) : list Z :=
word_of_bytes <$> chunks 16 4 block.

(** The message schedule, extended one word at a time. *)
Definition nth_word (w : list Z) (i : nat) : Z := default 0 (w !! i).

Fixpoint schedule (n : nat) (w : list Z) : list Z :=
match n with
| O => w
| S n' =>
    let t := length w in
    let x := add (add (sigma1 (nth_word w (t - 2))) (nth_word w (t - 7)))
                 (add (sigma0 (nth_word w (t - 15))) (nth_word w (t - 16))) in
    schedule n' (w ++ [x])
end.

Record regs : Type := Regs { ra : Z; rb : Z; rc : Z; rd : Z; re : Z; rf : Z; rg : Z; rh : Z }.

Definition round (st : regs) (kw : Z * Z) : regs :=
let '(Regs a b c d e f g h) := st in
let t1 := add (add (add (add h (Sigma1 e)) (Ch e f g)) kw.1) kw.2 in
let t2 := add (Sigma0 a) (Maj a b c) in
Regs (add t1 t2) a b c (add d t1) e f g.

Definition regs_of_list (h : list Z) : regs :=
Regs (nth_word h 0) (nth_word h 1) (nth_word h 2) (nth_word h 3)
     (nth_word h 4) (nth_word h 5) (nth_word h 6) (nth_word h 7).

Definition list_of_regs (st : regs) : list Z :=
let '(Regs a b c d e f g h) := st in [a; b; c; d; e; f; g; h].

Definition compress (h : list Z) (block : list Z) : list Z :=
let w := schedule 48 (words_of_block block) in
let st := foldl round (regs_of_list h) (zip K w) in
zip_with add h (list_of_regs st).

Definition digest (msg : list Z) : list Z :=
let p := pad msg in
foldl compress H0 (chunks (length p) 64 p).

Definition hex_digit (n : Z) : ascii :=
if decide (n < 10) then ascii_of_N (Z.to_N (48 + n))
else ascii_of_N (Z.to_N (87 + n)).

Definition hex_of_word (x : Z) : pystr :=
(λ i, hex_digit (Z.shiftr x (4 * (7 - Z.of_nat i)) `mod` 16)) <$> seq 0 8.

Definition hexdigest (msg : list Z) : pystr :=
concat (hex_of_word <$> digest msg).

End SHA256.

(** [s.encode('utf-8')] for code points up to U+00FF. *)
Definition utf8_char (c : ascii) : list Z :=
  if decide (ord c < 128) then [ord c]
  else [192 + Z.shiftr (ord c) 6; 128 + Z.land (ord c) 63].

Definition encode_utf8 (s : pystr) : list Z := s ≫= utf8_char.

(** [hashlib.sha256(s.encode('utf-8')).hexdigest()] *)
Definition sha256_hex (s : pystr) : pystr :=
  SHA256.hexdigest (encode_utf8 s).

(** ** ContentNormalizer *)

Definition newline : ascii := "010"%char.
Definition dquote : ascii := "034"%char.

(** [s.strip()] *)
Fixpoint lstrip (s : pystr) : pystr :=
  match s with
  | c :: s' => if isspace c then lstrip s' else s
  | [] => []
  end.

Definition rstrip (s : pystr) : pystr := reverse (lstrip (reverse s)).

Definition strip (s : pystr) : pystr := rstrip (lstrip s).

(** The patterns of the two hashing functions. *)
Definition re_title : regex :=
  seqs [lit_ci (str "<title>"); Star false dot; lit_ci (str "</title>")].

Definition re_element (name : string) : regex :=
  seqs [lit_ci (str "<" ++ str name); Star true (not_char ">"); Chr (is_char ">");
        Star false any_char; lit_ci (str "</" ++ str name ++ str ">")].

Definition re_tag : regex :=
  seqs [lit (str "<"); plus (not_char ">"); lit (str ">")].

Definition re_spaces : regex := plus isspace.

Definition not_amp_quote (c : ascii) : bool :=
  negb (is_char "&" c || is_char dquote c).

Definition re_var_docs_timing : regex :=
  seqs [lit (str "var DOCS_timing"); Star false dot; lit (str ";")].
Definition re_nonce : regex :=
  seqs [lit (str "nonce=" ++ [dquote]); Star true (not_char dquote); Chr (is_char dquote)].
Definition re_param (name : string) : regex :=
  seqs [lit (str name ++ str "="); Star true not_amp_quote].
Definition re_loading : regex := lit (str "Loading...").
Definition re_sign_in : regex :=
  seqs [lit (str "Sign in"); Star false dot; lit (str "Google")].
Definition re_last_edit : regex :=
  seqs [lit (str "Last edit was"); Star false dot; lit (str "ago")].
Definition re_timestamp : regex :=
  seqs [Chr isdecimal; Alt (Chr isdecimal) Eps; lit (str ":");
        Chr isdecimal; Chr isdecimal; lit (str ":");
        Chr isdecimal; Chr isdecimal; Star true isspace;
        Alt (lit (str "AM")) (lit (str "PM"))].
Definition re_page : regex :=
  seqs [lit (str "Page "); plus isdecimal; lit (str " of "); plus isdecimal].
Definition re_docs_timing_index : regex :=
  seqs [lit (str "DOCS_timing["); Star false dot; lit (str "]");
        Star false dot; lit (str ";")].
Definition re_get_time : regex := lit (str "new Date().getTime()").

(** [title_match.group(1).strip() if title_match else ""] for
    [re.search(r'<title>(.*?)</title>', content, re.IGNORECASE)]: the group
    is the match without its 7 opening and 8 closing characters. *)
Definition search_title (content : pystr) : option pystr :=
  '(_, m) ← re_search re_title content;
  Some (take (length m - 15) (drop 7 m)).

(** [_calculate_content_hash_fallback(content)] *)
Definition fallback_normalize (content : pystr) : pystr :=
  let title_match := search_title content in
  let title := match title_match with Some g => strip g | None => [] end in
  let normalized := re_sub (re_element "script") [] content in
  let normalized := re_sub (re_element "style") [] normalized in
  let normalized := re_sub (re_element "noscript") [] normalized in
  let text_content := re_sub re_tag [] normalized in
  let full_text := title ++ [newline] ++ text_content in
  let normalized := re_sub re_spaces (str " ") (strip full_text) in
  let normalized := re_sub re_var_docs_timing [] normalized in
  let normalized := re_sub re_nonce [] normalized in
  let normalized := re_sub (re_param "sid") [] normalized in
  let normalized := re_sub re_loading [] normalized in
  let normalized := re_sub re_sign_in [] normalized in
  let normalized := re_sub re_last_edit [] normalized in
  let normalized := re_sub re_timestamp [] normalized in
  let normalized := re_sub re_page [] normalized in
  let normalized := re_sub re_docs_timing_index [] normalized in
  let normalized := re_sub re_get_time [] normalized in
  let normalized := re_sub (re_param "_reqid") [] normalized in
  let normalized := re_sub (re_param "authuser") [] normalized in
  let normalized := strip (re_sub re_spaces (str " ") normalized) in
  normalized.

Definition _calculate_content_hash_fallback (content : pystr) : pystr :=
  sha256_hex (fallback_normalize content).

(** What [_calculate_content_hash] reads off the tree that the third-party
    parser builds ([BeautifulSoup(content, 'html.parser')]): the text of
    the first [title] element when there is one, the text of each of the
    four candidate containers in the order tried ([None]: not found), each
    as [get_text(separator=' ', strip=True)] once the script, style and
    noscript elements are gone, and that text for the whole document. *)
Record SoupView : Type := {
  title_elem : option pystr;
  content_containers : list (option pystr);
  soup_text : pystr
}.

(** The first container found decides, found or empty. *)
Fixpoint first_container (containers : list (option pystr)) (main_content : pystr)
  : pystr :=
  match containers with
  | [] => main_content
  | Some text :: _ => text
  | None :: rest => first_container rest main_content
  end.

Definition soup_normalize (soup : SoupView) : pystr :=
  let title := match title_elem soup with Some t => strip t | None => [] end in
  let main_content := first_container (content_containers soup) [] in
  let main_content :=
    if decide (main_content = []) then soup_text soup else main_content in
  let text_content := title ++ [newline] ++ main_content in
  let normalized := re_sub re_spaces (str " ") (strip text_content) in
  let normalized := re_sub re_loading [] normalized in
  let normalized := re_sub re_sign_in [] normalized in
  let normalized := re_sub re_last_edit [] normalized in
  let normalized := re_sub re_timestamp [] normalized in
  let normalized := re_sub re_page [] normalized in
  let normalized := strip (re_sub re_spaces (str " ") normalized) in
  normalized.

Section Environment.

(** The parser is not part of the module: [parse content] is the view of
    the tree it builds, [None] when the import fails or anything in the
    [try] block raises, which sends the call to the fallback. *)
Variable parse : pystr → option SoupView.

(** [_calculate_content_hash(content)] *)
Definition _calculate_content_hash (content : pystr) : pystr :=
  match parse content with
  | Some soup => sha256_hex (soup_normalize soup)
  | None => _calculate_content_hash_fallback content
  end.

(** *** ProbeRunner

    The network is a state [W] that each request and each sleep
    advances. *)
Inductive http_outcome : Type :=
| Response (status_code : Z) (text : pystr)
| RequestFailed (message : pystr).

Variable W : Type.
Variable float : Type.
Variable http_get : pystr → W → http_outcome * W.
Variable sleep : float → W → W.

Definition base_urls : list pystr :=
  [str "https://docs.google.com/document/d/{}/edit";
   str "https://docs.google.com/document/d/{}/export?format=txt";
   str "https://docs.google.com/document/d/{}/pub"].

(** [url_template.format(doc_id)] for a template with one [{}]. *)
Definition format (url_template doc_id : pystr) : pystr :=
  replace1 (str "{}") doc_id url_template.

Definition set_url (u : pystr) (d : DocumentInfo.t) : DocumentInfo.t :=
  DocumentInfo.mk (DocumentInfo.id d) u (DocumentInfo.accessible d)
    (DocumentInfo.title d) (DocumentInfo.content_preview d)
    (DocumentInfo.content_hash d) (DocumentInfo.error d).

Definition set_error (e : pystr) (d : DocumentInfo.t) : DocumentInfo.t :=
  DocumentInfo.mk (DocumentInfo.id d) (DocumentInfo.url d)
    (DocumentInfo.accessible d) (DocumentInfo.title d)
    (DocumentInfo.content_preview d) (DocumentInfo.content_hash d) (Some e).

(** The body of the [status_code == 200] branch. *)
Definition on_success (content : pystr) (d : DocumentInfo.t) : DocumentInfo.t :=
  let title :=
    match search_title content with
    | Some g => Some (strip g)
    | None => DocumentInfo.title d
    end in
  let text_content := re_sub re_tag [] content in
  let text_content := strip (re_sub re_spaces (str " ") text_content) in
  let preview :=
    if decide (len text_content > 200)
    then slice text_content None (Some 200) ++ str "..."
    else text_content in
  DocumentInfo.mk (DocumentInfo.id d) (DocumentInfo.url d) true title
    (Some preview) (Some (_calculate_content_hash content)) (DocumentInfo.error d).

(** The loop over [self.base_urls] of [test_document_access]. *)
Fixpoint try_urls (templates : list pystr) (doc_id : pystr)
  (doc_info : DocumentInfo.t) (w : W) : DocumentInfo.t * W :=
  match templates with
  | [] => (doc_info, w)
  | url_template :: rest =>
      let url := format url_template doc_id in
      let doc_info := set_url url doc_info in
      match http_get url w with
      | (Response status_code content, w') =>
          if decide (status_code = 200) then (on_success content doc_info, w')
          else if decide (status_code = 403) then
            try_urls rest doc_id
              (set_error (str "Access forbidden - document may be private") doc_info) w'
          else if decide (status_code = 404) then
            try_urls rest doc_id (set_error (str "Document not found") doc_info) w'
          else
            try_urls rest doc_id
              (set_error (str "HTTP " ++ str_of_int status_code) doc_info) w'
      | (RequestFailed e, w') =>
          try_urls rest doc_id (set_error (str "Request failed: " ++ e) doc_info) w'
      end
  end.

(** [test_document_access(doc_id)] *)
Definition test_document_access (doc_id : pystr) (w : W) : DocumentInfo.t * W :=
  let doc_info := DocumentInfo.mk doc_id [] false None None None None in
  try_urls base_urls doc_id doc_info w.

(** [batch_test_documents(doc_ids, delay=1.0)]: the state of its loop. *)
Record batch_state : Type := {
  results : list DocumentInfo.t;
  seen_hashes : gset pystr;
  unique_count_so_far : Z;
  world : W
}.

Definition batch_step (doc_ids : list pystr) (delay : float)
  (st : batch_state) (item : Z * pystr) : batch_state :=
  let '(i, doc_id) := item in
  let '(doc_info, w) := test_document_access doc_id (world st) in
  let results := results st ++ [doc_info] in
  let '(seen, unique) :=
    if DocumentInfo.accessible doc_info && truthy (DocumentInfo.content_hash doc_info)
    then
      let h := default [] (DocumentInfo.content_hash doc_info) in
      if decide (h ∉ seen_hashes st)
      then ({[h]} ∪ seen_hashes st, unique_count_so_far st + 1)
      else (seen_hashes st, unique_count_so_far st)
    else (seen_hashes st, unique_count_so_far st) in
  let w := if decide (i < len doc_ids - 1) then sleep delay w else w in
  {| results := results; seen_hashes := seen; unique_count_so_far := unique;
     world := w |}.

Definition enumerate {A} (l : list A) : list (Z * A) :=
  zip (range1 (len l)) l.

Definition batch_test_documents (doc_ids : list pystr) (delay : float) (w : W)
  : list DocumentInfo.t * W :=
  let st := foldl (batch_step doc_ids delay)
              {| results := []; seen_hashes := ∅; unique_count_so_far := 0;
                 world := w |}
              (enumerate doc_ids) in
  (results st, world st).

End Environment.

(** ** Vocabulary of the statements and sample data *)

(** An accessible result that carries no fingerprint. *)
Definition accessible_without_hash (r : DocumentInfo.t) : Prop :=
  DocumentInfo.accessible r = true ∧ DocumentInfo.content_hash r = None.

#[global] Instance accessible_without_hash_dec r : Decision (accessible_without_hash r).
Proof. unfold accessible_without_hash. apply _. Defined.

Definition private_doc : DocumentInfo.t :=
  DocumentInfo.mk (str "1kWuNeZz") (str "https://docs.google.com/document/d/1kWuNeZz/pub")
    false None None None (Some (str "Access forbidden - document may be private")).

Definition unhashed_doc : DocumentInfo.t :=
  DocumentInfo.mk (str "1kWuNeZz") (str "https://docs.google.com/document/d/1kWuNeZz/edit")
    true None None None None.

(** [split_last p s] cuts [s] at its rightmost character in the class [p]:
    the text before it, the character, the text after it. *)
Fixpoint split_first (p : ascii → bool) (s : pystr) : option (pystr * ascii * pystr) :=
  match s with
  | [] => None
  | x :: s' =>
      if p x then Some ([], x, s')
      else '(a, c, b) ← split_first p s'; Some (x :: a, c, b)
  end.

Definition split_last (p : ascii → bool) (s : pystr) : option (pystr * ascii * pystr) :=
  '(a, c, b) ← split_first p (reverse s); Some (reverse b, c, reverse a).

(** The rightmost digit of the seed, if it has one, is one of 0..9. *)
Definition last_digit_is_decimal (s : pystr) : Prop :=
  match split_last isdigit s with
  | Some (_, c, _) => isdecimal c = true
  | None => True
  end.

(** The character of the digit [d]. *)
Definition digit_char (d : Z) : ascii := ascii_of_N (Z.to_N (48 + d)).

(** The positions at which two strings differ. *)
Definition diff_positions (s t : pystr) : list nat :=
  filter (λ i, s !! i ≠ t !! i) (seq 0 (length s `max` length t)).

(** A network that also keeps the list of the URLs requested so far. *)
Section Logged.
Context {W float : Type}.
Variable http_get : pystr → W → http_outcome * W.
Variable sleep : float → W → W.

Definition logged_get (url : pystr) (wl : W * list pystr)
  : http_outcome * (W * list pystr) :=
  let '(o, w') := http_get url wl.1 in (o, (w', wl.2 ++ [url])).

Definition logged_sleep (delay : float) (wl : W * list pystr) : W * list pystr :=
  (sleep delay wl.1, wl.2).
End Logged.

(** The first URL tried for an identifier, its edit view. *)
Definition edit_url (doc_id : pystr) : pystr :=
  format (str "https://docs.google.com/document/d/{}/edit") doc_id.

(** ** Vocabulary of the further properties *)

(** The fingerprints the counting loop of [analyze_uniqueness] sees: those
    of the accessible results that are neither [None] nor empty, in the
    order of the batch. *)
Definition counted_hashes (results : list DocumentInfo.t) : list pystr :=
  omap (λ r, if DocumentInfo.accessible r && truthy (DocumentInfo.content_hash r)
             then DocumentInfo.content_hash r else None) results.

(** A list without its repetitions, each element at its first occurrence. *)
Definition first_seen (l : list pystr) : list pystr :=
  foldl (λ acc h, if decide (h ∈ acc) then acc else acc ++ [h]) [] l.

(** The increment the strategies [last_char], [last_letter] and
    [all_positions] apply to one character: a decimal digit moves [i] steps
    round the ten digits, an ASCII letter [i] letters forward within its
    case and never past [z] or [Z]; any other character has no successor. *)
Definition bump (c : ascii) (i : Z) : option ascii :=
  if isdecimal c then Some (digit_char ((ord c - 48 + i) `mod` 10))
  else if in_range 97 122 c then
    if decide (ord c + i ≤ 122) then Some (ascii_of_N (Z.to_N (ord c + i)))
    else None
  else if in_range 65 90 c then
    if decide (ord c + i ≤ 90) then Some (ascii_of_N (Z.to_N (ord c + i)))
    else None
  else None.

(** The string [s] with the character at [pos] incremented by [i]. *)
Definition bump_at (s : pystr) (pos : nat) (i : Z) : option pystr :=
  c ← s !! pos; c' ← bump c i; Some (<[pos := c']> s).

(** Every character of [s] that [isdigit] is one of 0..9. *)
Definition digits_decimal (s : pystr) : bool :=
  forallb (λ c, implb (isdigit c) (isdecimal c)) s.

(** The loop bodies of the three strategies, the way a candidate is built
    from the new character left open: [letter_body] is the body of
    [_increment_last_letter], [bump_body] the one of [_increment_last_char]
    and of the inner loop of [_increment_all_positions]. *)
Definition letter_body (c : ascii) (mk : pystr → pystr) (i : Z)
  (results : list pystr) : result (list pystr) :=
  if islower c then
    let new_char_ord := ord c + i in
    if decide (new_char_ord ≤ ord "z") then
      c' ← chr new_char_ord; Ok (results ++ [mk [c']])
    else Ok results
  else if isupper c then
    let new_char_ord := ord c + i in
    if decide (new_char_ord ≤ ord "Z") then
      c' ← chr new_char_ord; Ok (results ++ [mk [c']])
    else Ok results
  else Ok results.

Definition bump_body (c : ascii) (mk : pystr → pystr) (i : Z)
  (results : list pystr) : result (list pystr) :=
  if isdigit c then
    d ← int_ [c];
    let new_digit := (d + i) `mod` 10 in
    Ok (results ++ [mk (str_of_int new_digit)])
  else letter_body c mk i results.

(** [c'] is what an increment makes of [c]: another decimal digit, or a
    later letter of the same ASCII case. *)
Definition incremented (c c' : ascii) : Prop :=
  (isdecimal c = true ∧ isdecimal c' = true ∧ c' ≠ c)
  ∨ (97 ≤ ord c < ord c' ∧ ord c' ≤ 122)
  ∨ (65 ≤ ord c < ord c' ∧ ord c' ≤ 90).

(** [cand] is [s] with the character at [pos] incremented and nothing else
    changed. *)
Definition incremented_at (s : pystr) (pos : nat) (cand : pystr) : Prop :=
  length cand = length s ∧ diff_positions s cand = [pos] ∧
  ∃ c c', s !! pos = Some c ∧ cand !! pos = Some c' ∧ incremented c c'.

(** [runs_of p s rs]: [rs] lists the maximal runs of characters of the
    class [p] in [s], from left to right. *)
Inductive runs_of (p : ascii → bool) : pystr → list pystr → Prop :=
| runs_nil : runs_of p [] []
| runs_skip c s rs :
    p c = false → runs_of p s rs → runs_of p (c :: s) rs
| runs_run c r s rs :
    p c = true → Forall (λ x, p x = true) r →
    (∀ x, head s = Some x → p x = false) →
    runs_of p s rs → runs_of p (c :: r ++ s) ((c :: r) :: rs).

(** The classes of [[a-zA-Z]] and [[-_]]. *)
Definition ascii_letter (c : ascii) : bool := in_range 97 122 c || in_range 65 90 c.
Definition hyphen_or_underscore (c : ascii) : bool := is_char "-" c || is_char "_" c.

(** A network that keeps the trace of what was asked of it: the URLs
    requested and the pauses taken, in order. *)
Inductive event (float : Type) : Type :=
| Requested (url : pystr)
| Slept (delay : float).
Arguments Requested {float} url.
Arguments Slept {float} delay.

Section Traced.
Context {W float : Type}.
Variable http_get : pystr → W → http_outcome * W.
Variable sleep : float → W → W.

Definition traced_get (url : pystr) (wl : W * list (event float))
  : http_outcome * (W * list (event float)) :=
  let '(o, w') := http_get url wl.1 in (o, (w', wl.2 ++ [Requested url])).

Definition traced_sleep (delay : float) (wl : W * list (event float))
  : W * list (event float) :=
  (sleep delay wl.1, wl.2 ++ [Slept delay]).
End Traced.

(** The lists [ls] put end to end with [sep] between any two of them. *)
Fixpoint join {A} (sep : list A) (ls : list (list A)) : list A :=
  match ls with
  | [] => []
  | [l] => l
  | l :: ls' => l ++ sep ++ join sep ls'
  end.

(** The trace of a batch whose probes sent the groups of requests
    [groups], with a pause of [delay] between two probes. *)
Definition trace_of {float : Type} (delay : float) (groups : list (list pystr))
  : list (event float) :=
  join [Slept delay] ((λ g : list pystr, Requested <$> g) <$> groups).

Definition is_pause {float : Type} (e : event float) : bool :=
  match e with
  | Slept _ => true
  | Requested _ => false
  end.

(** * The endpoints of [app/api.py]

    A handler returns its body or raises [HTTPException]; the [detail] of
    the exception is a fixed prefix followed by the message of the
    exception caught, which is kept here as the exception itself. *)
Inductive http_result (A : Type) : Type :=
| Reply (body : A)
| HTTPException (status_code : Z) (cause : exn).
Arguments Reply {A} body.
Arguments HTTPException {A} status_code cause.

(** [POST /generate-increments/{base_id}] *)
Record GenerateResponse : Type := {
  gen_base_id : pystr;
  gen_strategies : list pystr;
  gen_incremented_ids : list pystr;
  gen_count : Z
}.

Definition endpoint_default_strategies : list pystr :=
  [str "last_char"; str "last_digit"; str "last_letter"].

Definition generate_incremented_ids_endpoint (base_id : pystr)
  (strategies : option (list pystr)) : http_result GenerateResponse :=
  let strategies :=
    match strategies with
    | None => endpoint_default_strategies
    | Some l => l
    end in
  match generate_incremented_ids base_id (Some strategies) with
  | Ok incremented_ids =>
      Reply {| gen_base_id := base_id;
               gen_strategies := strategies;
               gen_incremented_ids := incremented_ids;
               gen_count := len incremented_ids |}
  | Raise e => HTTPException 500 e
  end.

(** [IncrementRequest] and the body of [POST /test-increments]. *)
Record IncrementRequest (float : Type) : Type := {
  req_base_id : pystr;
  req_strategies : list pystr;
  req_max_increments : Z;
  req_test_delay : float
}.
Arguments req_base_id {float} _.
Arguments req_strategies {float} _.
Arguments req_max_increments {float} _.
Arguments req_test_delay {float} _.

Definition increment_request_strategies : list pystr :=
  [str "last_char"; str "last_digit"; str "last_letter"; str "pattern_based"].

Record IncrementResponse : Type := {
  inc_base_id : pystr;
  inc_strategies : list pystr;
  inc_total_tested : Z;
  successful_count : Z;
  failed_count : Z;
  success_rate : Q;
  unique_documents_count : Z;
  duplicate_documents_count : Z;
  inc_uniqueness_rate : Q;
  successful_documents : list DocumentInfo.t;
  failed_documents : list DocumentInfo.t
}.

Section Api.
Variable parse : pystr → option SoupView.
Variable W : Type.
Variable float : Type.
Variable http_get : pystr → W → http_outcome * W.
Variable sleep : float → W → W.

Definition test_incremented_documents (request : IncrementRequest float) (w : W)
  : http_result IncrementResponse * W :=
  match generate_incremented_ids (req_base_id request)
          (Some (req_strategies request)) with
  | Raise e => (HTTPException 500 e, w)
  | Ok ids =>
      let incremented_ids := slice ids None (Some (req_max_increments request)) in
      let '(results, w') :=
        batch_test_documents parse W float http_get sleep incremented_ids
          (req_test_delay request) w in
      let successful := filter (λ r, DocumentInfo.accessible r = true) results in
      let failed := filter (λ r, DocumentInfo.accessible r = false) results in
      match analyze_uniqueness results with
      | Raise e => (HTTPException 500 e, w')
      | Ok uniqueness_analysis =>
          match (if decide (results ≠ [])
                 then truediv (len successful) (len results) else Ok 0%Q) with
          | Raise e => (HTTPException 500 e, w')
          | Ok rate =>
              (Reply {| inc_base_id := req_base_id request;
                        inc_strategies := req_strategies request;
                        inc_total_tested := len results;
                        successful_count := len successful;
                        failed_count := len failed;
                        success_rate := rate;
                        unique_documents_count := unique_count uniqueness_analysis;
                        duplicate_documents_count :=
                          duplicate_count uniqueness_analysis;
                        inc_uniqueness_rate := uniqueness_rate uniqueness_analysis;
                        successful_documents := successful;
                        failed_documents := failed |}, w')
          end
      end
  end.
End Api.

(** The body of the outer loop of [_increment_all_positions]. *)
Definition all_positions_body (doc_id : pystr) (max_per_position : Z) (pos : Z)
  (results : list pystr) : result (list pystr) :=
  char ← getitem doc_id pos;
  let base_before := slice doc_id None (Some pos) in
  let base_after := slice doc_id (Some (pos + 1)) None in
  for_ (range2 1 (max_per_position + 1))
    (bump_body char (λ x, base_before ++ x ++ base_after)) results.

(** The last character of the seed is a digit that [int] refuses. *)
Definition last_is_superscript (doc_id : pystr) : bool :=
  match last doc_id with
  | Some c => isdigit c && negb (isdecimal c)
  | None => false
  end.

(** A text in which whitespace occurs only as single spaces between other
    characters: no other whitespace character, no two spaces in a row,
    none at either end. *)
Definition space : ascii := " "%char.

Definition single_spaced (s : pystr) : Prop :=
  Forall (λ c, isspace c = true → c = space) s ∧
  (∀ pre post, s ≠ pre ++ space :: space :: post) ∧
  (∀ c, head s = Some c → isspace c = false) ∧
  (∀ c, last s = Some c → isspace c = false).

(** The shape of what [re.sub(r'\s+', ' ', s)] returns. *)
Inductive collapsed : pystr → Prop :=
| collapsed_nil : collapsed []
| collapsed_char c s : isspace c = false → collapsed s → collapsed (c :: s)
| collapsed_space s :
    (∀ c, head s = Some c → isspace c = false) → collapsed s →
    collapsed (space :: s).

(** The message [test_document_access] stores in [error] for an answer of
    the network that is not a success. *)
Definition failure_message (o : http_outcome) : option pystr :=
  match o with
  | Response status_code _ =>
      if decide (status_code = 200) then None
      else if decide (status_code = 403)
      then Some (str "Access forbidden - document may be private")
      else if decide (status_code = 404) then Some (str "Document not found")
      else Some (str "HTTP " ++ str_of_int status_code)
  | RequestFailed e => Some (str "Request failed: " ++ e)
  end.

(** A network that records each request with the answer it got. *)
Section Recorded.
Context {W : Type}.
Variable http_get : pystr → W → http_outcome * W.

Definition recorded_get (url : pystr) (wl : W * list (pystr * http_outcome))
  : http_outcome * (W * list (pystr * http_outcome)) :=
  let '(o, w') := http_get url wl.1 in (o, (w', wl.2 ++ [(url, o)])).
End Recorded.

(** [POST /analyze-uniqueness] *)
Section ApiUniqueness.
Variable parse : pystr → option SoupView.
Variable W : Type.
Variable float : Type.
Variable http_get : pystr → W → http_outcome * W.
Variable sleep : float → W → W.

Definition analyze_document_uniqueness (document_ids : list pystr) (delay : float)
  (w : W) : http_result UniquenessReport * W :=
  let '(results, w') :=
    batch_test_documents parse W float http_get sleep document_ids delay w in
  match analyze_uniqueness results with
  | Ok uniqueness_analysis => (Reply uniqueness_analysis, w')
  | Raise e => (HTTPException 500 e, w')
  end.
End ApiUniqueness.

(** * Proofs *)

(** ** The result monad and the loops *)

Lemma bind_Ok {A B} (f : A → result B) (a : A) : (Ok a ≫= f) = f a.
Proof. reflexivity. Qed.

Lemma bind_Raise {A B} (f : A → result B) (e : exn) : (Raise e ≫= f) = Raise e.
Proof. reflexivity. Qed.

Lemma bind_is_Ok {A B} (f : A → result B) (m : result A) (b : B) :
  (m ≫= f) = Ok b → ∃ a, m = Ok a ∧ f a = Ok b.
Proof. destruct m as [a|e]; [eauto | discriminate]. Qed.

(** A loop whose body never raises returns, and keeps any invariant the
    body keeps. *)
Lemma for_invariant {X S} (P : S → Prop) (xs : list X) (body : X → S → result S) :
  (∀ x st, x ∈ xs → P st → ∃ st', body x st = Ok st' ∧ P st') →
  ∀ st, P st → ∃ st', for_ xs body st = Ok st' ∧ P st'.
Proof.
  induction xs as [|x xs IH]; intros Hbody st Hst; simpl.
  - eauto.
  - destruct (Hbody x st) as (st1 & -> & H1); [left | done |].
    simpl. apply IH; [|done]. intros y st2 Hy. apply Hbody. by right.
Qed.

Lemma for_app {X S} (xs ys : list X) (body : X → S → result S) st :
  for_ (xs ++ ys) body st = (for_ xs body st ≫= for_ ys body).
Proof.
  revert st; induction xs as [|x xs IH]; intros st; simpl; [done|].
  destruct (body x st); simpl; [apply IH | done].
Qed.

(** ** Indexing and ranges *)

Lemma len_nonneg {A} (l : list A) : 0 ≤ len l.
Proof. unfold len; lia. Qed.

Lemma len_nil {A} : len (@nil A) = 0.
Proof. reflexivity. Qed.

Lemma len_app {A} (l k : list A) : len (l ++ k) = len l + len k.
Proof. unfold len. rewrite length_app. lia. Qed.

Lemma len_cons {A} (x : A) (l : list A) : len (x :: l) = 1 + len l.
Proof. unfold len. simpl. lia. Qed.

Lemma len_zero_inv {A} (l : list A) : len l = 0 → l = [].
Proof. destruct l; [done | unfold len; simpl; lia]. Qed.

Lemma getitem_Ok {A} (s : list A) (i : Z) :
  0 ≤ i < len s → ∃ c, getitem s i = Ok c ∧ s !! Z.to_nat i = Some c.
Proof.
  intros Hi. unfold getitem.
  destruct (decide (i < 0)); [lia|].
  destruct (decide (0 ≤ i < len s)); [|lia].
  destruct (lookup_lt_is_Some_2 s (Z.to_nat i)) as [c Hc]; [unfold len in *; lia|].
  rewrite Hc. eauto.
Qed.

Lemma elem_of_range2 (a b i : Z) : i ∈ range2 a b ↔ a ≤ i < b.
Proof. unfold range2. rewrite elem_of_seqZ. lia. Qed.

Lemma elem_of_range1 (n i : Z) : i ∈ range1 n ↔ 0 ≤ i < n.
Proof. unfold range1. apply elem_of_range2. Qed.

Lemma range3_zero_step (start stop : Z) : range3 start stop 0 = Raise ValueError.
Proof. reflexivity. Qed.

(** ** C7 *)

(** C7: for every seed, mutation with an empty list of strategies returns
    the empty list of candidates. *)
Theorem C7_no_strategy_no_candidate (base_id : pystr) :
  generate_incremented_ids base_id (Some []) = Ok [].
Proof.
  unfold generate_incremented_ids. simpl.
  by rewrite elements_empty.
Qed.

(** ** C5 *)

Lemma alternating_body_inert (doc_id : pystr) (i : Z) (st : unit) :
  0 ≤ i < len doc_id - 1 → alternating_body doc_id i st = Ok st.
Proof.
  intros Hi. unfold alternating_body.
  destruct (getitem_Ok doc_id i) as (c & -> & _); [lia|].
  destruct (getitem_Ok doc_id (i + 1)) as (n & -> & _); [lia|].
  simpl. case_bool_decide; [|done].
  by destruct (negb _).
Qed.

Lemma check_alternating_value (doc_id : pystr) :
  _check_alternating_pattern doc_id = Ok (bool_decide (2 ≤ len doc_id)).
Proof.
  unfold _check_alternating_pattern.
  destruct (decide (len doc_id < 2)) as [Hlt|Hge].
  - by rewrite bool_decide_eq_false_2 by lia.
  - rewrite bool_decide_eq_true_2 by lia.
    destruct (for_invariant (λ _, True) (range1 (len doc_id - 1))
      (alternating_body doc_id)) with (st := ()) as (st' & -> & _); [|done|done].
    intros i st Hi _. exists st. split; [|done].
    apply alternating_body_inert. by apply elem_of_range1.
Qed.

(** C5: the alternating-pattern flag of structure analysis is [True] for
    every identifier of length at least 2 and [False] for length 0 or 1;
    the check returns for every input, and at every index the body of its
    loop returns without changing anything. *)
Theorem C5_alternating_flag_is_length_test (doc_id : pystr) :
  _check_alternating_pattern doc_id = Ok (bool_decide (2 ≤ len doc_id)) ∧
  Forall (λ i, alternating_body doc_id i () = Ok ()) (range1 (len doc_id - 1)) ∧
  ∃ report, analyze_id_structure doc_id = Ok report ∧
    alternating_pattern (pattern_analysis report) = bool_decide (2 ≤ len doc_id).
Proof.
  split; [apply check_alternating_value|]. split.
  { apply Forall_forall. intros i Hi. apply alternating_body_inert.
    by apply elem_of_range1. }
  unfold analyze_id_structure, _analyze_patterns.
  rewrite check_alternating_value. simpl.
  destruct (decide (doc_id ≠ [])) as [Hne|He].
  - destruct (getitem_Ok doc_id 0) as (c & -> & _).
    { destruct doc_id; [done | rewrite len_cons; pose proof (len_nonneg doc_id); lia]. }
    simpl. eexists; split; done.
  - simpl. eexists; split; done.
Qed.

(** ** C8 *)

(** C8: structure analysis of the empty string returns, with length 0, an
    empty character histogram, no run and no separator found, and every
    flag false. *)
Theorem C8_empty_string_report :
  ∃ report, analyze_id_structure [] = Ok report ∧
    id_length report = 0 ∧
    character_counts report = ∅ ∧
    has_hyphens report = false ∧
    has_underscores report = false ∧
    alphanumeric_only report = false ∧
    starts_with_digit report = false ∧
    consecutive_digits (pattern_analysis report) = [] ∧
    consecutive_letters (pattern_analysis report) = [] ∧
    special_chars (pattern_analysis report) = [] ∧
    alternating_pattern (pattern_analysis report) = false.
Proof.
  eexists. split; [reflexivity|]. simpl.
  repeat split; reflexivity.
Qed.

(** ** The uniqueness report *)

Section uniqueness.
Implicit Types (d : list (pystr * Z)) (docs : list DocumentInfo.t).

Lemma dict_set_length k v d :
  (length d ≤ length (dict_set k v d) ≤ S (length d))%nat.
Proof.
  induction d as [|[k' v'] d IH]; simpl; [lia|].
  destruct (decide (k = k')); simpl; lia.
Qed.

Lemma count_hash_falsy doc d :
  truthy (DocumentInfo.content_hash doc) = false → count_hash doc d = Ok d.
Proof. unfold count_hash. by intros ->. Qed.

Lemma count_hash_truthy doc d :
  truthy (DocumentInfo.content_hash doc) = true →
  ∃ d', count_hash doc d = Ok d' ∧ (length d ≤ length d' ≤ S (length d))%nat.
Proof.
  unfold count_hash. intros ->. eexists. split; [done|]. apply dict_set_length.
Qed.

(** The counting loop returns; the falsy fingerprints leave no trace, and
    the dictionary gains at most one key per truthy one. *)
Lemma count_loop docs d :
  ∃ d', for_ docs count_hash d = Ok d' ∧
    for_ (filter (λ r, truthy (DocumentInfo.content_hash r) = true) docs)
      count_hash d = Ok d' ∧
    (length d ≤ length d' ≤
      length d + length (filter (λ r, truthy (DocumentInfo.content_hash r) = true) docs))%nat.
Proof.
  revert d; induction docs as [|doc docs IH]; intros d.
  - exists d. simpl. repeat split; lia.
  - destruct (truthy (DocumentInfo.content_hash doc)) eqn:Ht.
    + rewrite filter_cons_True by done.
      destruct (count_hash_truthy doc d Ht) as (d1 & Hd1 & Hlen1).
      destruct (IH d1) as (d' & Hd' & Hf' & Hlen).
      exists d'. simpl. rewrite Hd1. simpl. repeat split; [done | done | lia | lia].
    + rewrite filter_cons_False by (rewrite Ht; done).
      simpl. rewrite (count_hash_falsy doc d Ht). simpl. apply IH.
Qed.

End uniqueness.

(** The report on a batch with at least one accessible result. *)
Lemma analyze_uniqueness_accessible (results : list DocumentInfo.t) :
  filter (λ r, DocumentInfo.accessible r = true) results ≠ [] →
  ∃ hash_counts,
    for_ (filter (λ r, DocumentInfo.accessible r = true) results) count_hash []
      = Ok hash_counts ∧
    analyze_uniqueness results = Ok
      {| total_tested := len results;
         accessible_count := len (filter (λ r, DocumentInfo.accessible r = true) results);
         unique_count := len hash_counts;
         duplicate_count :=
           len (filter (λ r, DocumentInfo.accessible r = true) results) - len hash_counts;
         uniqueness_rate :=
           (Qmake (len hash_counts) 1 /
            Qmake (len (filter (λ r, DocumentInfo.accessible r = true) results)) 1)%Q;
         unique_hashes := dict_keys hash_counts |}.
Proof.
  intros Hne. unfold analyze_uniqueness.
  destruct (count_loop (filter (λ r, DocumentInfo.accessible r = true) results) [])
    as (d' & Hd' & _ & _).
  exists d'. split; [done|].
  rewrite decide_False by done. rewrite Hd'. simpl.
  rewrite decide_True by done. unfold truediv.
  rewrite decide_False; [done|].
  intros H0. by apply len_zero_inv in H0.
Qed.

Lemma analyze_uniqueness_none_accessible (results : list DocumentInfo.t) :
  filter (λ r, DocumentInfo.accessible r = true) results = [] →
  analyze_uniqueness results = Ok
    {| total_tested := len results; accessible_count := 0; unique_count := 0;
       duplicate_count := 0; uniqueness_rate := 0%Q; unique_hashes := [] |}.
Proof. intros H. unfold analyze_uniqueness. by rewrite decide_True. Qed.

Lemma rate_bounds (u a : Z) :
  0 ≤ u ≤ a → 0 < a → (0 <= Qmake u 1 / Qmake a 1 <= 1)%Q.
Proof.
  intros Hu Ha.
  assert (Hpos : (0 < Qmake a 1)%Q) by (unfold Qlt; simpl; lia).
  split.
  - apply Qle_shift_div_l; [done|]. unfold Qle; simpl; lia.
  - apply Qle_shift_div_r; [done|]. unfold Qle; simpl; lia.
Qed.

(** ** C4 *)

(** C4: for every list of probe results the report is produced, its unique
    and duplicate counts add up to the accessible count, the uniqueness
    rate lies between 0 and 1, and it is 0 when nothing was accessible. *)
Theorem C4_report_invariants (results : list DocumentInfo.t) :
  ∃ report, analyze_uniqueness results = Ok report ∧
    unique_count report + duplicate_count report = accessible_count report ∧
    0 ≤ unique_count report ∧ 0 ≤ duplicate_count report ∧
    (0 <= uniqueness_rate report <= 1)%Q ∧
    (accessible_count report = 0 → uniqueness_rate report = 0%Q).
Proof.
  destruct (decide (filter (λ r, DocumentInfo.accessible r = true) results = []))
    as [Hnone|Hsome].
  - rewrite (analyze_uniqueness_none_accessible _ Hnone).
    eexists; split; [done|]. simpl. repeat split; done.
  - destruct (analyze_uniqueness_accessible _ Hsome) as (d & Hd & ->).
    destruct (count_loop (filter (λ r, DocumentInfo.accessible r = true) results) [])
      as (d' & Hd' & _ & Hlen).
    rewrite Hd in Hd'. injection Hd' as <-. simpl in Hlen.
    pose proof (length_filter (λ r, truthy (DocumentInfo.content_hash r) = true)
      (filter (λ r, DocumentInfo.accessible r = true) results)) as Hf.
    assert (Hacc : 0 < len (filter (λ r, DocumentInfo.accessible r = true) results)).
    { destruct (filter _ results); [done | rewrite len_cons; pose proof (len_nonneg l); lia]. }
    eexists; split; [done|]. simpl.
    unfold len in *.
    split; [lia|]. split; [lia|]. split; [lia|]. split.
    + apply rate_bounds; lia.
    + lia.
Qed.

(** ** C6 *)

(** C6: on an empty batch, and on any batch without an accessible result,
    the analysis returns the report whose total is the input length, whose
    three counts are 0, whose rate is 0 and whose list of fingerprints is
    empty. *)
Theorem C6_nothing_accessible (results : list DocumentInfo.t) :
  Forall (λ r, DocumentInfo.accessible r = false) results →
  analyze_uniqueness results = Ok
    {| total_tested := len results; accessible_count := 0; unique_count := 0;
       duplicate_count := 0; uniqueness_rate := 0%Q; unique_hashes := [] |}.
Proof.
  intros Hall. apply analyze_uniqueness_none_accessible.
  induction Hall as [|r results Hr _ IH]; [done|].
  rewrite filter_cons_False; [done|]. rewrite Hr. done.
Qed.

Lemma C6_nothing_accessible_witness :
  analyze_uniqueness [] = Ok
    {| total_tested := 0; accessible_count := 0; unique_count := 0;
       duplicate_count := 0; uniqueness_rate := 0%Q; unique_hashes := [] |} ∧
  analyze_uniqueness [private_doc; private_doc] = Ok
    {| total_tested := 2; accessible_count := 0; unique_count := 0;
       duplicate_count := 0; uniqueness_rate := 0%Q; unique_hashes := [] |}.
Proof.
  split.
  - apply (C6_nothing_accessible []). constructor.
  - apply (C6_nothing_accessible [private_doc; private_doc]).
    repeat constructor.
Defined.

(** ** C10 *)

Lemma truthy_filter_drop_unhashed (docs : list DocumentInfo.t) :
  filter (λ r, truthy (DocumentInfo.content_hash r) = true)
    (filter (λ r, DocumentInfo.accessible r = true)
       (filter (λ r, ¬ accessible_without_hash r) docs)) =
  filter (λ r, truthy (DocumentInfo.content_hash r) = true)
    (filter (λ r, DocumentInfo.accessible r = true) docs).
Proof.
  induction docs as [|r docs IH]; [done|].
  destruct (decide (accessible_without_hash r)) as [[Ha Hh]|Hn].
  - rewrite (filter_cons_False (λ r, ¬ accessible_without_hash r)).
    2:{ intros Hc. apply Hc. by split. }
    rewrite (filter_cons_True (λ r, DocumentInfo.accessible r = true)) by done.
    rewrite (filter_cons_False (λ r, truthy (DocumentInfo.content_hash r) = true)); [done|].
    by rewrite Hh.
  - rewrite (filter_cons_True (λ r, ¬ accessible_without_hash r)) by done.
    destruct (decide (DocumentInfo.accessible r = true)) as [Ha|Ha].
    + rewrite !(filter_cons_True (λ r, DocumentInfo.accessible r = true)) by done.
      destruct (decide (truthy (DocumentInfo.content_hash r) = true)).
      * rewrite !(filter_cons_True (λ r, truthy _ = true)) by done. by rewrite IH.
      * rewrite !(filter_cons_False (λ r, truthy _ = true)) by done. done.
    + rewrite !(filter_cons_False (λ r, DocumentInfo.accessible r = true)) by done. done.
Qed.

Lemma accessible_split (docs : list DocumentInfo.t) :
  len (filter (λ r, DocumentInfo.accessible r = true) docs) =
  len (filter (λ r, DocumentInfo.accessible r = true)
         (filter (λ r, ¬ accessible_without_hash r) docs))
  + len (filter accessible_without_hash docs).
Proof.
  induction docs as [|r docs IH]; [done|].
  destruct (decide (accessible_without_hash r)) as [[Ha Hh]|Hn].
  - rewrite (filter_cons_False (λ r, ¬ accessible_without_hash r)).
    2:{ intros Hc. apply Hc. by split. }
    rewrite (filter_cons_True (λ r, DocumentInfo.accessible r = true)) by done.
    rewrite (filter_cons_True accessible_without_hash) by done.
    rewrite !len_cons. lia.
  - rewrite (filter_cons_True (λ r, ¬ accessible_without_hash r)) by done.
    rewrite (filter_cons_False accessible_without_hash) by done.
    destruct (decide (DocumentInfo.accessible r = true)) as [Ha|Ha].
    + rewrite !(filter_cons_True (λ r, DocumentInfo.accessible r = true)) by done.
      rewrite !len_cons. lia.
    + rewrite !(filter_cons_False (λ r, DocumentInfo.accessible r = true)) by done. done.
Qed.

(** The report in one shape for both branches of the function. *)
Lemma analyze_uniqueness_counts (results : list DocumentInfo.t) :
  ∃ report hash_counts,
    analyze_uniqueness results = Ok report ∧
    for_ (filter (λ r, truthy (DocumentInfo.content_hash r) = true)
            (filter (λ r, DocumentInfo.accessible r = true) results)) count_hash []
      = Ok hash_counts ∧
    accessible_count report = len (filter (λ r, DocumentInfo.accessible r = true) results) ∧
    unique_count report = len hash_counts ∧
    duplicate_count report = accessible_count report - unique_count report ∧
    unique_hashes report = dict_keys hash_counts.
Proof.
  destruct (decide (filter (λ r, DocumentInfo.accessible r = true) results = []))
    as [Hnone|Hsome].
  - rewrite (analyze_uniqueness_none_accessible _ Hnone), Hnone.
    eexists _, []. repeat split; done.
  - destruct (analyze_uniqueness_accessible _ Hsome) as (d & Hd & ->).
    destruct (count_loop (filter (λ r, DocumentInfo.accessible r = true) results) [])
      as (d' & Hd' & Hf & _).
    rewrite Hd in Hd'. injection Hd' as <-.
    eexists _, d. repeat split; done.
Qed.

(** C10: an accessible result without a fingerprint is counted as
    accessible and as a duplicate, never as unique: taking such results out
    of a batch lowers the accessible and the duplicate count by their
    number and leaves the unique count and the fingerprints as they were.
    A batch of one such result has 0 unique, 1 duplicate and rate 0. *)
Theorem C10_unhashed_results_count_as_duplicates (results : list DocumentInfo.t) :
  (∃ report report',
     analyze_uniqueness results = Ok report ∧
     analyze_uniqueness (filter (λ r, ¬ accessible_without_hash r) results) = Ok report' ∧
     accessible_count report =
       accessible_count report' + len (filter accessible_without_hash results) ∧
     unique_count report = unique_count report' ∧
     duplicate_count report =
       duplicate_count report' + len (filter accessible_without_hash results) ∧
     unique_hashes report = unique_hashes report') ∧
  analyze_uniqueness [unhashed_doc] = Ok
    {| total_tested := 1; accessible_count := 1; unique_count := 0;
       duplicate_count := 1; uniqueness_rate := 0%Q; unique_hashes := [] |}.
Proof.
  split; [|reflexivity].
  destruct (analyze_uniqueness_counts results)
    as (rep & d & Hrep & Hd & Hacc & Huniq & Hdup & Hkeys).
  destruct (analyze_uniqueness_counts (filter (λ r, ¬ accessible_without_hash r) results))
    as (rep' & d' & Hrep' & Hd' & Hacc' & Huniq' & Hdup' & Hkeys').
  rewrite truthy_filter_drop_unhashed, Hd in Hd'. injection Hd' as <-.
  exists rep, rep'. split; [done|]. split; [done|].
  pose proof (accessible_split results).
  repeat split; [lia | lia | lia | congruence].
Qed.

(** ** The pattern-based heuristics return or raise *)

Lemma for_total {X S} (xs : list X) (body : X → S → result S) (st : S) :
  (∀ x st, x ∈ xs → is_ok (body x st)) → is_ok (for_ xs body st).
Proof.
  intros Hbody.
  destruct (for_invariant (λ _, True) xs body) with (st := st) as (st' & H & _);
    [|done|by exists st'].
  intros x st0 Hx _. destruct (Hbody x st0 Hx) as [st1 H1]. eauto.
Qed.

Lemma hyphen_variations_total (base_id : pystr) (count : Z) :
  is_ok (_test_hyphen_variations base_id count).
Proof.
  unfold _test_hyphen_variations, known_hyphen_positions.
  cbn [for_]. rewrite decide_False by done. cbn [max_list_Z foldl mbind result_bind].
  set (chars := replace [dash] [] base_id).
  assert (Hinner : ∀ cs, is_ok (for_ (sorted_reverse [13; 23; 41])
            (λ pos chars0, if decide (pos < len chars0)
                           then Ok (list_insert_at pos dash chars0) else Ok chars0) cs)).
  { intros cs. apply for_total. intros pos st _. destruct (decide _); by eexists. }
  destruct (decide (len chars >= _)).
  - destruct (Hinner chars) as [cs ->]. cbn [mbind result_bind].
    destruct (decide (len cs = 44)); cbn [mbind result_bind];
      rewrite decide_True by done; destruct (decide (len chars = 44)); by eexists.
  - cbn [mbind result_bind]. rewrite decide_True by done.
    destruct (decide (len chars = 44)); by eexists.
Qed.

Lemma digit_sequence_patterns_total (base_id : pystr) (count : Z) :
  is_ok (_test_digit_sequence_patterns base_id count).
Proof.
  unfold _test_digit_sequence_patterns.
  match goal with |- is_ok (for_ ?xs ?body ?st ≫= _) =>
    destruct (for_total xs body st) as [r ->]; [|by eexists] end.
  intros seq results _. destruct (decide (len seq >= 2)); [|by eexists].
  destruct (int_ seq) as [num|e] eqn:Hint.
  - cbn [mbind result_bind].
    match goal with |- is_ok (match for_ ?xs ?body ?st with _ => _ end) =>
      destruct (for_total xs body st) as [r ->]; [|by eexists] end.
    intros delta st _. destruct (decide _); by eexists.
  - unfold int_ in Hint. destruct (_ && _); [done|]. injection Hint as <-.
    by eexists.
Qed.

Lemma swap_adjacent_total (base_id : pystr) (i : Z) :
  0 ≤ i < len base_id - 1 → is_ok (swap_adjacent base_id i).
Proof.
  intros Hi. unfold swap_adjacent.
  destruct (getitem_Ok base_id i) as (a & -> & _); [lia|].
  destruct (getitem_Ok base_id (i + 1)) as (b & -> & _); [lia|].
  by eexists.
Qed.

Lemma segment_boundaries_total (base_id : pystr) (count : Z) :
  is_ok (_test_segment_boundaries base_id count).
Proof.
  unfold _test_segment_boundaries.
  match goal with |- is_ok (for_ ?xs ?body ?st ≫= _) =>
    destruct (for_total xs body st) as [r ->]; [|by eexists] end.
  intros i results Hi. apply elem_of_range1 in Hi.
  destruct (getitem_Ok base_id i) as (a & -> & _); [lia|].
  destruct (getitem_Ok base_id (i + 1)) as (b & -> & _); [lia|].
  cbn [mbind result_bind].
  destruct (swap_adjacent_total base_id i Hi) as [new_id ->].
  destruct (_ && _); [by eexists|]. destruct (_ && _); by eexists.
Qed.

(** The stride of [_test_length_variations] is 0 on a short seed, and
    [range] refuses it. *)
Lemma length_variations_short (base_id : pystr) (count : Z) :
  0 < count → len base_id < count →
  _test_length_variations base_id count = Raise ValueError.
Proof.
  intros Hc Hlen. unfold _test_length_variations, floordiv.
  rewrite decide_False by lia. cbn [mbind result_bind].
  rewrite Z.div_small by (pose proof (len_nonneg base_id); lia).
  by rewrite range3_zero_step.
Qed.

Lemma pattern_based_short (base_id : pystr) :
  len base_id < 5 → _generate_pattern_based_ids base_id 20 = Raise ValueError.
Proof.
  intros Hlen. unfold _generate_pattern_based_ids.
  change (floordiv 20 4) with (Ok 5 : result Z). cbn [mbind result_bind].
  destruct (hyphen_variations_total base_id 5) as [r1 ->].
  destruct (digit_sequence_patterns_total base_id 5) as [r2 ->].
  destruct (segment_boundaries_total base_id 5) as [r3 ->].
  cbn [mbind result_bind].
  by rewrite length_variations_short by lia.
Qed.

(** ** C1 *)

(** C1 (violated by the code): on a seed of fewer than five characters the
    strategy [pattern_based] does not return a list: the stride of the
    length-variation heuristic is [len(base_id) // 5 = 0] and [range]
    raises [ValueError], which nothing catches.  So it is with the default
    strategies on the empty seed.  A seed that ends in a superscript digit
    raises too, in [int], under [last_char]. *)
Theorem C1_short_seed_raises (base_id : pystr) :
  len base_id < 5 →
  _test_length_variations base_id 5 = Raise ValueError ∧
  generate_incremented_ids base_id (Some [str "pattern_based"]) = Raise ValueError ∧
  generate_incremented_ids [] None = Raise ValueError ∧
  generate_incremented_ids [ascii_of_nat 178] (Some [str "last_char"]) = Raise ValueError.
Proof.
  intros Hlen. split; [by apply length_variations_short|]. split.
  - unfold generate_incremented_ids. cbn [for_].
    change (apply_strategy base_id (str "pattern_based") []) with
      (r ← _generate_pattern_based_ids base_id 20; Ok ([] ++ r)).
    by rewrite pattern_based_short.
  - split; reflexivity.
Qed.

Lemma C1_short_seed_raises_witness :
  generate_incremented_ids (str "abc") (Some [str "pattern_based"]) = Raise ValueError.
Proof. apply (C1_short_seed_raises (str "abc")). reflexivity. Defined.

(** ** The backward scan *)

Lemma range3_down (n : Z) :
  0 ≤ n → range3 (n - 1) (-1) (-1) = Ok ((λ k, n - 1 - k) <$> seqZ 0 n).
Proof.
  intros Hn. unfold range3. rewrite decide_False by lia. rewrite decide_False by lia.
  f_equal. replace ((n - 1 - -1 - -1 - 1) / - -1) with n.
  2:{ change (- -1) with 1. rewrite Z.div_1_r. lia. }
  apply list_fmap_ext. intros _ k _. lia.
Qed.

Lemma range3_down_succ (n : Z) :
  0 ≤ n →
  (λ k, n + 1 - 1 - k) <$> seqZ 0 (n + 1) = n :: ((λ k, n - 1 - k) <$> seqZ 0 n).
Proof.
  intros Hn. rewrite seqZ_cons by lia. cbn [fmap list_fmap]. f_equal; [lia|].
  replace (Z.pred (n + 1)) with n by lia.
  change (Z.succ 0) with (1 + 0).
  rewrite <- (fmap_add_seqZ 1 0 n), <- list_fmap_compose.
  apply list_fmap_ext. intros _ k _. simpl. lia.
Qed.

Lemma getitem_app_l {A} (l k : list A) (i : Z) :
  0 ≤ i < len l → getitem (l ++ k) i = getitem l i.
Proof.
  intros Hi. unfold getitem. rewrite len_app. pose proof (len_nonneg k).
  destruct (decide (i < 0)); [lia|].
  destruct (decide (0 ≤ i < len l + len k)); [|lia].
  destruct (decide (0 ≤ i < len l)); [|lia].
  rewrite lookup_app_l; [done|]. unfold len in Hi. lia.
Qed.

Lemma getitem_middle {A} (l k : list A) (x : A) :
  getitem (l ++ x :: k) (len l) = Ok x.
Proof.
  unfold getitem. rewrite len_app, len_cons.
  pose proof (len_nonneg l). pose proof (len_nonneg k).
  destruct (decide (len l < 0)); [lia|].
  destruct (decide (0 ≤ len l < len l + (1 + len k))); [|lia].
  unfold len. rewrite Nat2Z.id. by rewrite list_lookup_middle.
Qed.

Lemma for_break_ext {X S} (xs : list X) (f g : X → S → result (ctl S)) (st : S) :
  (∀ x st, x ∈ xs → f x st = g x st) → for_break xs f st = for_break xs g st.
Proof.
  revert st; induction xs as [|x xs IH]; intros st Hfg; [done|].
  simpl. rewrite Hfg by left. destruct (g x st) as [[st'|st']|]; simpl; try done.
  apply IH. intros y st0 Hy. apply Hfg. by right.
Qed.

Lemma last_pos_of_nil (p : ascii → bool) : last_pos_of p [] = Ok (-1).
Proof. reflexivity. Qed.

Lemma last_pos_of_snoc (p : ascii → bool) (l : pystr) (x : ascii) :
  last_pos_of p (l ++ [x]) = if p x then Ok (len l) else last_pos_of p l.
Proof.
  unfold last_pos_of. pose proof (len_nonneg l).
  rewrite len_app. change (len [x]) with 1.
  rewrite (range3_down (len l + 1)) by lia.
  rewrite (range3_down (len l)) by done.
  rewrite range3_down_succ by done.
  cbn [mbind result_bind for_break]. rewrite getitem_middle. cbn [mbind result_bind].
  destruct (p x); [done|].
  apply for_break_ext. intros i st Hi.
  apply list_elem_of_fmap in Hi as (k & -> & Hk). apply elem_of_seqZ in Hk.
  rewrite getitem_app_l by lia. done.
Qed.

(** The scan stops at the rightmost character of the class. *)
Lemma last_pos_of_found (p : ascii → bool) (pre post : pystr) (c : ascii) :
  p c = true → Forall (λ x, p x = false) post →
  last_pos_of p (pre ++ c :: post) = Ok (len pre).
Proof.
  intros Hc. induction post as [|x post IH] using rev_ind; intros Hpost.
  - rewrite (last_pos_of_snoc p pre c), Hc. done.
  - apply Forall_app in Hpost as [Hpost Hx]. rewrite Forall_singleton in Hx.
    change (pre ++ c :: post ++ [x]) with (pre ++ (c :: post) ++ [x]).
    rewrite (assoc_L (++) pre (c :: post) [x]).
    rewrite (last_pos_of_snoc p (pre ++ c :: post) x), Hx. by apply IH.
Qed.

Lemma last_pos_of_none (p : ascii → bool) (s : pystr) :
  Forall (λ x, p x = false) s → last_pos_of p s = Ok (-1).
Proof.
  induction s as [|x s IH] using rev_ind; intros Hs; [done|].
  apply Forall_app in Hs as [Hs Hx]. rewrite Forall_singleton in Hx.
  rewrite last_pos_of_snoc, Hx. by apply IH.
Qed.

(** ** Cutting a string at the rightmost character of a class *)

Lemma split_first_Some (p : ascii → bool) (s a b : pystr) (c : ascii) :
  split_first p s = Some (a, c, b) →
  s = a ++ c :: b ∧ p c = true ∧ Forall (λ x, p x = false) a.
Proof.
  revert a; induction s as [|x s IH]; intros a; simpl; [done|].
  destruct (p x) eqn:Hx.
  - intros [= <- <- <-]. by repeat split.
  - destruct (split_first p s) as [[[a' c'] b']|]; simpl; [|done].
    intros [= <- <- <-]. destruct (IH a' eq_refl) as (-> & Hc & Ha).
    repeat split; [done|]. by constructor.
Qed.

Lemma split_first_None (p : ascii → bool) (s : pystr) :
  split_first p s = None → Forall (λ x, p x = false) s.
Proof.
  induction s as [|x s IH]; simpl; [constructor|].
  destruct (p x) eqn:Hx; [done|].
  destruct (split_first p s) as [[[a' c'] b']|]; simpl; [done|].
  intros _. constructor; [done | by apply IH].
Qed.

Lemma split_last_Some (p : ascii → bool) (s pre post : pystr) (c : ascii) :
  split_last p s = Some (pre, c, post) →
  s = pre ++ c :: post ∧ p c = true ∧ Forall (λ x, p x = false) post.
Proof.
  unfold split_last.
  destruct (split_first p (reverse s)) as [[[a c'] b]|] eqn:Hs; simpl; [|done].
  intros [= <- <- <-]. apply split_first_Some in Hs as (Hs & Hc & Ha).
  repeat split; [|done|].
  - rewrite <- (reverse_involutive s), Hs.
    by rewrite reverse_app, reverse_cons, <- app_assoc.
  - apply Forall_forall. intros x Hx. rewrite elem_of_reverse in Hx.
    by eapply Forall_forall in Ha.
Qed.

Lemma split_last_None (p : ascii → bool) (s : pystr) :
  split_last p s = None → Forall (λ x, p x = false) s.
Proof.
  unfold split_last.
  destruct (split_first p (reverse s)) as [[[a c'] b]|] eqn:Hs; simpl; [done|].
  intros _. apply split_first_None in Hs.
  apply Forall_forall. intros x Hx. rewrite <- elem_of_reverse in Hx.
  by eapply Forall_forall in Hs.
Qed.

(** ** The candidates of [last_digit] *)

Lemma slice_prefix {A} (pre post : list A) :
  slice (pre ++ post) None (Some (len pre)) = pre.
Proof.
  unfold slice, clamp_index. cbn [from_option].
  pose proof (len_nonneg pre). pose proof (len_nonneg post).
  rewrite len_app. rewrite decide_False by lia.
  rewrite Z.min_l by lia. rewrite Z.sub_0_r. unfold len. rewrite Nat2Z.id.
  change (Z.to_nat 0) with 0%nat. rewrite drop_0. by rewrite take_app_length.
Qed.

Lemma slice_suffix {A} (pre post : list A) :
  slice (pre ++ post) (Some (len pre)) None = post.
Proof.
  unfold slice, clamp_index. cbn [from_option].
  pose proof (len_nonneg pre). pose proof (len_nonneg post).
  rewrite len_app. rewrite decide_False by lia.
  rewrite Z.min_l by lia. unfold len. rewrite Nat2Z.id, drop_app_length.
  apply take_ge. lia.
Qed.

Lemma slice_after_middle {A} (pre post : list A) (c : A) :
  slice (pre ++ c :: post) (Some (len pre + 1)) None = post.
Proof.
  change (pre ++ c :: post) with (pre ++ [c] ++ post).
  rewrite (assoc_L (++) pre [c] post).
  replace (len pre + 1) with (len (pre ++ [c])) by (rewrite len_app; done).
  apply slice_suffix.
Qed.

Lemma str_of_int_digit (d : Z) : 0 ≤ d ≤ 9 → str_of_int d = [digit_char d].
Proof.
  intros Hd.
  assert (d = 0 ∨ d = 1 ∨ d = 2 ∨ d = 3 ∨ d = 4 ∨ d = 5 ∨ d = 6 ∨ d = 7 ∨ d = 8 ∨ d = 9)
    as Hcases by lia.
  repeat (destruct Hcases as [->|Hcases]; [reflexivity|]). by subst.
Qed.

Lemma ord_range (c : ascii) : 0 ≤ ord c < 256.
Proof.
  unfold ord. pose proof (N_ascii_bounded c) as H. lia.
Qed.

Lemma isdecimal_ord (c : ascii) : isdecimal c = true ↔ 48 ≤ ord c ≤ 57.
Proof. unfold isdecimal, in_range. by rewrite bool_decide_eq_true. Qed.

Lemma digit_char_ord (c : ascii) : isdecimal c = true → digit_char (ord c - 48) = c.
Proof.
  intros Hc. unfold digit_char, ord.
  replace (48 + (Z.of_N (N_of_ascii c) - 48)) with (Z.of_N (N_of_ascii c)) by lia.
  rewrite N2Z.id. apply ascii_N_embedding.
Qed.

Lemma digit_char_inj (d e : Z) :
  0 ≤ d ≤ 9 → 0 ≤ e ≤ 9 → digit_char d = digit_char e → d = e.
Proof.
  intros Hd He Heq. unfold digit_char in Heq.
  apply (f_equal N_of_ascii) in Heq.
  rewrite !N_ascii_embedding in Heq by lia. lia.
Qed.

Lemma int_decimal_char (c : ascii) :
  isdecimal c = true → int_ [c] = Ok (ord c - 48).
Proof.
  intros Hc. unfold int_. cbn [forallb]. rewrite Hc.
  rewrite bool_decide_eq_true_2 by done. cbn. f_equal; lia.
Qed.

(** A loop that appends one value per iteration. *)
Lemma for_append {X A} (f : X → A) (xs : list X) (st : list A) :
  for_ xs (λ x results, Ok (results ++ [f x])) st = Ok (st ++ (f <$> xs)).
Proof.
  revert st; induction xs as [|x xs IH]; intros st; simpl.
  - by rewrite app_nil_r.
  - rewrite IH. by rewrite <- app_assoc.
Qed.

(** [_increment_last_digit] writes the digits at offsets 1..10 in place of
    the rightmost digit. *)
Lemma increment_last_digit_found (pre post : pystr) (c : ascii) :
  isdecimal c = true → Forall (λ x, isdigit x = false) post →
  _increment_last_digit (pre ++ c :: post) 10 =
  Ok ((λ i, pre ++ digit_char ((ord c - 48 + i) `mod` 10) :: post) <$> seqZ 1 10).
Proof.
  intros Hc Hpost. unfold _increment_last_digit.
  assert (Hdig : isdigit c = true) by (unfold isdigit; by rewrite Hc).
  rewrite (last_pos_of_found isdigit pre post c Hdig Hpost).
  cbn [mbind result_bind]. pose proof (len_nonneg pre).
  rewrite decide_False by lia.
  rewrite getitem_middle. cbn [mbind result_bind].
  rewrite (int_decimal_char c Hc). cbn [mbind result_bind].
  rewrite slice_after_middle, (slice_prefix pre (c :: post)).
  change (range2 1 (10 + 1)) with (seqZ 1 10).
  enough (Hloop : ∀ l st,
    for_ l (λ i results,
      let new_digit := (ord c - 48 + i) `mod` 10 in
      Ok (results ++ [pre ++ str_of_int new_digit ++ post])) st =
    Ok (st ++ ((λ i, pre ++ digit_char ((ord c - 48 + i) `mod` 10) :: post) <$> l)))
    by apply (Hloop (seqZ 1 10) []).
  induction l as [|i l IH]; intros st; cbn [for_ mbind result_bind fmap list_fmap].
  - by rewrite app_nil_r.
  - rewrite IH, str_of_int_digit
      by (pose proof (Z.mod_pos_bound (ord c - 48 + i) 10); lia).
    by rewrite <- app_assoc.
Qed.

Lemma increment_last_digit_none (s : pystr) (count : Z) :
  Forall (λ x, isdigit x = false) s → _increment_last_digit s count = Ok [].
Proof.
  intros Hs. unfold _increment_last_digit.
  by rewrite (last_pos_of_none isdigit s Hs).
Qed.

(** A superscript digit in that place passes [isdigit] and fails [int]. *)
Lemma increment_last_digit_superscript (pre post : pystr) (c : ascii) :
  isdigit c = true → isdecimal c = false →
  Forall (λ x, isdigit x = false) post →
  _increment_last_digit (pre ++ c :: post) 10 = Raise ValueError.
Proof.
  intros Hdig Hc Hpost. unfold _increment_last_digit.
  rewrite (last_pos_of_found isdigit pre post c Hdig Hpost).
  cbn [mbind result_bind]. pose proof (len_nonneg pre).
  rewrite decide_False by lia.
  rewrite getitem_middle. cbn [mbind result_bind].
  unfold int_. cbn [forallb]. rewrite Hc. by rewrite andb_false_r.
Qed.

Lemma last_digit_strategy (base_id : pystr) :
  generate_incremented_ids base_id (Some [str "last_digit"]) =
  r ← _increment_last_digit base_id 10;
  Ok (elements (list_to_set r : gset pystr)).
Proof.
  unfold generate_incremented_ids. cbn [for_].
  change (apply_strategy base_id (str "last_digit") []) with
    (r ← _increment_last_digit base_id 10; Ok ([] ++ r)).
  by destruct (_increment_last_digit base_id 10).
Qed.

Lemma candidates_NoDup (pre post : pystr) (v : Z) :
  NoDup ((λ i, pre ++ digit_char ((v + i) `mod` 10) :: post) <$> seqZ 1 10).
Proof.
  apply NoDup_fmap_2_strong; [|apply NoDup_seqZ].
  intros i j Hi Hj Heq. apply elem_of_seqZ in Hi, Hj.
  apply app_inv_head in Heq. injection Heq as Heq.
  apply digit_char_inj in Heq; try (apply Z.mod_pos_bound; lia);
    try (pose proof (Z.mod_pos_bound (v + i) 10); pose proof (Z.mod_pos_bound (v + j) 10); lia).
  revert Heq. Z.div_mod_to_equations. lia.
Qed.

Lemma candidates_elem (pre post : pystr) (v : Z) (cand : pystr) :
  0 ≤ v ≤ 9 →
  cand ∈ ((λ i, pre ++ digit_char ((v + i) `mod` 10) :: post) <$> seqZ 1 10) ↔
  ∃ d, 0 ≤ d ≤ 9 ∧ cand = pre ++ digit_char d :: post.
Proof.
  intros Hv. rewrite list_elem_of_fmap. split.
  - intros (i & -> & Hi). exists ((v + i) `mod` 10). split; [|done].
    pose proof (Z.mod_pos_bound (v + i) 10). lia.
  - intros (d & Hd & ->). exists ((d - v - 1) `mod` 10 + 1). split.
    + do 2 f_equal. f_equal. Z.div_mod_to_equations. lia.
    + apply elem_of_seqZ. pose proof (Z.mod_pos_bound (d - v - 1) 10). lia.
Qed.

(** The candidates of the strategy on a seed with a decimal rightmost
    digit: the ten strings that carry a digit in its place. *)
Lemma last_digit_candidates (pre post : pystr) (c : ascii) :
  isdecimal c = true → Forall (λ x, isdigit x = false) post →
  ∃ out, generate_incremented_ids (pre ++ c :: post) (Some [str "last_digit"]) = Ok out ∧
    length out = 10%nat ∧
    (∀ cand, cand ∈ out ↔ ∃ d, 0 ≤ d ≤ 9 ∧ cand = pre ++ digit_char d :: post) ∧
    pre ++ c :: post ∈ out.
Proof.
  intros Hc Hpost. rewrite last_digit_strategy.
  rewrite (increment_last_digit_found pre post c Hc Hpost). cbn [mbind result_bind].
  eexists. split; [done|].
  apply isdecimal_ord in Hc as Hord.
  assert (Helem : ∀ cand,
    cand ∈ elements (list_to_set ((λ i, pre ++ digit_char ((ord c - 48 + i) `mod` 10) :: post)
                       <$> seqZ 1 10) : gset pystr) ↔
    ∃ d, 0 ≤ d ≤ 9 ∧ cand = pre ++ digit_char d :: post).
  { intros cand. rewrite elem_of_elements, elem_of_list_to_set.
    apply candidates_elem. lia. }
  split; [|split; [done|]].
  - change (length (elements ?X)) with (size X).
    rewrite size_list_to_set by apply candidates_NoDup.
    rewrite length_fmap, length_seqZ. done.
  - apply Helem. exists (ord c - 48). split; [lia|]. by rewrite digit_char_ord.
Qed.

(** Two strings that share a prefix and a suffix around one character
    differ at that character's position or nowhere. *)
Lemma diff_positions_middle (pre post : pystr) (c d : ascii) (i : nat) :
  i ∈ diff_positions (pre ++ c :: post) (pre ++ d :: post) → i = length pre ∧ c ≠ d.
Proof.
  unfold diff_positions. rewrite list_elem_of_filter. intros [Hne _].
  destruct (decide (i = length pre)) as [->|Hi].
  - split; [done|]. intros ->. done.
  - exfalso. apply Hne.
    destruct (decide (i < length pre)%nat).
    + by rewrite !lookup_app_l by done.
    + rewrite !lookup_app_r by lia.
      destruct (i - length pre)%nat as [|k] eqn:Hk; [lia|]. done.
Qed.

Lemma diff_positions_refl (s : pystr) : diff_positions s s = [].
Proof.
  unfold diff_positions. induction (seq 0 _) as [|i l IH]; [done|].
  by rewrite filter_cons_False by (intros H; by apply H).
Qed.

(** ** C2 *)

(** C2, as the code has it: when the rightmost digit of the seed is one of
    0..9 (it always is in an ASCII seed), the strategy [last_digit] returns
    at most 10 candidates; a seed without a digit gives none, any other
    exactly the ten strings that carry a digit 0..9 at the position of the
    rightmost digit and agree with the seed everywhere else.  One of the
    ten, the one at offset 10, is the seed itself. *)
Theorem C2_last_digit_candidates (s : pystr) :
  last_digit_is_decimal s →
  ∃ out, generate_incremented_ids s (Some [str "last_digit"]) = Ok out ∧
    (length out ≤ 10)%nat ∧
    match split_last isdigit s with
    | None => out = []
    | Some (pre, c, post) =>
        s = pre ++ c :: post ∧ isdigit c = true ∧
        Forall (λ x, isdigit x = false) post ∧
        length out = 10%nat ∧
        (∀ cand, cand ∈ out ↔ ∃ d, 0 ≤ d ≤ 9 ∧ cand = pre ++ digit_char d :: post) ∧
        (∀ cand i, cand ∈ out → i ∈ diff_positions s cand → i = length pre) ∧
        s ∈ out
    end.
Proof.
  unfold last_digit_is_decimal.
  destruct (split_last isdigit s) as [[[pre c] post]|] eqn:Hsplit.
  - intros Hc. apply split_last_Some in Hsplit as (-> & Hdig & Hpost).
    destruct (last_digit_candidates pre post c Hc Hpost) as (out & Hout & Hlen & Helem & Hs).
    exists out. split; [done|]. split; [lia|].
    repeat split; try done; try (by apply Helem).
    intros cand i Hcand Hi. apply Helem in Hcand as (d & _ & ->).
    by apply diff_positions_middle in Hi as [-> _].
  - intros _. apply split_last_None in Hsplit.
    rewrite last_digit_strategy, (increment_last_digit_none s 10 Hsplit).
    cbn [mbind result_bind]. exists []. split; [|split; [simpl; lia | done]].
    by rewrite list_to_set_nil, elements_empty.
Qed.

Lemma C2_last_digit_candidates_witness :
  ∃ out, generate_incremented_ids (str "ABCDE12345") (Some [str "last_digit"]) = Ok out ∧
    (length out ≤ 10)%nat.
Proof.
  destruct (C2_last_digit_candidates (str "ABCDE12345")) as (out & Hout & Hlen & _).
  - reflexivity.
  - exists out. split; [exact Hout | exact Hlen].
Defined.

(** C2 as stated fails: on the seed ABCDE12345 the offset 10 brings the
    digit back to 5, and the seed is among its own candidates, differing
    from itself in no position. *)
Lemma C2_counterexample :
  ∃ out, generate_incremented_ids (str "ABCDE12345") (Some [str "last_digit"]) = Ok out ∧
    ∃ cand, cand ∈ out ∧ length (diff_positions (str "ABCDE12345") cand) ≠ 1%nat.
Proof.
  destruct (last_digit_candidates (str "ABCDE1234") [] "5"%char)
    as (out & Hout & _ & _ & Hs); [reflexivity | constructor |].
  exists out. split; [exact Hout|].
  exists (str "ABCDE12345"). split; [exact Hs|].
  rewrite diff_positions_refl. simpl. lia.
Qed.

(** ** The prober *)

Section prober.
Context (parse : pystr → option SoupView) {W float : Type}.
Context (http_get : pystr → W → http_outcome * W) (sleep : float → W → W).

Local Abbreviation try_urls' := (try_urls parse W http_get).
Local Abbreviation probe := (test_document_access parse W http_get).
Local Abbreviation step := (batch_step parse W float http_get sleep).
Local Abbreviation batch := (batch_test_documents parse W float http_get sleep).

Lemma try_urls_id templates doc_id d w :
  DocumentInfo.id (try_urls' templates doc_id d w).1 = DocumentInfo.id d.
Proof.
  revert d w; induction templates as [|t ts IH]; intros d w; [done|].
  cbn [try_urls]. destruct (http_get _ w) as [[status content|e] w'].
  - repeat case_decide; rewrite ?IH; done.
  - by rewrite IH.
Qed.

Lemma probe_id doc_id w : DocumentInfo.id (probe doc_id w).1 = doc_id.
Proof. unfold test_document_access. by rewrite try_urls_id. Qed.

Lemma batch_step_results doc_ids delay st i doc_id :
  results W (step doc_ids delay st (i, doc_id)) =
  results W st ++ [(probe doc_id (world W st)).1].
Proof.
  unfold batch_step. destruct (probe doc_id (world W st)) as [d w].
  by destruct (_ && _); [destruct (decide _)|].
Qed.

Lemma batch_fold_ids doc_ids delay items st :
  DocumentInfo.id <$> results W (foldl (step doc_ids delay) st items) =
  (DocumentInfo.id <$> results W st) ++ items.*2.
Proof.
  revert st; induction items as [|[i doc_id] items IH]; intros st; cbn [foldl].
  - by rewrite app_nil_r.
  - rewrite IH, batch_step_results, fmap_app. cbn [fmap list_fmap].
    rewrite probe_id. by rewrite <- app_assoc.
Qed.

Lemma enumerate_snd {A} (l : list A) : (enumerate l).*2 = l.
Proof.
  unfold enumerate. apply snd_zip.
  unfold range1, range2. rewrite length_seqZ. unfold len. lia.
Qed.

Lemma batch_ids doc_ids delay w :
  DocumentInfo.id <$> (batch doc_ids delay w).1 = doc_ids.
Proof.
  unfold batch_test_documents. cbn [fst].
  by rewrite batch_fold_ids, enumerate_snd.
Qed.
End prober.

(** The requests of a batch, as the logging network records them. *)
Section prober_log.
Context (parse : pystr → option SoupView) {W float : Type}.
Context (http_get : pystr → W → http_outcome * W) (sleep : float → W → W).

Local Abbreviation lget := (logged_get http_get).
Local Abbreviation lsleep := (logged_sleep sleep).
Local Abbreviation ltry := (try_urls parse (W * list pystr) lget).
Local Abbreviation lprobe := (test_document_access parse (W * list pystr) lget).
Local Abbreviation lstep := (batch_step parse (W * list pystr) float lget lsleep).
Local Abbreviation lbatch := (batch_test_documents parse (W * list pystr) float lget lsleep).

Lemma try_urls_log templates doc_id d wl :
  ∃ more, (ltry templates doc_id d wl).2.2 = wl.2 ++ more.
Proof.
  revert d wl; induction templates as [|t ts IH]; intros d wl.
  - exists []. by rewrite app_nil_r.
  - cbn [try_urls]. unfold logged_get at 1.
    destruct (http_get (format t doc_id) wl.1) as [[status content|e] w'].
    + destruct (decide (status = 200)); [by eexists|].
      destruct (decide (status = 403)); [|destruct (decide (status = 404))];
        edestruct IH as [more ->]; cbn [snd]; rewrite <- app_assoc; by eexists.
    + edestruct IH as [more ->]. cbn [snd]. rewrite <- app_assoc. by eexists.
Qed.

Lemma try_urls_cons_log t ts doc_id d wl :
  ∃ more, (ltry (t :: ts) doc_id d wl).2.2 = wl.2 ++ format t doc_id :: more.
Proof.
  cbn [try_urls]. unfold logged_get at 1.
  destruct (http_get (format t doc_id) wl.1) as [[status content|e] w'].
  - destruct (decide (status = 200)); [by eexists|].
    destruct (decide (status = 403)); [|destruct (decide (status = 404))];
      edestruct try_urls_log as [more ->]; cbn [snd]; rewrite <- app_assoc; by eexists.
  - edestruct try_urls_log as [more ->]. cbn [snd]. rewrite <- app_assoc. by eexists.
Qed.

(** Every probe starts with a request for the edit view of its identifier. *)
Lemma probe_log doc_id wl :
  ∃ more, (lprobe doc_id wl).2.2 = wl.2 ++ edit_url doc_id :: more.
Proof. unfold test_document_access. apply try_urls_cons_log. Qed.

Lemma batch_step_log doc_ids delay st i doc_id :
  (world _ (lstep doc_ids delay st (i, doc_id))).2 =
  (lprobe doc_id (world _ st)).2.2.
Proof.
  unfold batch_step. destruct (lprobe doc_id (world _ st)) as [d w].
  destruct (_ && _); [destruct (decide (_ ∉ _))|]; cbn [world snd];
    by destruct (decide (i < _)).
Qed.

Lemma batch_fold_log doc_ids delay items st :
  ∃ chunks,
    (world _ (foldl (lstep doc_ids delay) st items)).2 =
      (world _ st).2 ++ concat chunks ∧
    Forall2 (λ doc_id chunk, ∃ more, chunk = edit_url doc_id :: more) items.*2 chunks.
Proof.
  revert st; induction items as [|[i doc_id] items IH]; intros st; cbn [foldl].
  - exists []. split; [by rewrite app_nil_r | constructor].
  - destruct (IH (lstep doc_ids delay st (i, doc_id))) as (chunks & -> & Hall).
    rewrite batch_step_log.
    destruct (probe_log doc_id (world _ st)) as [more ->].
    exists ((edit_url doc_id :: more) :: chunks). split.
    + cbn [concat]. by rewrite <- app_assoc.
    + constructor; [by eexists | done].
Qed.

Lemma batch_log doc_ids delay w :
  ∃ chunks,
    (lbatch doc_ids delay (w, [])).2.2 = concat chunks ∧
    Forall2 (λ doc_id chunk, ∃ more, chunk = edit_url doc_id :: more) doc_ids chunks.
Proof.
  unfold batch_test_documents. cbn [snd].
  edestruct batch_fold_log as (chunks & -> & Hall).
  rewrite enumerate_snd in Hall. by exists chunks.
Qed.
End prober_log.

(** ** C9 *)

(** C9: a batch returns one result per identifier, result k carrying
    identifier k, whatever the network answers; and the requests it sends
    fall into one non-empty group per identifier, in the order of the
    input, each group opening with the request for that identifier's edit
    view: no identifier is skipped, whatever fingerprints came before. *)
Theorem C9_batch_probes_every_id_in_order
  (parse : pystr → option SoupView) (W float : Type)
  (http_get : pystr → W → http_outcome * W) (sleep : float → W → W)
  (doc_ids : list pystr) (delay : float) (w : W) :
  let out := batch_test_documents parse W float http_get sleep doc_ids delay w in
  let logged := batch_test_documents parse (W * list pystr) float
                  (logged_get http_get) (logged_sleep sleep) doc_ids delay (w, []) in
  length out.1 = length doc_ids ∧
  DocumentInfo.id <$> out.1 = doc_ids ∧
  DocumentInfo.id <$> logged.1 = doc_ids ∧
  ∃ chunks, logged.2.2 = concat chunks ∧
    Forall2 (λ doc_id chunk, ∃ more, chunk = edit_url doc_id :: more) doc_ids chunks.
Proof.
  intros out logged. subst out logged.
  split; [|split; [|split]].
  - rewrite <- (batch_ids parse http_get sleep doc_ids delay w) at 2.
    by rewrite length_fmap.
  - apply batch_ids.
  - apply batch_ids.
  - apply batch_log.
Qed.

(** * Further properties *)

(** ** The fingerprints of the uniqueness report *)

Lemma dict_keys_set (k : pystr) (v : Z) (d : list (pystr * Z)) :
  dict_keys (dict_set k v d) =
  if decide (k ∈ dict_keys d) then dict_keys d else dict_keys d ++ [k].
Proof.
  unfold dict_keys. induction d as [|[k' v'] d IH]; [done|].
  cbn [dict_set fmap list_fmap fst]. destruct (decide (k = k')) as [->|Hne].
  - rewrite decide_True by left. done.
  - cbn [fmap list_fmap fst]. rewrite IH.
    destruct (decide (k ∈ d.*1)) as [Hin|Hnin].
    + rewrite decide_True by (by right). done.
    + rewrite decide_False; [done|]. intros [?|?]%elem_of_cons; done.
Qed.

Lemma first_seen_step_NoDup (acc : list pystr) (h : pystr) :
  NoDup acc → NoDup (if decide (h ∈ acc) then acc else acc ++ [h]).
Proof.
  intros Hnd. destruct (decide (h ∈ acc)); [done|].
  apply NoDup_app. split; [done|]. split; [|apply NoDup_singleton].
  intros x Hx ->%list_elem_of_singleton. done.
Qed.

Lemma first_seen_fold (l acc : list pystr) :
  NoDup acc →
  NoDup (foldl (λ acc h, if decide (h ∈ acc) then acc else acc ++ [h]) acc l) ∧
  ∀ h, h ∈ foldl (λ acc h, if decide (h ∈ acc) then acc else acc ++ [h]) acc l
       ↔ h ∈ acc ∨ h ∈ l.
Proof.
  revert acc; induction l as [|x l IH]; intros acc Hnd; cbn [foldl].
  - split; [done|]. intros h. rewrite elem_of_nil. tauto.
  - destruct (IH _ (first_seen_step_NoDup acc x Hnd)) as [Hnd' Hel].
    split; [done|]. intros h. rewrite Hel, elem_of_cons.
    destruct (decide (x ∈ acc)) as [Hx|Hx].
    + split; [tauto|]. intros [?|[->|?]]; tauto.
    + rewrite elem_of_app, list_elem_of_singleton. tauto.
Qed.

Lemma first_seen_NoDup (l : list pystr) : NoDup (first_seen l).
Proof. apply first_seen_fold, NoDup_nil_2. Qed.

Lemma elem_of_first_seen (l : list pystr) (h : pystr) : h ∈ first_seen l ↔ h ∈ l.
Proof.
  unfold first_seen. destruct (first_seen_fold l [] (NoDup_nil_2)) as [_ H].
  rewrite H, elem_of_nil. tauto.
Qed.

(** The keys of the dictionary after the counting loop. *)
Lemma count_loop_keys (docs : list DocumentInfo.t) (d : list (pystr * Z)) :
  ∃ d', for_ docs count_hash d = Ok d' ∧
    dict_keys d' =
    foldl (λ acc h, if decide (h ∈ acc) then acc else acc ++ [h]) (dict_keys d)
      (omap (λ r, if truthy (DocumentInfo.content_hash r)
                  then DocumentInfo.content_hash r else None) docs).
Proof.
  revert d; induction docs as [|doc docs IH]; intros d.
  - exists d. done.
  - cbn [for_ omap list_omap].
    destruct (truthy (DocumentInfo.content_hash doc)) eqn:Ht.
    + destruct (DocumentInfo.content_hash doc) as [h|] eqn:Hh; [|done].
      assert (count_hash doc d = Ok (dict_set h (dict_get h d 0 + 1) d)) as ->.
      { unfold count_hash. by rewrite Hh, Ht. }
      cbn [mbind result_bind].
      destruct (IH (dict_set h (dict_get h d 0 + 1) d)) as (d' & -> & Hk).
      exists d'. split; [done|]. cbn [foldl]. by rewrite Hk, dict_keys_set.
    + rewrite (count_hash_falsy doc d Ht). cbn [mbind result_bind]. apply IH.
Qed.

Lemma counted_hashes_filter (results : list DocumentInfo.t) :
  omap (λ r, if truthy (DocumentInfo.content_hash r)
             then DocumentInfo.content_hash r else None)
    (filter (λ r, DocumentInfo.accessible r = true) results) =
  counted_hashes results.
Proof.
  unfold counted_hashes. induction results as [|r results IH]; [done|].
  destruct (DocumentInfo.accessible r) eqn:Ha.
  - rewrite filter_cons_True by done. cbn [omap list_omap]. rewrite Ha, IH. done.
  - rewrite filter_cons_False by (rewrite Ha; done).
    cbn [omap list_omap]. rewrite Ha. done.
Qed.

(** The keys of the final dictionary, as [analyze_uniqueness] reports them. *)
Lemma analyze_uniqueness_keys (results : list DocumentInfo.t) :
  ∃ report, analyze_uniqueness results = Ok report ∧
    total_tested report = len results ∧
    unique_hashes report = first_seen (counted_hashes results) ∧
    unique_count report = len (unique_hashes report).
Proof.
  destruct (decide (filter (λ r, DocumentInfo.accessible r = true) results = []))
    as [Hnone|Hsome].
  - rewrite (analyze_uniqueness_none_accessible _ Hnone).
    eexists; split; [done|]. cbn.
    rewrite <- counted_hashes_filter, Hnone. done.
  - destruct (analyze_uniqueness_accessible _ Hsome) as (d & Hd & ->).
    destruct (count_loop_keys (filter (λ r, DocumentInfo.accessible r = true) results) [])
      as (d' & Hd' & Hk).
    rewrite Hd in Hd'. injection Hd' as <-.
    rewrite counted_hashes_filter in Hk.
    eexists; split; [done|]. cbn [unique_hashes unique_count total_tested].
    split; [done|]. split; [exact Hk|]. unfold dict_keys, len. by rewrite length_fmap.
Qed.

Lemma analyze_uniqueness_hashes (results : list DocumentInfo.t) :
  ∃ report, analyze_uniqueness results = Ok report ∧
    unique_hashes report = first_seen (counted_hashes results) ∧
    unique_count report = len (unique_hashes report) ∧
    NoDup (unique_hashes report) ∧
    ∀ h, h ∈ unique_hashes report ↔ h ∈ counted_hashes results.
Proof.
  destruct (analyze_uniqueness_keys results) as (report & Hrep & _ & Hu & Hc).
  exists report. split; [done|]. split; [done|]. split; [done|].
  rewrite Hu. split; [apply first_seen_NoDup | apply elem_of_first_seen].
Qed.

(** X1.  The report lists each fingerprint of an accessible result once, at the
    place where the batch first shows it, and [unique_count] is the length
    of that list. *)
Theorem unique_hashes_first_seen (results : list DocumentInfo.t) :
  ∃ report, analyze_uniqueness results = Ok report ∧
    unique_hashes report = first_seen (counted_hashes results) ∧
    unique_count report = len (unique_hashes report) ∧
    NoDup (unique_hashes report) ∧
    ∀ h, h ∈ unique_hashes report ↔ h ∈ counted_hashes results.
Proof. apply analyze_uniqueness_hashes. Qed.

(** X2.  The order of the batch does not matter to the counts: two batches with
    the same results in another order get the same totals, the same rate,
    and the same fingerprints up to their order. *)
Theorem analyze_uniqueness_order_irrelevant (results results' : list DocumentInfo.t) :
  results ≡ₚ results' →
  ∃ report report',
    analyze_uniqueness results = Ok report ∧
    analyze_uniqueness results' = Ok report' ∧
    total_tested report = total_tested report' ∧
    accessible_count report = accessible_count report' ∧
    unique_count report = unique_count report' ∧
    duplicate_count report = duplicate_count report' ∧
    uniqueness_rate report = uniqueness_rate report' ∧
    unique_hashes report ≡ₚ unique_hashes report'.
Proof.
  intros Hperm.
  destruct (analyze_uniqueness_hashes results) as (rep & Hrep & _ & Hu & Hnd & Hel).
  destruct (analyze_uniqueness_hashes results') as (rep' & Hrep' & _ & Hu' & Hnd' & Hel').
  assert (Hhashes : unique_hashes rep ≡ₚ unique_hashes rep').
  { apply NoDup_Permutation; [done | done |]. intros h. rewrite Hel, Hel'.
    unfold counted_hashes. by rewrite Hperm. }
  assert (Hacc : filter (λ r, DocumentInfo.accessible r = true) results ≡ₚ
                 filter (λ r, DocumentInfo.accessible r = true) results')
    by (by rewrite Hperm).
  assert (Hlen : len results = len results')
    by (unfold len; by rewrite Hperm).
  assert (Hlenacc : len (filter (λ r, DocumentInfo.accessible r = true) results) =
                    len (filter (λ r, DocumentInfo.accessible r = true) results'))
    by (unfold len; by rewrite Hacc).
  assert (Hlenu : len (unique_hashes rep) = len (unique_hashes rep'))
    by (unfold len; by rewrite Hhashes).
  exists rep, rep'. split; [done|]. split; [done|].
  destruct (decide (filter (λ r, DocumentInfo.accessible r = true) results = []))
    as [Hnone|Hsome].
  - assert (Hnone' : filter (λ r, DocumentInfo.accessible r = true) results' = []).
    { apply Permutation_nil_r. by rewrite <- Hacc, Hnone. }
    rewrite (analyze_uniqueness_none_accessible _ Hnone) in Hrep.
    rewrite (analyze_uniqueness_none_accessible _ Hnone') in Hrep'.
    injection Hrep as <-. injection Hrep' as <-. cbn. by rewrite Hlen.
  - assert (Hsome' : filter (λ r, DocumentInfo.accessible r = true) results' ≠ []).
    { intros H0. apply Hsome. apply Permutation_nil_r. by rewrite Hacc, H0. }
    destruct (analyze_uniqueness_accessible _ Hsome) as (d & _ & Hr).
    destruct (analyze_uniqueness_accessible _ Hsome') as (d' & _ & Hr').
    rewrite Hr in Hrep. rewrite Hr' in Hrep'.
    injection Hrep as <-. injection Hrep' as <-. cbn in *.
    rewrite Hu, Hu' in *. rewrite Hlen, Hlenacc, Hlenu. done.
Qed.

Lemma analyze_uniqueness_order_irrelevant_witness :
  ∃ report report',
    analyze_uniqueness [unhashed_doc; private_doc] = Ok report ∧
    analyze_uniqueness [private_doc; unhashed_doc] = Ok report' ∧
    duplicate_count report = duplicate_count report'.
Proof.
  destruct (analyze_uniqueness_order_irrelevant
              [unhashed_doc; private_doc] [private_doc; unhashed_doc])
    as (rep & rep' & H1 & H2 & _ & _ & _ & H3 & _).
  - apply Permutation_swap.
  - exists rep, rep'. split; [exact H1|]. split; [exact H2 | exact H3].
Defined.

(** ** The character classes as ranges of code points *)

Lemma in_range_ord (lo hi : Z) (c : ascii) :
  in_range lo hi c = true ↔ lo ≤ ord c ≤ hi.
Proof. unfold in_range. by rewrite bool_decide_eq_true. Qed.

Lemma in_range_ord_false (lo hi : Z) (c : ascii) :
  in_range lo hi c = false ↔ ¬ lo ≤ ord c ≤ hi.
Proof. unfold in_range. by rewrite bool_decide_eq_false. Qed.

Lemma isdigit_ord (c : ascii) :
  isdigit c = true ↔ 48 ≤ ord c ≤ 57 ∨ ord c = 178 ∨ ord c = 179 ∨ ord c = 185.
Proof.
  unfold isdigit, isdecimal, in_range.
  rewrite !orb_true_iff, !bool_decide_eq_true. tauto.
Qed.

Lemma islower_ord (c : ascii) :
  islower c = true ↔
  97 ≤ ord c ≤ 122 ∨ ord c = 170 ∨ ord c = 181 ∨ ord c = 186
  ∨ 223 ≤ ord c ≤ 246 ∨ 248 ≤ ord c ≤ 255.
Proof.
  unfold islower, in_range.
  rewrite !orb_true_iff, !bool_decide_eq_true. tauto.
Qed.

Lemma isupper_ord (c : ascii) :
  isupper c = true ↔ 65 ≤ ord c ≤ 90 ∨ 192 ≤ ord c ≤ 214 ∨ 216 ≤ ord c ≤ 222.
Proof.
  unfold isupper, in_range.
  rewrite !orb_true_iff, !bool_decide_eq_true. tauto.
Qed.

Lemma isdigit_ord_false (c : ascii) :
  isdigit c = false ↔
  ¬ (48 ≤ ord c ≤ 57 ∨ ord c = 178 ∨ ord c = 179 ∨ ord c = 185).
Proof. by rewrite <- isdigit_ord, not_true_iff_false. Qed.

Lemma islower_ord_false (c : ascii) :
  islower c = false ↔
  ¬ (97 ≤ ord c ≤ 122 ∨ ord c = 170 ∨ ord c = 181 ∨ ord c = 186
     ∨ 223 ≤ ord c ≤ 246 ∨ 248 ≤ ord c ≤ 255).
Proof. by rewrite <- islower_ord, not_true_iff_false. Qed.

Lemma isupper_ord_false (c : ascii) :
  isupper c = false ↔
  ¬ (65 ≤ ord c ≤ 90 ∨ 192 ≤ ord c ≤ 214 ∨ 216 ≤ ord c ≤ 222).
Proof. by rewrite <- isupper_ord, not_true_iff_false. Qed.

Lemma isdecimal_ord_false (c : ascii) : isdecimal c = false ↔ ¬ 48 ≤ ord c ≤ 57.
Proof. apply in_range_ord_false. Qed.

Lemma ord_ascii_of_N (n : Z) : 0 ≤ n < 256 → ord (ascii_of_N (Z.to_N n)) = n.
Proof.
  intros Hn. unfold ord. rewrite N_ascii_embedding by lia. lia.
Qed.

Lemma ord_inj (c d : ascii) : ord c = ord d → c = d.
Proof.
  unfold ord. intros H. apply N2Z.inj in H.
  rewrite <- (ascii_N_embedding c), <- (ascii_N_embedding d). by rewrite H.
Qed.

Lemma ord_digit_char (d : Z) : 0 ≤ d ≤ 9 → ord (digit_char d) = 48 + d.
Proof. intros Hd. unfold digit_char. apply ord_ascii_of_N. lia. Qed.

Lemma chr_Ok (n : Z) : 0 ≤ n < 256 → chr n = Ok (ascii_of_N (Z.to_N n)).
Proof. intros Hn. unfold chr. by rewrite decide_True. Qed.

(** ** The increment of one character *)

(** What [bump] returns: another character of the same class. *)
Lemma bump_spec (c c' : ascii) (i : Z) :
  1 ≤ i ≤ 9 → bump c i = Some c' →
  c' ≠ c ∧
  ((isdecimal c = true ∧ isdecimal c' = true)
   ∨ (ord c' = ord c + i ∧ 97 ≤ ord c ∧ ord c' ≤ 122)
   ∨ (ord c' = ord c + i ∧ 65 ≤ ord c ∧ ord c' ≤ 90)).
Proof.
  intros Hi. unfold bump. pose proof (ord_range c) as Hc.
  destruct (isdecimal c) eqn:Hd.
  - intros [= <-]. apply isdecimal_ord in Hd.
    assert (0 ≤ (ord c - 48 + i) `mod` 10 ≤ 9) as Hm
      by (pose proof (Z.mod_pos_bound (ord c - 48 + i) 10); lia).
    split.
    + intros Heq. apply (f_equal ord) in Heq.
      rewrite ord_digit_char in Heq by done.
      clear Hm. revert Heq. apply Z.eqb_neq.
      assert (∃ k, ord c = 48 + k ∧ 0 ≤ k ≤ 9) as (k & -> & Hk)
        by (exists (ord c - 48); lia).
      replace (48 + k - 48 + i) with (k + i) by lia.
      apply Z.eqb_neq. intros Heq.
      pose proof (Z.div_mod (k + i) 10 ltac:(lia)) as Hdm.
      assert (0 ≤ (k + i) `div` 10 ≤ 1) as Hq
        by (split; [apply Z.div_pos; lia|apply Z.div_le_upper_bound; lia]).
      lia.
    + left. split; [done|].
      apply isdecimal_ord. rewrite ord_digit_char by done. lia.
  - destruct (in_range 97 122 c) eqn:Hl.
    + apply in_range_ord in Hl. case_decide; [|done]. intros [= <-].
      rewrite ord_ascii_of_N by lia. split; [|right; left; lia].
      intros Heq. apply (f_equal ord) in Heq.
      rewrite ord_ascii_of_N in Heq by lia. lia.
    + destruct (in_range 65 90 c) eqn:Hu; [|done].
      apply in_range_ord in Hu. case_decide; [|done]. intros [= <-].
      rewrite ord_ascii_of_N by lia. split; [|right; right; lia].
      intros Heq. apply (f_equal ord) in Heq.
      rewrite ord_ascii_of_N in Heq by lia. lia.
Qed.

(** The loop body of [_increment_last_letter] appends the increment of the
    character, if it has one. *)
Lemma letter_body_spec (c : ascii) (mk : pystr → pystr) (i : Z)
    (results : list pystr) :
  isdecimal c = false → 1 ≤ i →
  letter_body c mk i results
  = Ok (results ++ option_list ((λ c', mk [c']) <$> bump c i)).
Proof.
  intros Hd Hi. unfold letter_body, bump. rewrite Hd.
  change (ord "z") with 122. change (ord "Z") with 90.
  pose proof (ord_range c) as Hc. cbv zeta.
  destruct (islower c) eqn:Hl.
  - apply islower_ord in Hl.
    destruct (decide (ord c + i ≤ 122)) as [Hle|Hgt].
    + rewrite chr_Ok by lia.
      assert (in_range 97 122 c = true) as -> by (apply in_range_ord; lia).
      done.
    + destruct (in_range 97 122 c) eqn:Hr.
      * simpl. by rewrite app_nil_r.
      * assert (in_range 65 90 c = false) as ->
          by (apply in_range_ord_false; apply in_range_ord_false in Hr; lia).
        simpl. by rewrite app_nil_r.
  - apply islower_ord_false in Hl.
    assert (in_range 97 122 c = false) as ->
      by (apply in_range_ord_false; lia).
    destruct (isupper c) eqn:Hu.
    + apply isupper_ord in Hu.
      destruct (decide (ord c + i ≤ 90)) as [Hle|Hgt].
      * rewrite chr_Ok by lia.
        assert (in_range 65 90 c = true) as -> by (apply in_range_ord; lia).
        done.
      * destruct (in_range 65 90 c) eqn:Hr.
        -- simpl. by rewrite app_nil_r.
        -- simpl. by rewrite app_nil_r.
    + apply isupper_ord_false in Hu.
      assert (in_range 65 90 c = false) as ->
        by (apply in_range_ord_false; lia).
      simpl. by rewrite app_nil_r.
Qed.

(** The loop body of [_increment_last_char] and [_increment_all_positions]
    does the same, as long as [int] accepts the digit. *)
Lemma bump_body_spec (c : ascii) (mk : pystr → pystr) (i : Z)
    (results : list pystr) :
  (isdigit c = true → isdecimal c = true) → 1 ≤ i →
  bump_body c mk i results
  = Ok (results ++ option_list ((λ c', mk [c']) <$> bump c i)).
Proof.
  intros Hdec Hi. unfold bump_body.
  destruct (isdigit c) eqn:Hd.
  - specialize (Hdec eq_refl). rewrite int_decimal_char by done.
    rewrite bind_Ok. cbv zeta. unfold bump. rewrite Hdec.
    rewrite str_of_int_digit; [done|].
    pose proof (Z.mod_pos_bound (ord c - 48 + i) 10). lia.
  - apply letter_body_spec; [|done].
    apply isdigit_ord_false in Hd. apply isdecimal_ord_false. lia.
Qed.

(** A body of [bump_body] raises [ValueError] on a superscript digit. *)
Lemma bump_body_superscript (c : ascii) (mk : pystr → pystr) (i : Z)
    (results : list pystr) :
  isdigit c = true → isdecimal c = false →
  bump_body c mk i results = Raise ValueError.
Proof.
  intros Hd Hdec. unfold bump_body, int_. rewrite Hd. cbn [forallb].
  rewrite Hdec. by rewrite andb_false_r.
Qed.

(** ** Loops that append *)

Lemma for_omap {X A} (f : X → option A) (xs : list X)
    (body : X → list A → result (list A)) (st : list A) :
  (∀ x st, x ∈ xs → body x st = Ok (st ++ option_list (f x))) →
  for_ xs body st = Ok (st ++ omap f xs).
Proof.
  revert st. induction xs as [|x xs IH]; intros st Hbody; simpl.
  - by rewrite app_nil_r.
  - rewrite Hbody by left. rewrite bind_Ok.
    rewrite IH by (intros; apply Hbody; by right).
    destruct (f x); simpl; [|by rewrite app_nil_r].
    by rewrite <- (assoc_L (++)).
Qed.

Lemma for_bind {X A} (f : X → list A) (xs : list X)
    (body : X → list A → result (list A)) (st : list A) :
  (∀ x st, x ∈ xs → body x st = Ok (st ++ f x)) →
  for_ xs body st = Ok (st ++ (xs ≫= f)).
Proof.
  revert st. induction xs as [|x xs IH]; intros st Hbody; simpl.
  - by rewrite app_nil_r.
  - rewrite Hbody by left. rewrite bind_Ok.
    rewrite IH by (intros; apply Hbody; by right).
    by rewrite <- (assoc_L (++)).
Qed.

Lemma length_omap_le {X A} (f : X → option A) (xs : list X) :
  (length (omap f xs) ≤ length xs)%nat.
Proof.
  induction xs as [|x xs IH]; csimpl; [done|]. destruct (f x); csimpl; lia.
Qed.

(** ** The increment of one position *)

Lemma bump_at_middle (pre post : pystr) (c : ascii) (i : Z) :
  bump_at (pre ++ c :: post) (length pre) i
  = (λ c', pre ++ c' :: post) <$> bump c i.
Proof.
  unfold bump_at. rewrite list_lookup_middle by done. simpl.
  destruct (bump c i) as [c'|]; simpl; [|done].
  rewrite insert_app_r_alt by lia. by rewrite Nat.sub_diag.
Qed.

Lemma filter_nil_Forall {A} (P : A → Prop) `{∀ x, Decision (P x)} (l : list A) :
  Forall (λ x, ¬ P x) l → filter P l = [].
Proof.
  induction 1 as [|x l Hx _ IH]; [done|]. by rewrite filter_cons_False.
Qed.

(** Two strings that agree except at one character differ at exactly that
    position. *)
Lemma diff_positions_single (pre post : pystr) (c d : ascii) :
  c ≠ d → diff_positions (pre ++ c :: post) (pre ++ d :: post) = [length pre].
Proof.
  intros Hcd. unfold diff_positions.
  rewrite !length_app. cbn [length]. rewrite Nat.max_id.
  replace (length pre + S (length post))%nat
    with (length pre + (1 + length post))%nat by lia.
  rewrite !seq_app. cbn [seq]. rewrite !filter_app.
  rewrite (filter_nil_Forall _ (seq 0 _)).
  2:{ apply Forall_forall. intros i Hi%elem_of_seq Hne. apply Hne.
      by rewrite !lookup_app_l by lia. }
  rewrite (filter_nil_Forall _ (seq _ (length post))).
  2:{ apply Forall_forall. intros i Hi%elem_of_seq Hne. apply Hne.
      rewrite !lookup_app_r by lia.
      destruct (i - length pre)%nat as [|k] eqn:Hk; [lia|]. done. }
  rewrite filter_cons_True.
  2:{ rewrite !list_lookup_middle by done. congruence. }
  done.
Qed.

(** A string with one position incremented has the length of the original
    and differs from it at that position and nowhere else; the new
    character is of the class of the old one. *)
Lemma bump_at_spec (s cand : pystr) (pos : nat) (i : Z) :
  1 ≤ i ≤ 9 → bump_at s pos i = Some cand →
  length cand = length s ∧ diff_positions s cand = [pos] ∧
  ∃ c c', s !! pos = Some c ∧ cand !! pos = Some c' ∧
    ((isdecimal c = true ∧ isdecimal c' = true)
     ∨ (ord c' = ord c + i ∧ 97 ≤ ord c ∧ ord c' ≤ 122)
     ∨ (ord c' = ord c + i ∧ 65 ≤ ord c ∧ ord c' ≤ 90)).
Proof.
  intros Hi. unfold bump_at.
  destruct (s !! pos) as [c|] eqn:Hc; simpl; [|done].
  destruct (bump c i) as [c'|] eqn:Hb; simpl; [|done].
  intros [= <-]. apply bump_spec in Hb as [Hne Hcl]; [|done].
  split; [by rewrite length_insert|].
  pose proof (lookup_lt_Some _ _ _ Hc) as Hlt.
  split.
  - rewrite <- (take_drop_middle s pos c Hc) at 1 2.
    assert (length (take pos s) = pos) as Hlen by (rewrite length_take; lia).
    rewrite <- Hlen at 2. rewrite insert_app_r_alt by lia.
    rewrite Hlen, Nat.sub_diag. cbn [insert list_insert].
    rewrite diff_positions_single by congruence. by rewrite Hlen.
  - exists c, c'. split; [done|]. split; [|done].
    by rewrite list_lookup_insert_eq.
Qed.

(** ** The strategies [last_char], [last_letter] and [all_positions] *)

Lemma getitem_split {A} (s : list A) (i : Z) :
  0 ≤ i < len s →
  ∃ pre c post, s = pre ++ c :: post ∧ i = len pre ∧ getitem s i = Ok c.
Proof.
  intros Hi. destruct (getitem_Ok s i Hi) as (c & Hget & Hlook).
  exists (take (Z.to_nat i) s), c, (drop (S (Z.to_nat i)) s).
  split; [by rewrite take_drop_middle|]. split; [|done].
  unfold len in *. rewrite length_take. lia.
Qed.

Lemma getitem_last {A} (pre : list A) (c : A) : getitem (pre ++ [c]) (-1) = Ok c.
Proof.
  unfold getitem. rewrite len_app. change (len [c]) with 1.
  pose proof (len_nonneg pre).
  destruct (decide (-1 < 0)); [|lia].
  replace (-1 + (len pre + 1)) with (len pre) by lia.
  rewrite decide_True by lia.
  unfold len. rewrite Nat2Z.id. by rewrite list_lookup_middle.
Qed.

Lemma slice_init {A} (pre : list A) (c : A) :
  slice (pre ++ [c]) None (Some (-1)) = pre.
Proof.
  unfold slice, clamp_index. cbn [from_option].
  rewrite len_app. change (len [c]) with 1. pose proof (len_nonneg pre).
  destruct (decide (-1 < 0)); [|lia].
  replace (Z.max 0 (-1 + (len pre + 1)) - 0) with (len pre) by lia.
  unfold len. rewrite Nat2Z.id. change (Z.to_nat 0) with 0%nat.
  rewrite drop_0. by rewrite take_app_length.
Qed.

Lemma digits_decimal_elem (s : pystr) (c : ascii) :
  digits_decimal s = true → c ∈ s → isdigit c = true → isdecimal c = true.
Proof.
  unfold digits_decimal. rewrite forallb_forall. intros Hs Hc Hd.
  apply list_elem_of_In in Hc. specialize (Hs c Hc). by rewrite Hd in Hs.
Qed.

(** [last_char] increments the last character. *)
Lemma increment_last_char_snoc (pre : pystr) (c : ascii) (count : Z) :
  (isdigit c = true → isdecimal c = true) →
  _increment_last_char (pre ++ [c]) count
  = Ok (omap (bump_at (pre ++ [c]) (length pre)) (range2 1 (count + 1))).
Proof.
  intros Hc. unfold _increment_last_char.
  rewrite decide_False by (by destruct pre).
  rewrite getitem_last, bind_Ok. cbv zeta. rewrite slice_init.
  match goal with |- for_ ?xs _ ?st = ?r =>
    change (for_ xs (bump_body c (λ x, pre ++ x)) st = r) end.
  rewrite (for_omap (bump_at (pre ++ [c]) (length pre))); [done|].
  intros i st Hi%elem_of_range2.
  rewrite bump_body_spec by (done || lia). by rewrite bump_at_middle.
Qed.

(** [last_letter] increments the rightmost letter. *)
Lemma increment_last_letter_found (pre post : pystr) (c : ascii) (count : Z) :
  isalpha c = true → Forall (λ x, isalpha x = false) post →
  _increment_last_letter (pre ++ c :: post) count
  = Ok (omap (bump_at (pre ++ c :: post) (length pre)) (range2 1 (count + 1))).
Proof.
  intros Hc Hpost. unfold _increment_last_letter.
  rewrite last_pos_of_found, bind_Ok by done.
  pose proof (len_nonneg pre). rewrite decide_False by lia.
  rewrite getitem_middle, bind_Ok. cbv zeta.
  rewrite slice_prefix, slice_after_middle.
  match goal with |- for_ ?xs _ ?st = ?r =>
    change (for_ xs (letter_body c (λ x, pre ++ x ++ post)) st = r) end.
  rewrite (for_omap (bump_at (pre ++ c :: post) (length pre))); [done|].
  intros i st Hi%elem_of_range2.
  rewrite letter_body_spec, bump_at_middle; [done| |lia].
  apply isdecimal_ord_false. unfold isalpha in Hc.
  apply orb_true_iff in Hc as [Hc%isupper_ord|Hc%islower_ord]; lia.
Qed.

Lemma increment_last_letter_none (s : pystr) (count : Z) :
  Forall (λ x, isalpha x = false) s → _increment_last_letter s count = Ok [].
Proof.
  intros Hs. unfold _increment_last_letter.
  by rewrite last_pos_of_none.
Qed.

(** [all_positions] increments every position in turn. *)
Lemma increment_all_positions_spec (s : pystr) (m : Z) :
  digits_decimal s = true →
  _increment_all_positions s m
  = Ok (range1 (len s) ≫= λ pos,
          omap (bump_at s (Z.to_nat pos)) (range2 1 (m + 1))).
Proof.
  intros Hs. unfold _increment_all_positions.
  rewrite (for_bind (λ pos, omap (bump_at s (Z.to_nat pos)) (range2 1 (m + 1))));
    [done|].
  intros pos st Hpos%elem_of_range1.
  destruct (getitem_split s pos Hpos) as (pre & c & post & -> & -> & Hget).
  rewrite Hget, bind_Ok. cbv zeta.
  rewrite slice_prefix, slice_after_middle.
  match goal with |- for_ ?xs _ ?st = ?r =>
    change (for_ xs (bump_body c (λ x, pre ++ x ++ post)) st = r) end.
  unfold len at 1. rewrite Nat2Z.id.
  apply for_omap. intros i st' Hi%elem_of_range2.
  rewrite bump_body_spec, bump_at_middle; [done| |lia].
  apply (digits_decimal_elem _ _ Hs). apply elem_of_app. right. left.
Qed.

Lemma bump_at_incremented (s cand : pystr) (pos : nat) (i : Z) :
  1 ≤ i ≤ 9 → bump_at s pos i = Some cand → incremented_at s pos cand.
Proof.
  intros Hi Hb. destruct (bump_at_spec s cand pos i Hi Hb)
    as (Hlen & Hdiff & c & c' & Hc & Hc' & Hcl).
  split; [done|]. split; [done|]. exists c, c'. split; [done|]. split; [done|].
  unfold incremented. destruct Hcl as [[? ?]|[?|?]].
  - left. split; [done|]. split; [done|]. intros ->.
    assert (pos ∈ diff_positions s cand) as Hin by (rewrite Hdiff; left).
    unfold diff_positions in Hin. apply list_elem_of_filter in Hin as [Hne _].
    congruence.
  - right; left; lia.
  - right; right; lia.
Qed.

Lemma omap_bump_at_Forall (s : pystr) (pos : nat) (n : Z) :
  n ≤ 9 → Forall (incremented_at s pos) (omap (bump_at s pos) (seqZ 1 n)).
Proof.
  intros Hn. apply Forall_forall. intros cand Hcand.
  apply list_elem_of_omap in Hcand as (i & Hi%elem_of_seqZ & Hb).
  apply (bump_at_incremented s cand pos i); [lia|done].
Qed.

Lemma length_bind_le {X A} (f : X → list A) (k : nat) (xs : list X) :
  (∀ x, x ∈ xs → (length (f x) ≤ k)%nat) →
  (length (xs ≫= f) ≤ k * length xs)%nat.
Proof.
  induction xs as [|x xs IH]; intros Hf; csimpl; [lia|].
  rewrite length_app. pose proof (Hf x ltac:(left)).
  pose proof (IH (λ y Hy, Hf y ltac:(by right))). lia.
Qed.

Lemma split_last_snoc_last (s : pystr) (c : ascii) :
  last s = Some c → ∃ pre, s = pre ++ [c] ∧ pred (length s) = length pre.
Proof.
  intros Hl. destruct s as [|x s] using rev_ind; [done|].
  rewrite last_snoc in Hl. injection Hl as ->. exists s. split; [done|].
  rewrite length_app. simpl. lia.
Qed.

(** X3.  [_increment_last_char] on the default count of 5: when the last
    character of the seed, if it is a digit, is one of 0..9, the call
    returns at most five candidates, none for the empty seed; each has the
    length of the seed and differs from it in the last position and nowhere
    else, where it carries another decimal digit or a later letter of the
    same ASCII case (so the seed itself is never returned and no letter
    wraps past z or Z); a decimal last digit gives exactly five. *)
Theorem last_char_candidates (doc_id : pystr) :
  (∀ c, last doc_id = Some c → isdigit c = true → isdecimal c = true) →
  ∃ out, _increment_last_char doc_id 5 = Ok out ∧
    (length out ≤ 5)%nat ∧
    (doc_id = [] → out = []) ∧
    Forall (incremented_at doc_id (pred (length doc_id))) out ∧
    (∀ c, last doc_id = Some c → isdecimal c = true → length out = 5%nat).
Proof.
  intros Hlast. destruct (last doc_id) as [c|] eqn:Hl.
  - destruct (split_last_snoc_last doc_id c Hl) as (pre & -> & Hpre).
    rewrite Hpre. rewrite increment_last_char_snoc by (by apply Hlast).
    change (range2 1 (5 + 1)) with (seqZ 1 5).
    eexists. split; [done|]. split; [apply (length_omap_le _ (seqZ 1 5))|].
    split; [by destruct pre|]. split; [by apply omap_bump_at_Forall|].
    intros c' [= <-] Hd. clear Hlast Hl Hpre.
    assert (∀ i, bump_at (pre ++ [c]) (length pre) i
                 = Some (pre ++ [digit_char ((ord c - 48 + i) `mod` 10)])) as Hb.
    { intros i. rewrite bump_at_middle. unfold bump. by rewrite Hd. }
    change (seqZ 1 5) with [1; 2; 3; 4; 5]. csimpl. by rewrite !Hb.
  - apply last_None in Hl as ->. exists [].
    split; [reflexivity|]. split; [simpl; lia|]. split; [done|].
    split; [constructor|]. intros c [=].
Qed.

Lemma last_char_candidates_witness :
  ∃ out, _increment_last_char (str "Ab7") 5 = Ok out ∧ (length out ≤ 5)%nat.
Proof.
  destruct (last_char_candidates (str "Ab7")) as (out & Hout & Hlen & _).
  - intros c Hc _. vm_compute in Hc. injection Hc as <-. reflexivity.
  - exists out. split; [exact Hout | exact Hlen].
Defined.

(** X4.  [_increment_last_letter] on the default count of 5 never raises,
    whatever the seed.  A seed without a letter gives no candidate; any
    other gives at most five, each of the length of the seed and differing
    from it exactly at the position of its rightmost letter, where it
    carries a later letter of the same ASCII case: nothing wraps past z or
    Z, and a letter outside ASCII is left alone. *)
Theorem last_letter_candidates (doc_id : pystr) :
  ∃ out, _increment_last_letter doc_id 5 = Ok out ∧
    (length out ≤ 5)%nat ∧
    match split_last isalpha doc_id with
    | None => out = []
    | Some (pre, c, post) =>
        Forall (λ cand, incremented_at doc_id (length pre) cand ∧
                  ∃ c', cand = pre ++ c' :: post ∧ ord c < ord c' ≤ ord c + 5 ∧
                        (ord c' ≤ 90 ∨ (97 ≤ ord c ∧ ord c' ≤ 122))) out
    end.
Proof.
  destruct (split_last isalpha doc_id) as [[[pre c] post]|] eqn:Hs.
  - apply split_last_Some in Hs as (-> & Hc & Hpost).
    rewrite increment_last_letter_found by done.
    change (range2 1 (5 + 1)) with (seqZ 1 5).
    eexists. split; [done|]. split; [apply (length_omap_le _ (seqZ 1 5))|].
    apply Forall_forall. intros cand Hcand.
    split. { revert cand Hcand. apply Forall_forall.
             by apply omap_bump_at_Forall. }
    apply list_elem_of_omap in Hcand as (i & Hi%elem_of_seqZ & Hb).
    rewrite bump_at_middle in Hb.
    destruct (bump c i) as [c'|] eqn:Hbc; [|done]. injection Hb as <-.
    exists c'. split; [done|].
    apply bump_spec in Hbc as [_ Hcl]; [|lia].
    destruct Hcl as [[Hd _]|[?|?]]; [|lia..].
    apply isdecimal_ord in Hd. unfold isalpha in Hc.
    apply orb_true_iff in Hc as [Hc%isupper_ord|Hc%islower_ord]; lia.
  - apply split_last_None in Hs.
    rewrite increment_last_letter_none by done. exists [].
    split; [reflexivity|]. split; [simpl; lia|reflexivity].
Qed.

(** X5.  [_increment_all_positions] on the default of two increments per
    position: when every digit of the seed is one of 0..9, the call
    returns at most two candidates per character of the seed, and every
    candidate has the length of the seed and differs from it in exactly
    one position, where it carries another decimal digit or a later letter
    of the same ASCII case. *)
Theorem all_positions_candidates (doc_id : pystr) :
  digits_decimal doc_id = true →
  ∃ out, _increment_all_positions doc_id 2 = Ok out ∧
    (length out ≤ 2 * length doc_id)%nat ∧
    Forall (λ cand, ∃ pos, incremented_at doc_id pos cand) out.
Proof.
  intros Hs. rewrite increment_all_positions_spec by done.
  change (range2 1 (2 + 1)) with (seqZ 1 2).
  eexists. split; [done|]. split.
  - etrans; [apply (length_bind_le _ 2)|].
    + intros pos _. apply (length_omap_le _ (seqZ 1 2)).
    + unfold range1, range2. rewrite length_seqZ. unfold len. lia.
  - apply Forall_forall. intros cand Hcand.
    apply list_elem_of_bind in Hcand as (pos & Hcand & _).
    exists (Z.to_nat pos). revert cand Hcand. apply Forall_forall.
    by apply omap_bump_at_Forall.
Qed.

Lemma all_positions_candidates_witness :
  ∃ out, _increment_all_positions (str "a9-Z") 2 = Ok out ∧
    (length out ≤ 2 * 4)%nat.
Proof.
  destruct (all_positions_candidates (str "a9-Z")) as (out & Hout & Hlen & _).
  - reflexivity.
  - exists out. split; [exact Hout | exact Hlen].
Defined.

(** ** The pattern-based heuristics *)

(** [s[:count]] is a prefix of [s], of at most [count] elements. *)
Lemma slice_head {A} (s : list A) (count : Z) :
  ∃ n, slice s None (Some count) = take n s ∧ (0 ≤ count → Z.of_nat n ≤ count)
       ∧ (len s ≤ count → slice s None (Some count) = s).
Proof.
  unfold slice, clamp_index. cbn [from_option].
  change (Z.to_nat 0) with 0%nat. rewrite drop_0.
  eexists. split; [done|]. pose proof (len_nonneg s).
  split.
  - intros Hc. destruct (decide (count < 0)); lia.
  - intros Hc. destruct (decide (count < 0)); [lia|].
    apply take_ge. unfold len in *. lia.
Qed.

(** Removing the hyphens with [str.replace] keeps the other characters. *)
Lemma replace_dash (s : pystr) :
  replace [dash] [] s = filter (λ c, c ≠ dash) s.
Proof.
  unfold replace. induction s as [|c s IH]; [done|].
  cbn [replace_from]. unfold startswith. cbn [length take].
  change (bool_decide (None ≠ Some 0%nat)) with true. rewrite andb_true_r.
  cbn [fmap option_fmap option_map Nat.sub app]. rewrite IH.
  destruct (decide (c = dash)) as [->|Hc].
  - rewrite bool_decide_eq_true_2 by done. by rewrite filter_cons_False by naive_solver.
  - rewrite bool_decide_eq_false_2 by congruence. by rewrite filter_cons_True.
Qed.

Lemma len_list_insert_at {A} (pos : Z) (x : A) (l : list A) :
  len (list_insert_at pos x l) = len l + 1.
Proof.
  unfold list_insert_at. rewrite len_app, len_cons.
  rewrite <- (take_drop (Z.to_nat pos) l) at 3. rewrite len_app. lia.
Qed.

(** Hyphens put back at 13, 23 and 41 never give 44 characters. *)
Lemma hyphen_reinsert_length (chars : pystr) :
  41 ≤ len chars →
  ∃ cs, for_ (sorted_reverse [13; 23; 41])
          (λ pos chars0, if decide (pos < len chars0)
                         then Ok (list_insert_at pos dash chars0) else Ok chars0)
          chars = Ok cs ∧ len cs ≠ 44.
Proof.
  intros Hlen.
  assert (sorted_reverse [13; 23; 41] = [41; 23; 13]) as -> by reflexivity.
  cbn [for_]. destruct (decide (41 < len chars)).
  - rewrite bind_Ok. rewrite decide_True by (rewrite len_list_insert_at; lia).
    rewrite bind_Ok.
    rewrite decide_True by (rewrite !len_list_insert_at; lia).
    rewrite bind_Ok. eexists. split; [done|]. rewrite !len_list_insert_at. lia.
  - rewrite bind_Ok. rewrite decide_True by lia. rewrite bind_Ok.
    rewrite decide_True by (rewrite !len_list_insert_at; lia).
    rewrite bind_Ok. eexists. split; [done|]. rewrite !len_list_insert_at. lia.
Qed.

Lemma hyphen_variations_exact (base_id : pystr) (count : Z) :
  1 ≤ count →
  let stripped := filter (λ c, c ≠ dash) base_id in
  _test_hyphen_variations base_id count
  = Ok (if decide (len stripped = 44) then [stripped] else []) ∧
  (len base_id = 44 → dash ∉ base_id →
   _test_hyphen_variations base_id count = Ok [base_id]).
Proof.
  intros Hcount stripped.
  assert (_test_hyphen_variations base_id count
          = Ok (if decide (len stripped = 44) then [stripped] else [])) as Hres.
  { unfold _test_hyphen_variations, known_hyphen_positions.
    rewrite !replace_dash. fold stripped.
    cbn [for_]. rewrite decide_False by done.
    cbn [max_list_Z foldl]. rewrite bind_Ok.
    change (Z.max (Z.max 13 23) 41) with 41.
    assert (∃ r, (if decide (len stripped >= 41)
                  then chars ← for_ (sorted_reverse [13; 23; 41])
                         (λ pos chars0, if decide (pos < len chars0)
                            then Ok (list_insert_at pos dash chars0)
                            else Ok chars0) stripped;
                       (if decide (len chars = 44)
                        then Ok ([] ++ [chars]) else Ok [])
                  else Ok []) = r ∧ r = Ok ([] : list pystr)) as (r & Hr & ->).
    { eexists. split; [done|].
      destruct (decide (len stripped >= 41)); [|done].
      destruct (hyphen_reinsert_length stripped) as (cs & -> & Hcs); [lia|].
      rewrite bind_Ok. by rewrite decide_False. }
    rewrite Hr. rewrite bind_Ok. rewrite decide_True by done.
    destruct (decide (len stripped = 44)).
    - rewrite !bind_Ok. f_equal.
      destruct (slice_head ([] ++ [stripped]) count) as (k & _ & _ & Hs).
      rewrite Hs; [done|]. change (len ([] ++ [stripped])) with 1. lia.
    - rewrite !bind_Ok. f_equal.
      destruct (slice_head ([] : list pystr) count) as (k & _ & _ & Hs).
      rewrite Hs; [done|]. change (len (@nil pystr)) with 0. lia. }
  split; [done|]. intros Hlen Hdash. rewrite Hres.
  assert (stripped = base_id) as ->.
  { unfold stripped. clear -Hdash. induction base_id as [|c s IH]; [done|].
    rewrite filter_cons_True by (intros ->; apply Hdash; left).
    f_equal. apply IH. intros Hin. apply Hdash. by right. }
  by rewrite decide_True.
Qed.

(** X6.  [_test_hyphen_variations] returns at most one candidate, the seed
    with its hyphens removed, and only when that is 44 characters long.
    The variant with hyphens put back at the positions 13, 23 and 41 is
    never returned: it is 43 characters long, or 45 and more.  A seed of 44
    characters without a hyphen is therefore its own candidate. *)
Theorem hyphen_variations_result (base_id : pystr) (count : Z) :
  1 ≤ count →
  let stripped := filter (λ c, c ≠ dash) base_id in
  _test_hyphen_variations base_id count
  = Ok (if decide (len stripped = 44) then [stripped] else []) ∧
  (len base_id = 44 → dash ∉ base_id →
   _test_hyphen_variations base_id count = Ok [base_id]).
Proof. exact (hyphen_variations_exact base_id count). Qed.

Lemma hyphen_variations_result_witness :
  _test_hyphen_variations (str "1a-2b-3c") 5 = Ok [].
Proof.
  destruct (hyphen_variations_result (str "1a-2b-3c") 5) as [H _]; [lia|].
  exact H.
Defined.

(** Two neighbours of a string, by the index of the first. *)
Lemma getitem_split2 {A} (s : list A) (i : Z) :
  0 ≤ i < len s - 1 →
  ∃ pre a b post, s = pre ++ a :: b :: post ∧ i = len pre ∧
    getitem s i = Ok a ∧ getitem s (i + 1) = Ok b.
Proof.
  intros Hi. destruct (getitem_split s i) as (pre & a & rest & -> & -> & Ha);
    [lia|].
  destruct rest as [|b post].
  { rewrite len_app in Hi. change (len [a]) with 1 in Hi. lia. }
  exists pre, a, b, post. split; [done|]. split; [done|]. split; [done|].
  replace (pre ++ a :: b :: post) with ((pre ++ [a]) ++ b :: post)
    by (by rewrite <- (assoc_L (++))).
  replace (len pre + 1) with (len (pre ++ [a])) by (by rewrite len_app).
  apply getitem_middle.
Qed.

Lemma swap_adjacent_middle (pre post : pystr) (a b : ascii) :
  swap_adjacent (pre ++ a :: b :: post) (len pre) = Ok (pre ++ b :: a :: post).
Proof.
  unfold swap_adjacent. rewrite getitem_middle, bind_Ok.
  assert (getitem (pre ++ a :: b :: post) (len pre + 1) = Ok b) as ->.
  { replace (pre ++ a :: b :: post) with ((pre ++ [a]) ++ b :: post)
      by (by rewrite <- (assoc_L (++))).
    replace (len pre + 1) with (len (pre ++ [a])) by (by rewrite len_app).
    apply getitem_middle. }
  rewrite bind_Ok. f_equal. unfold len.
  replace (Z.to_nat (Z.of_nat (length pre) + 1)) with (S (length pre)) by lia.
  rewrite Nat2Z.id.
  rewrite (insert_app_r_alt pre), Nat.sub_diag by lia. cbn [insert list_insert].
  rewrite insert_app_r_alt by lia.
  replace (S (length pre) - length pre)%nat with 1%nat by lia. done.
Qed.

(** A letter is not a digit. *)
Lemma isalpha_isdigit_neq (a b : ascii) :
  isalpha a = true → isdigit b = true → a ≠ b.
Proof.
  intros Ha Hb ->. unfold isalpha in Ha. apply isdigit_ord in Hb.
  apply orb_true_iff in Ha as [Ha%isupper_ord|Ha%islower_ord]; lia.
Qed.

Lemma segment_swaps (base_id : pystr) (count : Z) :
  ∃ out, _test_segment_boundaries base_id count = Ok out ∧
    (0 ≤ count → len out ≤ count) ∧
    Forall (λ cand,
      (∃ pre a b post, base_id = pre ++ a :: b :: post ∧
         cand = pre ++ b :: a :: post ∧
         (isalpha a = true ∧ isdigit b = true
          ∨ isdigit a = true ∧ isalpha b = true)) ∧
      cand ≡ₚ base_id ∧ cand ≠ base_id) out.
Proof.
  unfold _test_segment_boundaries.
  set (Q := λ cand : pystr,
      (∃ pre a b post, base_id = pre ++ a :: b :: post ∧
         cand = pre ++ b :: a :: post ∧
         (isalpha a = true ∧ isdigit b = true
          ∨ isdigit a = true ∧ isalpha b = true)) ∧
      cand ≡ₚ base_id ∧ cand ≠ base_id).
  assert (HQ : ∀ pre a b post, base_id = pre ++ a :: b :: post →
            (isalpha a = true ∧ isdigit b = true
             ∨ isdigit a = true ∧ isalpha b = true) →
            Q (pre ++ b :: a :: post)).
  { intros pre a b post Hs Hab. split; [by exists pre, a, b, post|].
    rewrite Hs. split.
    - apply Permutation_app_head, Permutation_swap.
    - intros Heq. apply app_inv_head in Heq. injection Heq as Heq _.
      destruct Hab as [[Ha Hb]|[Ha Hb]].
      + by apply (isalpha_isdigit_neq a b).
      + by apply (isalpha_isdigit_neq b a). }
  edestruct (for_invariant (Forall Q) (range1 (len base_id - 1)))
    as (results & -> & Hres); [|by apply Forall_nil|].
  - intros i st Hi%elem_of_range1 Hst.
    destruct (getitem_split2 base_id i Hi)
      as (pre & a & b & post & Hs & -> & Ha & Hb).
    rewrite Ha, bind_Ok, Hb, bind_Ok.
    assert (swap_adjacent base_id (len pre) = Ok (pre ++ b :: a :: post)) as ->
      by (rewrite Hs at 1; apply swap_adjacent_middle).
    rewrite !bind_Ok.
    destruct (isalpha a && isdigit b) eqn:H1.
    + apply andb_true_iff in H1. eexists. split; [done|].
      apply Forall_app. split; [done|]. apply Forall_singleton.
      apply HQ; [done|by left].
    + destruct (isdigit a && isalpha b) eqn:H2; [|by eexists].
      apply andb_true_iff in H2. eexists. split; [done|].
      apply Forall_app. split; [done|]. apply Forall_singleton.
      apply HQ; [done|by right].
  - rewrite bind_Ok. destruct (slice_head results count) as (n & -> & Hn & _).
    eexists. split; [done|]. split.
    + intros Hc. specialize (Hn Hc). unfold len. rewrite length_take. lia.
    + by apply Forall_take.
Qed.

(** X7.  [_test_segment_boundaries] never raises.  For a count that is not
    negative it returns at most [count] candidates, and each is the seed
    with two neighbouring characters exchanged, one of them a letter and
    the other a digit: a rearrangement of the seed's characters, of the
    same length, and never the seed itself. *)
Theorem segment_boundaries_candidates (base_id : pystr) (count : Z) :
  ∃ out, _test_segment_boundaries base_id count = Ok out ∧
    (0 ≤ count → len out ≤ count) ∧
    Forall (λ cand,
      (∃ pre a b post, base_id = pre ++ a :: b :: post ∧
         cand = pre ++ b :: a :: post ∧
         (isalpha a = true ∧ isdigit b = true
          ∨ isdigit a = true ∧ isalpha b = true)) ∧
      cand ≡ₚ base_id ∧ cand ≠ base_id) out.
Proof. exact (segment_swaps base_id count). Qed.

(** The indices [range(0, n, step)] for a positive stride lie in [0, n). *)
Lemma range3_up (n step : Z) :
  0 < step →
  ∃ idx, range3 0 n step = Ok idx ∧ Forall (λ i, 0 ≤ i < n) idx
         ∧ len idx = Z.max 0 ((n + step - 1) / step).
Proof.
  intros Hstep. unfold range3.
  rewrite decide_False by lia. rewrite decide_True by lia.
  eexists. split; [done|]. split.
  - apply Forall_forall. intros i Hi.
    apply list_elem_of_fmap in Hi as (k & -> & Hk%elem_of_seqZ).
    replace (n - 0 + step - 1) with (n + step - 1) in Hk by lia.
    pose proof (Z.mul_div_le (n + step - 1) step Hstep). nia.
  - unfold len. rewrite length_fmap, length_seqZ.
    replace (n - 0 + step - 1) with (n + step - 1) by lia. lia.
Qed.

Lemma length_variations_shape (base_id : pystr) (count : Z) :
  1 ≤ count ≤ len base_id →
  ∃ out, _test_length_variations base_id count = Ok out ∧
    len out ≤ count ∧
    (len base_id ≠ 44 → out = []) ∧
    Forall (λ cand, ∃ pre c post, base_id = pre ++ c :: post ∧
      ((cand = pre ++ post ∧ c ≠ dash ∧ c ≠ underscore)
       ∨ (cand = pre ++ c :: c :: post ∧ isalnum c = true))) out.
Proof.
  intros Hcount. unfold _test_length_variations, floordiv.
  rewrite decide_False by lia. rewrite !bind_Ok.
  assert (0 < len base_id `div` count) as Hstep
    by (apply Z.div_str_pos; lia).
  destruct (range3_up (len base_id) _ Hstep) as (idx & Hr3 & Hidx & _).
  rewrite Hr3, bind_Ok.
  pose (Q := λ cand : pystr, len base_id = 44 ∧
      ∃ pre c post, base_id = pre ++ c :: post ∧
      ((cand = pre ++ post ∧ c ≠ dash ∧ c ≠ underscore)
       ∨ (cand = pre ++ c :: c :: post ∧ isalnum c = true))).
  edestruct (for_invariant (Forall Q) idx) as (r1 & -> & Hr1);
    [|by apply Forall_nil|].
  { intros i st Hi Hst. eapply Forall_forall in Hidx; [|done].
    destruct (getitem_split base_id i Hidx) as (pre & c & post & Hs & -> & ->).
    rewrite bind_Ok.
    assert (slice base_id None (Some (len pre)) = pre) as ->
      by (rewrite Hs; apply slice_prefix).
    assert (slice base_id (Some (len pre + 1)) None = post) as ->
      by (rewrite Hs; apply slice_after_middle).
    destruct (negb (is_char dash c || is_char underscore c)) eqn:Hc;
      [|by eexists].
    destruct (decide (len (pre ++ post) = 43)) as [Hlen|]; [|by eexists].
    eexists. split; [done|]. apply Forall_app. split; [done|].
    apply Forall_singleton. split.
    - rewrite Hs, len_app, len_cons. rewrite len_app in Hlen. lia.
    - exists pre, c, post. split; [done|]. left. split; [done|].
      apply negb_true_iff, orb_false_iff in Hc as [H1 H2].
      unfold is_char in H1, H2.
      apply bool_decide_eq_false in H1, H2. done. }
  rewrite !bind_Ok, Hr3, bind_Ok.
  edestruct (for_invariant (Forall Q) idx) as (r2 & -> & Hr2); [|exact Hr1|].
  { intros i st Hi Hst. eapply Forall_forall in Hidx; [|done].
    destruct (getitem_split base_id i Hidx) as (pre & c & post & Hs & -> & ->).
    rewrite bind_Ok.
    assert (slice base_id None (Some (len pre)) = pre) as ->
      by (rewrite Hs; apply slice_prefix).
    assert (slice base_id (Some (len pre)) None = c :: post) as ->
      by (rewrite Hs; apply slice_suffix).
    destruct (isalnum c) eqn:Hc; [|by eexists].
    destruct (decide (len (pre ++ [c] ++ c :: post) = 45)) as [Hlen|];
      [|by eexists].
    eexists. split; [done|]. apply Forall_app. split; [done|].
    apply Forall_singleton. split.
    - rewrite Hs, len_app, len_cons.
      rewrite !len_app, !len_cons in Hlen. change (len []) with 0 in Hlen. lia.
    - exists pre, c, post. split; [done|]. by right. }
  rewrite bind_Ok. destruct (slice_head r2 count) as (n & -> & Hn & _).
  eexists. split; [done|]. split.
  { unfold len. rewrite length_take. lia. }
  assert (Forall Q (take n r2)) as Hout by (by apply Forall_take).
  split.
  - intros Hne. destruct (take n r2) as [|x l]; [done|].
    apply Forall_cons in Hout as [[Hx _] _]. done.
  - eapply Forall_impl; [exact Hout|]. by intros cand [_ H].
Qed.

(** X8.  [_test_length_variations] on a seed of at least [count]
    characters, [count] positive: the call returns at most [count]
    candidates, each the seed with one character other than a hyphen or
    underscore deleted, or with one alphanumeric character doubled; and it
    returns none at all unless the seed is exactly 44 characters long. *)
Theorem length_variations_candidates (base_id : pystr) (count : Z) :
  1 ≤ count ≤ len base_id →
  ∃ out, _test_length_variations base_id count = Ok out ∧
    len out ≤ count ∧
    (len base_id ≠ 44 → out = []) ∧
    Forall (λ cand, ∃ pre c post, base_id = pre ++ c :: post ∧
      ((cand = pre ++ post ∧ c ≠ dash ∧ c ≠ underscore)
       ∨ (cand = pre ++ c :: c :: post ∧ isalnum c = true))) out.
Proof. exact (length_variations_shape base_id count). Qed.

Lemma length_variations_candidates_witness :
  ∃ out, _test_length_variations (str "abcde") 5 = Ok out ∧ out = [].
Proof.
  destruct (length_variations_candidates (str "abcde") 5)
    as (out & Hout & _ & Hnil & _).
  - vm_compute. split; discriminate.
  - exists out. split; [exact Hout|]. apply Hnil. discriminate.
Defined.

(** ** The strategies together *)

(** A loop whose body appends what it computes from the element alone
    returns the union of the contributions, or raises with the first
    element that does. *)
Lemma for_union {X A} (f : X → list A → result (list A)) :
  (∀ x acc, f x acc = (r ← f x []; Ok (acc ++ r))) →
  ∀ l acc,
    match for_ l f acc with
    | Ok ids =>
        (∀ x, x ∈ l → is_ok (f x [])) ∧
        ∀ a, a ∈ ids ↔ a ∈ acc ∨ ∃ x r, x ∈ l ∧ f x [] = Ok r ∧ a ∈ r
    | Raise e => ∃ x, x ∈ l ∧ f x [] = Raise e
    end.
Proof.
  intros Hf l. induction l as [|x l IH]; intros acc; cbn [for_].
  - split; [by intros x Hx%elem_of_nil|]. intros a. split; [by left|].
    intros [?|(x & r & Hx%elem_of_nil & _)]; done.
  - rewrite Hf. destruct (f x []) as [r|e] eqn:Hx.
    + rewrite !bind_Ok. specialize (IH (acc ++ r)).
      destruct (for_ l f (acc ++ r)) as [ids|e].
      * destruct IH as [Hall Hids]. split.
        -- intros y [->|Hy]%elem_of_cons; [by exists r|by apply Hall].
        -- intros a. rewrite Hids, elem_of_app. split.
           ++ intros [[?|?]|(y & r' & Hy & Hr' & Ha)]; [by left|..].
              ** right. exists x, r. split; [left|done].
              ** right. exists y, r'. split; [by right|done].
           ++ intros [?|(y & r' & [->|Hy]%elem_of_cons & Hr' & Ha)].
              ** by left; left.
              ** left; right. congruence.
              ** right. by exists y, r'.
      * destruct IH as (y & Hy & He). exists y. split; [by right|done].
    + rewrite bind_Raise. cbn. exists x. split; [left|done].
Qed.

Lemma apply_strategy_acc (base_id s : pystr) (acc : list pystr) :
  apply_strategy base_id s acc
  = (r ← apply_strategy base_id s []; Ok (acc ++ r)).
Proof.
  unfold apply_strategy.
  destruct (decide (s = str "last_char"));
    [by destruct (_increment_last_char base_id 5)|].
  destruct (decide (s = str "last_digit"));
    [by destruct (_increment_last_digit base_id 10)|].
  destruct (decide (s = str "last_letter"));
    [by destruct (_increment_last_letter base_id 5)|].
  destruct (decide (s = str "all_positions"));
    [by destruct (_increment_all_positions base_id 2)|].
  destruct (decide (s = str "pattern_based"));
    [by destruct (_generate_pattern_based_ids base_id 20)|].
  rewrite bind_Ok. by rewrite app_nil_r.
Qed.

Lemma apply_strategy_unknown (base_id s : pystr) :
  s ∉ default_strategies → apply_strategy base_id s [] = Ok [].
Proof.
  intros Hs. unfold apply_strategy, default_strategies in *.
  rewrite !not_elem_of_cons in Hs. destruct Hs as (? & ? & ? & ? & ? & _).
  by rewrite !decide_False by done.
Qed.

(** X9.  [generate_incremented_ids] on a list of strategy names.  The call
    raises exactly when one of the named strategies raises on the seed.
    When it returns, the list has no duplicates and its members are
    exactly the candidates of the named strategies, whatever the order of
    the names and however often a name is repeated.  A name that is none
    of the five known ones contributes nothing and raises nothing. *)
Theorem generate_incremented_ids_union (base_id : pystr) (strategies : list pystr) :
  match generate_incremented_ids base_id (Some strategies) with
  | Ok out =>
      NoDup out ∧
      (∀ s, s ∈ strategies → is_ok (apply_strategy base_id s [])) ∧
      ∀ cand, cand ∈ out ↔
        ∃ s r, s ∈ strategies ∧ apply_strategy base_id s [] = Ok r ∧ cand ∈ r
  | Raise e =>
      ∃ s, s ∈ strategies ∧ apply_strategy base_id s [] = Raise e
  end ∧
  ∀ s, s ∉ default_strategies → apply_strategy base_id s [] = Ok [].
Proof.
  split; [|apply apply_strategy_unknown].
  unfold generate_incremented_ids.
  pose proof (for_union (apply_strategy base_id) (apply_strategy_acc base_id)
                strategies []) as H.
  destruct (for_ strategies (apply_strategy base_id) []) as [ids|e].
  - rewrite bind_Ok. destruct H as [Hall Hids]. split; [apply NoDup_elements|].
    split; [done|]. intros cand.
    rewrite elem_of_elements, elem_of_list_to_set, Hids.
    split; [|by right]. intros [Hnil%elem_of_nil|?]; done.
  - by rewrite bind_Raise.
Qed.

(** ** When the mutation engine returns *)

Lemma last_char_total (base_id : pystr) (count : Z) :
  digits_decimal base_id = true → is_ok (_increment_last_char base_id count).
Proof.
  intros Hd. destruct base_id as [|c pre _] using rev_ind; [by exists []|].
  rewrite increment_last_char_snoc; [by eexists|].
  apply (digits_decimal_elem _ _ Hd). apply elem_of_app. right. left.
Qed.

Lemma last_digit_total (base_id : pystr) :
  digits_decimal base_id = true → is_ok (_increment_last_digit base_id 10).
Proof.
  intros Hd.
  destruct (split_last isdigit base_id) as [[[pre c] post]|] eqn:Hs.
  - apply split_last_Some in Hs as (-> & Hc & Hpost).
    rewrite increment_last_digit_found; [by eexists| |done].
    apply (digits_decimal_elem _ _ Hd); [|done].
    apply elem_of_app. right. left.
  - apply split_last_None in Hs.
    rewrite increment_last_digit_none by done. by eexists.
Qed.

Lemma last_letter_total (base_id : pystr) (count : Z) :
  is_ok (_increment_last_letter base_id count).
Proof.
  destruct (split_last isalpha base_id) as [[[pre c] post]|] eqn:Hs.
  - apply split_last_Some in Hs as (-> & Hc & Hpost).
    rewrite increment_last_letter_found by done. by eexists.
  - apply split_last_None in Hs.
    rewrite increment_last_letter_none by done. by eexists.
Qed.

Lemma length_variations_total (base_id : pystr) (count : Z) :
  1 ≤ count ≤ len base_id → is_ok (_test_length_variations base_id count).
Proof.
  intros Hcount. unfold _test_length_variations, floordiv.
  rewrite decide_False by lia. rewrite !bind_Ok.
  assert (0 < len base_id `div` count) as Hstep
    by (apply Z.div_str_pos; lia).
  destruct (range3_up (len base_id) _ Hstep) as (idx & Hr3 & Hidx & _).
  rewrite Hr3, bind_Ok.
  match goal with |- is_ok (for_ idx ?b ?st ≫= _) =>
    destruct (for_total idx b st) as [r1 ->] end.
  { intros i st Hi. eapply Forall_forall in Hidx; [|done].
    destruct (getitem_Ok base_id i Hidx) as (c & -> & _). rewrite bind_Ok.
    destruct (negb _); [|by eexists]. destruct (decide _); by eexists. }
  rewrite !bind_Ok, Hr3, bind_Ok.
  match goal with |- is_ok (for_ idx ?b ?st ≫= _) =>
    destruct (for_total idx b st) as [r2 ->] end.
  { intros i st Hi. eapply Forall_forall in Hidx; [|done].
    destruct (getitem_Ok base_id i Hidx) as (c & -> & _). rewrite bind_Ok.
    destruct (isalnum c); [|by eexists]. destruct (decide _); by eexists. }
  rewrite bind_Ok. by eexists.
Qed.

Lemma pattern_based_total (base_id : pystr) :
  5 ≤ len base_id → is_ok (_generate_pattern_based_ids base_id 20).
Proof.
  intros Hlen. unfold _generate_pattern_based_ids.
  change (floordiv 20 4) with (Ok 5 : result Z). cbn [mbind result_bind].
  destruct (hyphen_variations_total base_id 5) as [r1 ->].
  destruct (digit_sequence_patterns_total base_id 5) as [r2 ->].
  destruct (segment_boundaries_total base_id 5) as [r3 ->].
  cbn [mbind result_bind].
  destruct (length_variations_total base_id 5) as [r4 ->]; [lia|].
  by eexists.
Qed.

Lemma apply_strategy_total (base_id s : pystr) :
  digits_decimal base_id = true →
  5 ≤ len base_id ∨ s ≠ str "pattern_based" →
  is_ok (apply_strategy base_id s []).
Proof.
  intros Hd Hlen. unfold apply_strategy.
  destruct (decide (s = str "last_char")).
  { destruct (last_char_total base_id 5 Hd) as [r ->]. by eexists. }
  destruct (decide (s = str "last_digit")).
  { destruct (last_digit_total base_id Hd) as [r ->]. by eexists. }
  destruct (decide (s = str "last_letter")).
  { destruct (last_letter_total base_id 5) as [r ->]. by eexists. }
  destruct (decide (s = str "all_positions")).
  { rewrite increment_all_positions_spec by done. by eexists. }
  destruct (decide (s = str "pattern_based")); [|by eexists].
  destruct Hlen as [Hlen|]; [|done].
  destruct (pattern_based_total base_id Hlen) as [r ->]. by eexists.
Qed.

(** X10.  On a seed whose digits are all among 0..9 (every ASCII seed), the
    mutation engine returns a list for any choice of strategies as soon as
    the seed has five characters or [pattern_based] is not asked for; with
    the default strategies it returns a list exactly when the seed has at
    least five characters. *)
Theorem generate_incremented_ids_total (base_id : pystr) :
  digits_decimal base_id = true →
  (∀ strategies, 5 ≤ len base_id ∨ str "pattern_based" ∉ strategies →
     is_ok (generate_incremented_ids base_id (Some strategies))) ∧
  (is_ok (generate_incremented_ids base_id None) ↔ 5 ≤ len base_id).
Proof.
  intros Hd.
  assert (Hsome : ∀ strategies,
            5 ≤ len base_id ∨ str "pattern_based" ∉ strategies →
            is_ok (generate_incremented_ids base_id (Some strategies))).
  { intros strategies Hlen. unfold generate_incremented_ids.
    destruct (for_total strategies (apply_strategy base_id) []) as [ids ->];
      [|by eexists].
    intros s st Hs. rewrite apply_strategy_acc.
    destruct (apply_strategy_total base_id s Hd) as [r ->]; [|by eexists].
    destruct Hlen as [?|Hn]; [by left|]. right. by intros ->. }
  split; [done|]. split.
  - intros [out Hout].
    destruct (decide (5 ≤ len base_id)) as [|Hshort]; [done|]. exfalso.
    unfold generate_incremented_ids in Hout.
    pose proof (for_union (apply_strategy base_id) (apply_strategy_acc base_id)
                  default_strategies []) as H.
    destruct (for_ default_strategies (apply_strategy base_id) []) as [ids|e];
      [|done].
    destruct H as [Hall _].
    destruct (Hall (str "pattern_based")) as [r Hr].
    { unfold default_strategies. do 4 right. left. }
    revert Hr.
    change (apply_strategy base_id (str "pattern_based") []) with
      (r ← _generate_pattern_based_ids base_id 20; Ok ([] ++ r)).
    by rewrite pattern_based_short by lia.
  - intros Hlen. apply (Hsome default_strategies). by left.
Qed.

Lemma generate_incremented_ids_total_witness :
  is_ok (generate_incremented_ids (str "a1-b2") None).
Proof.
  apply (generate_incremented_ids_total (str "a1-b2")); [reflexivity|].
  vm_compute. discriminate.
Defined.

(** ** The structure report *)

(** Removing one character with [str.replace] keeps the others. *)
Lemma replace_char (x : ascii) (s : pystr) :
  replace [x] [] s = filter (λ c, c ≠ x) s.
Proof.
  unfold replace. induction s as [|c s IH]; [done|].
  cbn [replace_from]. unfold startswith. cbn [length take].
  change (bool_decide (None ≠ Some 0%nat)) with true. rewrite andb_true_r.
  cbn [fmap option_fmap option_map Nat.sub app]. rewrite IH.
  destruct (decide (c = x)) as [->|Hc].
  - rewrite bool_decide_eq_true_2 by done. by rewrite filter_cons_False by naive_solver.
  - rewrite bool_decide_eq_false_2 by congruence. by rewrite filter_cons_True.
Qed.

Lemma count_char_cons (c x : ascii) (s : pystr) :
  count_char c (x :: s) = (if decide (x = c) then 1 else 0) + count_char c s.
Proof.
  unfold count_char. destruct (decide (x = c)).
  - rewrite filter_cons_True by done. rewrite len_cons. lia.
  - rewrite filter_cons_False by done. lia.
Qed.

Lemma count_char_pos (c : ascii) (s : pystr) : c ∈ s → 1 ≤ count_char c s.
Proof.
  induction 1 as [c s|c x s _ IH]; rewrite count_char_cons.
  - rewrite decide_True by done. unfold count_char.
    pose proof (len_nonneg (filter (λ c0, c0 = c) s)). lia.
  - destruct (decide (x = c)); lia.
Qed.

Lemma count_char_le (c : ascii) (s : pystr) : count_char c s ≤ len s.
Proof.
  unfold count_char, len. pose proof (length_filter (λ c0, c0 = c) s). lia.
Qed.

(** Over a list without repetitions that holds [x], exactly one entry is [x]. *)
Lemma sum_indicator (x : ascii) (l : list ascii) :
  NoDup l → x ∈ l →
  foldr (λ c acc, (if decide (x = c) then 1 else 0) + acc) 0 l = 1.
Proof.
  induction 1 as [|c l Hc Hl IH]; [by intros ?%elem_of_nil|].
  intros Hx. cbn [foldr]. destruct (decide (x = c)) as [->|Hne].
  - assert (foldr (λ c0 acc, (if decide (c = c0) then 1 else 0) + acc) 0 l = 0)
      as ->; [|done].
    clear -Hc. induction l as [|y l IH]; [done|]. cbn [foldr].
    rewrite decide_False by (intros ->; apply Hc; left).
    rewrite IH; [done|]. intros Hin. apply Hc. by right.
  - apply elem_of_cons in Hx as [?|Hx]; [done|]. by rewrite IH.
Qed.

(** The occurrences of the characters of a string add up to its length. *)
Lemma sum_counts (l : list ascii) (s : pystr) :
  NoDup l → (∀ c, c ∈ s → c ∈ l) →
  foldr (λ c acc, count_char c s + acc) 0 l = len s.
Proof.
  intros Hl. induction s as [|x s IH]; intros Hs.
  - clear. induction l as [|c l IH]; [done|]. cbn [foldr]. by rewrite IH.
  - rewrite len_cons. rewrite <- IH by (intros c Hc; apply Hs; by right).
    rewrite <- (sum_indicator x l Hl) by (apply Hs; left).
    clear. induction l as [|c l IH]; [done|]. cbn [foldr].
    rewrite count_char_cons, IH. lia.
Qed.

(** X11.  [analyze_id_structure] returns a report for every identifier.
    Its histogram has exactly the characters of the identifier as keys,
    each with its number of occurrences, which is at least 1, and the
    numbers add up to the length.  [alphanumeric_only] holds when the
    identifier has a character other than hyphen and underscore and all of
    those are alphanumeric, so it is off for the empty identifier and for
    one made of hyphens; [starts_with_digit] holds when there is a first
    character and it is a digit. *)
Theorem analyze_id_structure_report (doc_id : pystr) :
  ∃ report, analyze_id_structure doc_id = Ok report ∧
    id_length report = len doc_id ∧
    (∀ c, character_counts report !! c
          = if decide (c ∈ doc_id) then Some (count_char c doc_id) else None) ∧
    (∀ c n, character_counts report !! c = Some n → 1 ≤ n ≤ len doc_id) ∧
    map_fold (λ _ n acc, n + acc) 0 (character_counts report) = len doc_id ∧
    (has_hyphens report = true ↔ dash ∈ doc_id) ∧
    (has_underscores report = true ↔ underscore ∈ doc_id) ∧
    (alphanumeric_only report = true ↔
       (∃ c, c ∈ doc_id ∧ c ≠ dash ∧ c ≠ underscore) ∧
       ∀ c, c ∈ doc_id → c = dash ∨ c = underscore ∨ isalnum c = true) ∧
    (starts_with_digit report = true ↔
       ∃ c rest, doc_id = c :: rest ∧ isdigit c = true).
Proof.
  unfold analyze_id_structure.
  assert (∃ starts,
    (if decide (doc_id ≠ []) then c ← getitem doc_id 0; Ok (isdigit c)
     else Ok false) = Ok starts ∧
    (starts = true ↔ ∃ c rest, doc_id = c :: rest ∧ isdigit c = true))
    as (starts & -> & Hstarts).
  { destruct doc_id as [|c rest].
    - exists false. split; [done|]. split; [done|]. by intros (c & rest & ? & _).
    - exists (isdigit c). split; [done|]. split.
      + intros Hc. by exists c, rest.
      + by intros (c' & rest' & [= <- <-] & Hc). }
  rewrite bind_Ok. unfold _analyze_patterns.
  rewrite check_alternating_value, !bind_Ok.
  eexists. split; [done|]. cbn [id_length character_counts has_hyphens
    has_underscores alphanumeric_only starts_with_digit].
  set (counts := set_to_map (λ char, (char, count_char char doc_id))
                   (list_to_set doc_id : gset ascii) : gmap ascii Z).
  assert (Hlook : ∀ c n, counts !! c = Some n ↔ c ∈ doc_id ∧ n = count_char c doc_id).
  { intros c n. unfold counts. rewrite lookup_set_to_map by done. split.
    - intros (y & Hy%elem_of_list_to_set & [= -> ->]). done.
    - intros [Hc ->]. exists c. split; [by apply elem_of_list_to_set|done]. }
  split; [done|]. split.
  { intros c. destruct (decide (c ∈ doc_id)) as [Hc|Hc].
    - by apply Hlook.
    - destruct (counts !! c) as [n|] eqn:Hn; [|done].
      apply Hlook in Hn as [? _]. done. }
  split.
  { intros c n [Hc ->]%Hlook. split; [by apply count_char_pos|apply count_char_le]. }
  split.
  { rewrite map_fold_foldr. unfold counts, set_to_map.
    set (l := elements (list_to_set doc_id : gset ascii)).
    assert (NoDup l) as Hl by apply NoDup_elements.
    assert (∀ c, c ∈ doc_id → c ∈ l) as Hin.
    { intros c Hc. unfold l. by rewrite elem_of_elements, elem_of_list_to_set. }
    rewrite <- (sum_counts l doc_id Hl Hin).
    etrans.
    { apply (foldr_permutation (=) (uncurry (λ (_ : ascii) (n acc : Z), n + acc)) 0).
      - intros j1 [c1 n1] j2 [c2 n2] b _ _ _. cbn. lia.
      - apply map_to_list_to_map. rewrite <- list_fmap_compose.
        rewrite (list_fmap_ext _ id l) by done. by rewrite list_fmap_id. }
    clear. induction l as [|c l IH]; [done|]. cbn. by rewrite IH. }
  split; [apply bool_decide_eq_true|]. split; [apply bool_decide_eq_true|].
  split; [|done].
  rewrite !replace_char. unfold str_isalnum.
  rewrite andb_true_iff, bool_decide_eq_true, forallb_forall.
  set (kept := filter (λ c, c ≠ underscore) (filter (λ c, c ≠ dash) doc_id)).
  assert (Hkept : ∀ c, c ∈ kept ↔ c ∈ doc_id ∧ c ≠ dash ∧ c ≠ underscore).
  { intros c. unfold kept. rewrite !list_elem_of_filter. tauto. }
  split.
  - intros [Hne Hall]. split.
    + destruct kept as [|c k] eqn:Hk; [done|].
      exists c. apply Hkept. left.
    + intros c Hc. destruct (decide (c = dash)); [by left|].
      destruct (decide (c = underscore)); [by right; left|].
      right; right. apply Hall, list_elem_of_In, Hkept. done.
  - intros [(c & Hc) Hall]. split.
    + apply Hkept in Hc. intros Hnil. rewrite Hnil in Hc.
      by apply elem_of_nil in Hc.
    + intros c' Hc'%list_elem_of_In%Hkept. destruct Hc' as (Hin & Hd & Hu).
      destruct (Hall c' Hin) as [?|[?|?]]; done.
Qed.

(** ** The runs of [_analyze_patterns] *)

(** A greedy star followed by nothing takes the longest prefix in the
    class. *)
Lemma star_greedy (p : ascii → bool) (s : pystr) :
  ∃ r rest, s = r ++ rest ∧ Forall (λ x, p x = true) r ∧
    (∀ x, head rest = Some x → p x = false) ∧
    star_match true p Some s = Some rest.
Proof.
  induction s as [|c s IH].
  - exists [], []. split; [done|]. split; [done|]. split; [|done]. by intros x.
  - cbn [star_match]. destruct (p c) eqn:Hc.
    + destruct IH as (r & rest & -> & Hr & Hrest & ->).
      exists (c :: r), rest. split; [done|]. split; [by constructor|]. done.
    + exists [], (c :: s). split; [done|]. split; [done|]. split; [|done].
      by intros x [= <-].
Qed.

Lemma match_len_plus (p : ascii → bool) (c : ascii) (s : pystr) :
  if p c then
    ∃ r rest, s = r ++ rest ∧ Forall (λ x, p x = true) r ∧
      (∀ x, head rest = Some x → p x = false) ∧
      match_len (plus p) (c :: s) = Some (S (length r))
  else match_len (plus p) (c :: s) = None.
Proof.
  unfold match_len, plus. cbn [re_match]. destruct (p c); [|done].
  destruct (star_greedy p s) as (r & rest & -> & Hr & Hrest & ->).
  exists r, rest. split; [done|]. split; [done|]. split; [done|].
  cbn. f_equal. rewrite length_app. lia.
Qed.

Lemma findall_skip (r : regex) (n : nat) (s : pystr) :
  findall_from r n s = findall_from r 0 (drop n s).
Proof.
  revert n. induction s as [|c s IH]; intros [|n]; try done.
  cbn [findall_from drop]. apply IH.
Qed.

Lemma findall_plus_runs (p : ascii → bool) (s : pystr) :
  runs_of p s (re_findall (plus p) s).
Proof.
  unfold re_findall.
  assert (∀ n s, (length s ≤ n)%nat → runs_of p s (findall_from (plus p) 0 s))
    as H; [|by apply (H (length s))].
  clear s. induction n as [|n IH]; intros [|c s] Hlen; try (by constructor).
  { simpl in Hlen. lia. }
  cbn [findall_from]. pose proof (match_len_plus p c s) as Hm.
  destruct (p c) eqn:Hc.
  - destruct Hm as (r & rest & -> & Hr & Hrest & ->).
    rewrite findall_skip.
    replace (take (S (length r)) (c :: r ++ rest)) with (c :: r)
      by (cbn [take]; by rewrite take_app_length).
    rewrite drop_app_length. constructor; [done..|].
    apply IH. simpl in Hlen. rewrite length_app in Hlen. lia.
  - rewrite Hm. constructor; [done|]. apply IH. simpl in Hlen. lia.
Qed.

(** The runs are not empty, stay in the class, and together hold the
    characters of the class in their order. *)
Lemma runs_of_concat (p : ascii → bool) (s : pystr) (rs : list pystr) :
  runs_of p s rs →
  concat rs = filter (λ c, p c = true) s ∧
  Forall (λ r, r ≠ [] ∧ Forall (λ x, p x = true) r) rs.
Proof.
  induction 1 as [|c s rs Hc _ [IH1 IH2]|c r s rs Hc Hr _ _ [IH1 IH2]].
  - done.
  - rewrite filter_cons_False by congruence. done.
  - split.
    + cbn [concat]. rewrite IH1. rewrite filter_cons_True by done.
      rewrite filter_app. cbn. do 2 f_equal.
      clear -Hr. induction Hr as [|x r Hx _ IH]; [done|].
      rewrite filter_cons_True by done. by f_equal.
    + constructor; [|done]. split; [done|]. by constructor.
Qed.

Lemma findall_chr (q : ascii → bool) (s : pystr) :
  re_findall (Chr q) s = (λ c, [c]) <$> filter (λ c, q c = true) s.
Proof.
  unfold re_findall. induction s as [|c s IH]; [done|].
  cbn [findall_from]. destruct (q c) eqn:Hc.
  - assert (match_len (Chr q) (c :: s) = Some 1%nat) as ->.
    { unfold match_len. cbn [re_match]. rewrite Hc.
      cbn [mbind option_bind]. f_equal. cbn [length]. lia. }
    rewrite filter_cons_True by done. rewrite fmap_cons, <- IH. done.
  - assert (match_len (Chr q) (c :: s) = None) as ->.
    { unfold match_len. cbn [re_match]. by rewrite Hc. }
    rewrite filter_cons_False by congruence. done.
Qed.


(** ** The shape of a fingerprint *)

Lemma compress_length (h block : list Z) :
  length h = 8%nat → length (SHA256.compress h block) = 8%nat.
Proof.
  intros Hh. unfold SHA256.compress. cbv zeta.
  rewrite length_zip_with. rewrite Hh.
  by destruct (foldl SHA256.round _ _).
Qed.

Lemma digest_length (msg : list Z) : length (SHA256.digest msg) = 8%nat.
Proof.
  unfold SHA256.digest. cbv zeta.
  generalize (SHA256.chunks (length (SHA256.pad msg)) 64 (SHA256.pad msg)).
  intros blocks.
  assert (∀ h, length h = 8%nat → length (foldl SHA256.compress h blocks) = 8%nat)
    as H; [|by apply H].
  induction blocks as [|b blocks IH]; intros h Hh; [done|].
  cbn [foldl]. by apply IH, compress_length.
Qed.

Lemma hex_digit_range (n : Z) :
  0 ≤ n < 16 →
  48 ≤ ord (SHA256.hex_digit n) ≤ 57 ∨ 97 ≤ ord (SHA256.hex_digit n) ≤ 102.
Proof.
  intros Hn. unfold SHA256.hex_digit. destruct (decide (n < 10)).
  - left. rewrite ord_ascii_of_N by lia. lia.
  - right. rewrite ord_ascii_of_N by lia. lia.
Qed.

Lemma hex_of_word_shape (x : Z) :
  length (SHA256.hex_of_word x) = 8%nat ∧
  Forall (λ c, 48 ≤ ord c ≤ 57 ∨ 97 ≤ ord c ≤ 102) (SHA256.hex_of_word x).
Proof.
  unfold SHA256.hex_of_word. split; [by rewrite length_fmap, length_seq|].
  apply Forall_fmap, Forall_forall. intros i _. cbn.
  apply hex_digit_range. apply Z.mod_pos_bound. lia.
Qed.

(** A digest is written with 64 lowercase hexadecimal digits. *)
Lemma sha256_hex_shape (s : pystr) :
  length (sha256_hex s) = 64%nat ∧
  Forall (λ c, 48 ≤ ord c ≤ 57 ∨ 97 ≤ ord c ≤ 102) (sha256_hex s).
Proof.
  unfold sha256_hex, SHA256.hexdigest.
  pose proof (digest_length (encode_utf8 s)) as Hlen.
  generalize dependent (SHA256.digest (encode_utf8 s)). intros ws Hlen.
  assert (∀ ws, length (concat (SHA256.hex_of_word <$> ws)) = (8 * length ws)%nat
                ∧ Forall (λ c, 48 ≤ ord c ≤ 57 ∨ 97 ≤ ord c ≤ 102)
                    (concat (SHA256.hex_of_word <$> ws))) as H.
  { clear. induction ws as [|w ws [IH1 IH2]]; [done|].
    cbn [fmap list_fmap concat]. destruct (hex_of_word_shape w) as [H1 H2].
    split.
    - rewrite length_app, H1, IH1. cbn [length]. lia.
    - by apply Forall_app. }
  destruct (H ws) as [H1 H2]. split; [|done]. rewrite H1, Hlen. done.
Qed.

Lemma content_hash_length (parse : pystr → option SoupView) (content : pystr) :
  length (_calculate_content_hash parse content) = 64%nat.
Proof.
  unfold _calculate_content_hash, _calculate_content_hash_fallback.
  destruct (parse content); apply sha256_hex_shape.
Qed.

Section fingerprint.
Context (parse : pystr → option SoupView).

End fingerprint.

(** ** The record a probe returns *)

Section prober_record.
Context (parse : pystr → option SoupView) {W : Type}.
Context (http_get : pystr → W → http_outcome * W).

(** The outcome of the loop over the URL templates: either one of them
    answered 200 and the record was filled from that answer, or every one
    failed and the record keeps its content fields, with the last URL and
    an error message. *)
Lemma try_urls_outcome (templates : list pystr) (doc_id : pystr)
    (d : DocumentInfo.t) (w : W) :
  let d' := (try_urls parse W http_get templates doc_id d w).1 in
  (DocumentInfo.accessible d' = true ∧
   (∃ t, t ∈ templates ∧ DocumentInfo.url d' = format t doc_id) ∧
   (∃ content, DocumentInfo.content_hash d'
               = Some (_calculate_content_hash parse content)) ∧
   (∃ pv, DocumentInfo.content_preview d' = Some pv ∧ len pv ≤ 203))
  ∨ (DocumentInfo.accessible d' = DocumentInfo.accessible d ∧
     DocumentInfo.content_hash d' = DocumentInfo.content_hash d ∧
     DocumentInfo.content_preview d' = DocumentInfo.content_preview d ∧
     DocumentInfo.title d' = DocumentInfo.title d ∧
     match last templates with
     | Some t => DocumentInfo.url d' = format t doc_id
                 ∧ DocumentInfo.error d' ≠ None
     | None => d' = d
     end).
Proof.
  revert d w. induction templates as [|t ts IH]; intros d w; [by right|].
  assert (Hfail : ∀ e w',
    let d' := (try_urls parse W http_get ts doc_id
                 (set_error e (set_url (format t doc_id) d)) w').1 in
    (DocumentInfo.accessible d' = true ∧
     (∃ t0, t0 ∈ t :: ts ∧ DocumentInfo.url d' = format t0 doc_id) ∧
     (∃ content, DocumentInfo.content_hash d'
                 = Some (_calculate_content_hash parse content)) ∧
     (∃ pv, DocumentInfo.content_preview d' = Some pv ∧ len pv ≤ 203))
    ∨ (DocumentInfo.accessible d' = DocumentInfo.accessible d ∧
       DocumentInfo.content_hash d' = DocumentInfo.content_hash d ∧
       DocumentInfo.content_preview d' = DocumentInfo.content_preview d ∧
       DocumentInfo.title d' = DocumentInfo.title d ∧
       match last (t :: ts) with
       | Some t0 => DocumentInfo.url d' = format t0 doc_id
                    ∧ DocumentInfo.error d' ≠ None
       | None => d' = d
       end)).
  { intros e w' d'. subst d'.
    destruct (IH (set_error e (set_url (format t doc_id) d)) w')
      as [(Ha & (t0 & Ht0 & Hu) & Hh & Hp)|(Ha & Hh & Hp & Ht & Hl)].
    - left. split; [done|]. split; [|done]. exists t0. split; [by right|done].
    - right. split; [done|]. split; [done|]. split; [done|]. split; [done|].
      destruct ts as [|t' ts'].
      + cbn [last] in *. rewrite Hl. done.
      + rewrite last_cons_cons.
        destruct (last (t' :: ts')) eqn:Hlast; [done|].
        by apply last_None in Hlast. }
  cbn [try_urls]. cbv zeta.
  destruct (http_get (format t doc_id) w) as [[status content|e] w'].
  - destruct (decide (status = 200)).
    + left. cbn [fst]. unfold on_success, set_url.
      cbn [DocumentInfo.accessible DocumentInfo.url DocumentInfo.content_hash
           DocumentInfo.content_preview].
      split; [done|]. split; [exists t; split; [left|done]|].
      split; [by eexists|]. eexists. split; [done|].
      destruct (decide (len _ > 200)) as [Hlong|]; [|lia].
      rewrite len_app. destruct (slice_head (strip (re_sub re_spaces (str " ")
          (re_sub re_tag [] content))) 200) as (n & -> & Hn & _).
      change (len (str "...")) with 3. unfold len. rewrite length_take. lia.
    + destruct (decide (status = 403)); [apply Hfail|].
      destruct (decide (status = 404)); apply Hfail.
  - apply Hfail.
Qed.

End prober_record.

(** ** The running count of a batch *)

Lemma counted_hashes_snoc (l : list DocumentInfo.t) (d : DocumentInfo.t) :
  counted_hashes (l ++ [d]) =
  counted_hashes l ++
  (if DocumentInfo.accessible d && truthy (DocumentInfo.content_hash d)
   then [default [] (DocumentInfo.content_hash d)] else []).
Proof.
  unfold counted_hashes. rewrite omap_app. f_equal. cbn [omap list_omap].
  destruct (DocumentInfo.accessible d && truthy (DocumentInfo.content_hash d))
    eqn:Hc; [|done].
  apply andb_true_iff in Hc as [_ Hc].
  by destruct (DocumentInfo.content_hash d).
Qed.

Lemma first_seen_snoc (l : list pystr) (h : pystr) :
  first_seen (l ++ [h]) =
  if decide (h ∈ l) then first_seen l else first_seen l ++ [h].
Proof.
  unfold first_seen at 1. rewrite foldl_app. cbn [foldl]. fold (first_seen l).
  destruct (decide (h ∈ first_seen l)) as [Hin|Hin];
    rewrite elem_of_first_seen in Hin.
  - by rewrite decide_True.
  - by rewrite decide_False.
Qed.

Section batch_count.
Context (parse : pystr → option SoupView) {W float : Type}.
Context (http_get : pystr → W → http_outcome * W) (sleep : float → W → W).

Local Abbreviation probe := (test_document_access parse W http_get).
Local Abbreviation step := (batch_step parse W float http_get sleep).

(** A probe that is accessible has a fingerprint that counts. *)
Lemma probe_accessible_hash (doc_id : pystr) (w : W) :
  DocumentInfo.accessible (probe doc_id w).1 = true →
  truthy (DocumentInfo.content_hash (probe doc_id w).1) = true.
Proof.
  unfold test_document_access.
  destruct (try_urls_outcome parse http_get base_urls doc_id
              (DocumentInfo.mk doc_id [] false None None None None) w)
    as [(_ & _ & (content & ->) & _)|(-> & _)]; [|done].
  intros _. pose proof (content_hash_length parse content) as Hlen.
  by destruct (_calculate_content_hash parse content).
Qed.

Lemma batch_step_counter (doc_ids : list pystr) (delay : float)
    (st : batch_state W) (i : Z) (doc_id : pystr) :
  unique_count_so_far W st = len (first_seen (counted_hashes (results W st))) →
  (∀ h, h ∈ seen_hashes W st ↔ h ∈ counted_hashes (results W st)) →
  let st' := step doc_ids delay st (i, doc_id) in
  unique_count_so_far W st' = len (first_seen (counted_hashes (results W st'))) ∧
  (∀ h, h ∈ seen_hashes W st' ↔ h ∈ counted_hashes (results W st')).
Proof.
  intros Hcount Hseen st'. subst st'. unfold batch_step.
  destruct (probe doc_id (world W st)) as [d w].
  destruct (DocumentInfo.accessible d && truthy (DocumentInfo.content_hash d))
    eqn:Hat.
  - destruct (decide (default [] (DocumentInfo.content_hash d) ∉ seen_hashes W st))
      as [Hnew|Hold]; cbn [unique_count_so_far seen_hashes results];
      rewrite counted_hashes_snoc, Hat, first_seen_snoc.
    + rewrite Hseen in Hnew. rewrite decide_False by done. split.
      * rewrite len_app, Hcount. change (len [_]) with 1. lia.
      * intros h. rewrite elem_of_union, elem_of_singleton, elem_of_app,
          list_elem_of_singleton, Hseen. tauto.
    + apply dec_stable in Hold. pose proof Hold as Hold'.
      rewrite Hseen in Hold'. rewrite decide_True by done. split; [done|].
      intros h. rewrite elem_of_app, list_elem_of_singleton, Hseen.
      split; [tauto|]. intros [?|Heq]; [done|by subst h].
  - cbn [unique_count_so_far seen_hashes results].
    rewrite counted_hashes_snoc, Hat, app_nil_r. done.
Qed.

Lemma batch_fold_counter (doc_ids : list pystr) (delay : float)
    (items : list (Z * pystr)) (st : batch_state W) :
  unique_count_so_far W st = len (first_seen (counted_hashes (results W st))) →
  (∀ h, h ∈ seen_hashes W st ↔ h ∈ counted_hashes (results W st)) →
  Forall (λ r, DocumentInfo.accessible r = true →
               truthy (DocumentInfo.content_hash r) = true) (results W st) →
  let st' := foldl (step doc_ids delay) st items in
  unique_count_so_far W st' = len (first_seen (counted_hashes (results W st'))) ∧
  (∀ h, h ∈ seen_hashes W st' ↔ h ∈ counted_hashes (results W st')) ∧
  Forall (λ r, DocumentInfo.accessible r = true →
               truthy (DocumentInfo.content_hash r) = true) (results W st').
Proof.
  revert st. induction items as [|[i doc_id] items IH]; intros st Hc Hs Hf;
    cbn [foldl]; [done|].
  destruct (batch_step_counter doc_ids delay st i doc_id Hc Hs) as [Hc' Hs'].
  apply IH; [done|done|].
  rewrite batch_step_results. apply Forall_app. split; [done|].
  apply Forall_singleton, probe_accessible_hash.
Qed.

End batch_count.

(** ** Requests and pauses of a batch *)

Section traced_batch.
Context (parse : pystr → option SoupView) {W float : Type}.
Context (http_get : pystr → W → http_outcome * W) (sleep : float → W → W).

Local Abbreviation T := (W * list (event float))%type.
Local Abbreviation tget := (traced_get (float := float) http_get).
Local Abbreviation tsleep := (traced_sleep sleep).
Local Abbreviation ttry := (try_urls parse T tget).
Local Abbreviation tprobe := (test_document_access parse T tget).
Local Abbreviation tstep := (batch_step parse T float tget tsleep).

(** The loop over the templates requests a prefix of their URLs, in
    order. *)
Lemma try_urls_trace (templates : list pystr) (doc_id : pystr)
    (d : DocumentInfo.t) (wl : T) :
  ∃ n, (n ≤ length templates)%nat ∧ (templates ≠ [] → (1 ≤ n)%nat) ∧
    (ttry templates doc_id d wl).2.2
    = wl.2 ++ (Requested <$> take n ((λ t, format t doc_id) <$> templates)).
Proof.
  revert d wl. induction templates as [|t ts IH]; intros d wl.
  - exists 0%nat. split; [done|]. split; [done|]. by rewrite app_nil_r.
  - assert (Hrest : ∀ d' w',
      ∃ n, (n ≤ length (t :: ts))%nat ∧ (t :: ts ≠ [] → (1 ≤ n)%nat) ∧
        (ttry ts doc_id d' (w', wl.2 ++ [Requested (format t doc_id)])).2.2
        = wl.2 ++ (Requested <$> take n ((λ t, format t doc_id) <$> t :: ts))).
    { intros d' w'.
      destruct (IH d' (w', wl.2 ++ [Requested (format t doc_id)]))
        as (n & Hn & _ & ->).
      exists (S n). split; [simpl; lia|]. split; [lia|].
      cbn [snd fmap list_fmap take]. by rewrite <- (assoc_L (++)). }
    cbn [try_urls]. cbv zeta. unfold traced_get at 1.
    destruct (http_get (format t doc_id) wl.1) as [[status content|e] w'].
    + destruct (decide (status = 200)).
      { exists 1%nat. split; [simpl; lia|]. split; [done|]. done. }
      destruct (decide (status = 403)); [apply Hrest|].
      destruct (decide (status = 404)); apply Hrest.
    + apply Hrest.
Qed.

Lemma batch_step_trace (doc_ids : list pystr) (delay : float)
    (st : batch_state T) (i : Z) (doc_id : pystr) :
  (world T (tstep doc_ids delay st (i, doc_id))).2 =
  (tprobe doc_id (world T st)).2.2
  ++ (if decide (i < len doc_ids - 1) then [Slept delay] else []).
Proof.
  unfold batch_step. destruct (tprobe doc_id (world T st)) as [d w].
  destruct (_ && _); [destruct (decide (_ ∉ _))|]; cbn [world snd];
    destruct (decide (i < _)); by rewrite ?app_nil_r.
Qed.

Lemma batch_fold_trace (doc_ids : list pystr) (delay : float) (ids : list pystr) :
  ∀ (k : Z) (st : batch_state T),
    k + len ids = len doc_ids →
    ∃ groups,
      Forall2 (λ doc_id g, g ≠ [] ∧
                 g `prefix_of` (λ t, format t doc_id) <$> base_urls) ids groups ∧
      (world T (foldl (tstep doc_ids delay) st (zip (seqZ k (len ids)) ids))).2
      = (world T st).2 ++ trace_of delay groups.
Proof.
  induction ids as [|doc_id ids IH]; intros k st Hk.
  - exists []. split; [constructor|]. cbn. by rewrite app_nil_r.
  - rewrite len_cons in Hk. pose proof (len_nonneg ids) as Hids.
    rewrite len_cons.
    replace (seqZ k (1 + len ids)) with (k :: seqZ (k + 1) (len ids)).
    2:{ rewrite (seqZ_cons k) by lia. do 2 f_equal; lia. }
    cbn [zip zip_with foldl].
    destruct (IH (k + 1) (tstep doc_ids delay st (k, doc_id)) ltac:(lia))
      as (groups & Hgroups & ->).
    rewrite batch_step_trace. unfold test_document_access.
    destruct (try_urls_trace base_urls doc_id
                (DocumentInfo.mk doc_id [] false None None None None) (world T st))
      as (n & Hn & Hpos & ->).
    specialize (Hpos ltac:(done)).
    set (g := take n ((λ t, format t doc_id) <$> base_urls)).
    exists (g :: groups). split.
    + constructor; [|done]. split.
      * unfold g. destruct n; [lia|]. done.
      * apply prefix_take.
    + rewrite <- !(assoc_L (++)). f_equal. unfold trace_of.
      cbn [fmap list_fmap]. fold (trace_of delay groups).
      destruct ids as [|id' ids'].
      * apply Forall2_nil_inv_l in Hgroups as ->.
        rewrite decide_False by (change (len []) with 0 in Hk; lia).
        cbn. by rewrite app_nil_r.
      * apply Forall2_cons_inv_l in Hgroups as (g' & groups' & _ & _ & ->).
        rewrite decide_True by (rewrite len_cons in Hk; pose proof (len_nonneg ids'); lia).
        done.
Qed.

(** X16.  The requests and pauses of [batch_test_documents], read off a
    network that records them: the trace is one group of requests per
    identifier, in the order of the input, with one pause of [delay]
    between two groups and none before the first or after the last; each
    group is a non-empty prefix of the identifier's three URLs, edit,
    export and published view, in that order. *)
Theorem batch_trace (doc_ids : list pystr) (delay : float) (w : W) :
  let out := batch_test_documents parse T float tget tsleep doc_ids delay (w, []) in
  ∃ groups,
    Forall2 (λ doc_id g, g ≠ [] ∧
               g `prefix_of` (λ t, format t doc_id) <$> base_urls) doc_ids groups ∧
    out.2.2 = trace_of delay groups ∧
    length (filter (λ e, is_pause e = true) (trace_of delay groups))
    = pred (length doc_ids).
Proof.
  intros out. subst out. unfold batch_test_documents, enumerate, range1, range2.
  cbn [snd]. rewrite Z.sub_0_r.
  destruct (batch_fold_trace doc_ids delay doc_ids 0
              {| results := []; seen_hashes := ∅; unique_count_so_far := 0;
                 world := (w, []) |} ltac:(lia)) as (groups & Hgroups & ->).
  exists groups. split; [done|]. split; [done|].
  apply Forall2_length in Hgroups. rewrite Hgroups. clear.
  assert (Hg : ∀ g : list pystr,
    filter (λ e : event float, is_pause e = true) (Requested <$> g) = []).
  { induction g as [|u g IHg]; [done|]. cbn [fmap list_fmap].
    by rewrite filter_cons_False by done. }
  induction groups as [|g groups IH]; [done|].
  destruct groups as [|g' groups'].
  - unfold trace_of. cbn [fmap list_fmap join length pred]. by rewrite Hg.
  - change (trace_of delay (g :: g' :: groups'))
      with ((Requested <$> g) ++ [Slept delay] ++ trace_of delay (g' :: groups')).
    rewrite !filter_app, Hg, filter_cons_True by done.
    cbn [app length filter list_filter]. rewrite IH. done.
Qed.
End traced_batch.

(** ** The endpoints *)

Lemma len_filter_split (results : list DocumentInfo.t) :
  len results
  = len (filter (λ r, DocumentInfo.accessible r = true) results)
    + len (filter (λ r, DocumentInfo.accessible r = false) results).
Proof.
  induction results as [|r results IH]; [done|].
  destruct (DocumentInfo.accessible r) eqn:Ha.
  - rewrite filter_cons_True, (filter_cons_False (λ r, _ = false)) by congruence.
    rewrite !len_cons. lia.
  - rewrite filter_cons_False, (filter_cons_True (λ r, _ = false)) by congruence.
    rewrite !len_cons. lia.
Qed.

(** With digits among 0..9, only [pattern_based] can raise, and it raises
    [ValueError] on a seed of fewer than five characters. *)
Lemma generate_raises_iff (base_id : pystr) (strategies : list pystr) :
  digits_decimal base_id = true →
  (∃ e, generate_incremented_ids base_id (Some strategies) = Raise e) ↔
  str "pattern_based" ∈ strategies ∧ len base_id < 5.
Proof.
  intros Hd. unfold generate_incremented_ids.
  pose proof (for_union (apply_strategy base_id) (apply_strategy_acc base_id)
                strategies []) as H.
  destruct (for_ strategies (apply_strategy base_id) []) as [ids|e].
  - rewrite bind_Ok. destruct H as [Hall _]. split; [by intros [e ?]|].
    intros [Hin Hlen]. exfalso. destruct (Hall _ Hin) as [r Hr]. revert Hr.
    change (apply_strategy base_id (str "pattern_based") []) with
      (r ← _generate_pattern_based_ids base_id 20; Ok ([] ++ r)).
    by rewrite pattern_based_short by lia.
  - rewrite bind_Raise. destruct H as (s & Hs & He). split; [|by eexists].
    intros _. destruct (decide (5 ≤ len base_id ∨ s ≠ str "pattern_based"))
      as [Hok|Hbad].
    + destruct (apply_strategy_total base_id s Hd Hok) as [r Hr]. congruence.
    + assert (s = str "pattern_based") as ->
        by (destruct (decide (s = str "pattern_based")); [done|];
            exfalso; apply Hbad; by right).
      split; [done|]. lia.
Qed.

Lemma generate_raise_is_ValueError (base_id : pystr) (strategies : list pystr) (e : exn) :
  digits_decimal base_id = true →
  generate_incremented_ids base_id (Some strategies) = Raise e → e = ValueError.
Proof.
  intros Hd. unfold generate_incremented_ids.
  pose proof (for_union (apply_strategy base_id) (apply_strategy_acc base_id)
                strategies []) as H.
  destruct (for_ strategies (apply_strategy base_id) []) as [ids|e']; [done|].
  rewrite bind_Raise. intros [= ->]. destruct H as (s & Hs & He).
  destruct (decide (5 ≤ len base_id ∨ s ≠ str "pattern_based")) as [Hok|Hbad].
  - destruct (apply_strategy_total base_id s Hd Hok) as [r Hr]. congruence.
  - assert (s = str "pattern_based") as ->
      by (destruct (decide (s = str "pattern_based")); [done|];
          exfalso; apply Hbad; by right).
    revert He.
    change (apply_strategy base_id (str "pattern_based") []) with
      (r ← _generate_pattern_based_ids base_id 20; Ok ([] ++ r)).
    rewrite pattern_based_short by lia. by intros [= <-].
Qed.

Section api.
Context (parse : pystr → option SoupView) {W float : Type}.
Context (http_get : pystr → W → http_outcome * W) (sleep : float → W → W).

(** X17.  [POST /test-increments].  The handler answers 500 exactly when
    the mutation engine raises on the request's seed and strategies, with
    that exception as cause; probing and the uniqueness report never make
    it fail.  Otherwise the body is consistent: the documents tested are
    split into the successful and the failed ones, their number is at most
    [max_increments] (for a limit that is not negative) and at most the
    number of candidates, every tested identifier is one of the
    candidates, unique and duplicate documents add up to the successful
    ones, and the success rate is the share of successful documents, 0 for
    an empty batch.  For a seed with digits among 0..9 the answer is 500
    exactly when [pattern_based] is requested on a seed of fewer than five
    characters, as with the default strategies of the request. *)
Theorem test_incremented_documents_response (request : IncrementRequest float) (w : W) :
  match (test_incremented_documents parse W float http_get sleep request w).1 with
  | HTTPException status e =>
      status = 500 ∧
      generate_incremented_ids (req_base_id request) (Some (req_strategies request))
      = Raise e
  | Reply r =>
      ∃ ids,
        generate_incremented_ids (req_base_id request) (Some (req_strategies request))
        = Ok ids ∧
        inc_total_tested r = successful_count r + failed_count r ∧
        inc_total_tested r ≤ len ids ∧
        (0 ≤ req_max_increments request →
         inc_total_tested r ≤ req_max_increments request) ∧
        unique_documents_count r + duplicate_documents_count r = successful_count r ∧
        success_rate r
        = (if decide (inc_total_tested r = 0) then 0%Q
           else (Qmake (successful_count r) 1 / Qmake (inc_total_tested r) 1)%Q) ∧
        Forall (λ d, DocumentInfo.accessible d = true ∧ DocumentInfo.id d ∈ ids)
          (successful_documents r) ∧
        Forall (λ d, DocumentInfo.accessible d = false ∧ DocumentInfo.id d ∈ ids)
          (failed_documents r)
  end ∧
  (digits_decimal (req_base_id request) = true →
   ((∃ e, (test_incremented_documents parse W float http_get sleep request w).1
          = HTTPException 500 e) ↔
    str "pattern_based" ∈ req_strategies request ∧ len (req_base_id request) < 5)).
Proof.
  assert (Hmain :
    match generate_incremented_ids (req_base_id request)
            (Some (req_strategies request)) with
    | Raise e =>
        (test_incremented_documents parse W float http_get sleep request w).1
        = HTTPException 500 e
    | Ok ids =>
        ∃ r, (test_incremented_documents parse W float http_get sleep request w).1
             = Reply r ∧
          inc_total_tested r = successful_count r + failed_count r ∧
          inc_total_tested r ≤ len ids ∧
          (0 ≤ req_max_increments request →
           inc_total_tested r ≤ req_max_increments request) ∧
          unique_documents_count r + duplicate_documents_count r = successful_count r ∧
          success_rate r
          = (if decide (inc_total_tested r = 0) then 0%Q
             else (Qmake (successful_count r) 1 / Qmake (inc_total_tested r) 1)%Q) ∧
          Forall (λ d, DocumentInfo.accessible d = true ∧ DocumentInfo.id d ∈ ids)
            (successful_documents r) ∧
          Forall (λ d, DocumentInfo.accessible d = false ∧ DocumentInfo.id d ∈ ids)
            (failed_documents r)
    end).
  { unfold test_incremented_documents.
    destruct (generate_incremented_ids _ _) as [ids|e]; [|done].
    destruct (slice_head ids (req_max_increments request)) as (n & Hslice & Hn & _).
    rewrite Hslice.
    pose proof (batch_ids parse http_get sleep (take n ids)
                  (req_test_delay request) w) as Hids.
    destruct (batch_test_documents parse W float http_get sleep (take n ids)
                (req_test_delay request) w) as [results w'].
    cbn [fst] in Hids.
    assert (Hlen : len results = len (take n ids)).
    { unfold len. f_equal. by rewrite <- Hids, length_fmap. }
    assert (Hmem : Forall (λ d, DocumentInfo.id d ∈ ids) results).
    { apply Forall_forall. intros d Hd.
      assert (DocumentInfo.id d ∈ take n ids) as Hin
        by (rewrite <- Hids; by apply list_elem_of_fmap_2).
      by apply (subseteq_take n ids). }
    destruct (analyze_uniqueness_counts results)
      as (report & hc & -> & _ & Hacc & _ & Hdup & _).
    assert (∃ rate,
      (if decide (results ≠ [])
       then truediv (len (filter (λ r, DocumentInfo.accessible r = true) results))
              (len results) else Ok 0%Q) = Ok rate ∧
      rate = (if decide (len results = 0) then 0%Q
              else (Qmake (len (filter (λ r, DocumentInfo.accessible r = true) results)) 1
                    / Qmake (len results) 1)%Q)) as (rate & -> & Hrate).
    { destruct results as [|r0 results0].
      - exists 0%Q. done.
      - rewrite decide_True by done. unfold truediv.
        pose proof (len_nonneg results0). rewrite len_cons.
        rewrite !decide_False by lia. by eexists. }
    eexists. split; [done|].
    cbn [inc_total_tested successful_count failed_count success_rate
         unique_documents_count duplicate_documents_count successful_documents
         failed_documents fst].
    split; [apply len_filter_split|]. split.
    { rewrite Hlen. unfold len. rewrite length_take. lia. }
    split.
    { intros Hm. specialize (Hn Hm). rewrite Hlen. unfold len.
      rewrite length_take. lia. }
    split; [rewrite Hdup, Hacc; lia|]. split; [done|]. split.
    - apply Forall_forall. intros d [Ha Hd]%list_elem_of_filter. split; [done|].
      by eapply Forall_forall in Hmem.
    - apply Forall_forall. intros d [Ha Hd]%list_elem_of_filter. split; [done|].
      by eapply Forall_forall in Hmem. }
  split.
  - destruct (generate_incremented_ids _ _) as [ids|e].
    + destruct Hmain as (r & -> & H). by exists ids.
    + rewrite Hmain. done.
  - intros Hd. rewrite <- (generate_raises_iff _ _ Hd).
    destruct (generate_incremented_ids _ _) as [ids|e].
    + destruct Hmain as (r & -> & _). split; by intros [e ?].
    + rewrite Hmain. split; intros _; by eexists.
Qed.
End api.

(** The three strategies of [/generate-increments] keep the length of the
    seed. *)
Lemma last_char_lengths (base_id : pystr) :
  digits_decimal base_id = true →
  ∃ r, _increment_last_char base_id 5 = Ok r ∧ (length r ≤ 5)%nat ∧
       Forall (λ cand, length cand = length base_id) r.
Proof.
  intros Hd. destruct base_id as [|c pre _] using rev_ind.
  { exists []. split; [done|]. split; [simpl; lia|done]. }
  rewrite increment_last_char_snoc.
  2:{ apply (digits_decimal_elem _ _ Hd). apply elem_of_app. right. left. }
  change (range2 1 (5 + 1)) with (seqZ 1 5).
  eexists. split; [done|]. split; [apply (length_omap_le _ (seqZ 1 5))|].
  eapply Forall_impl; [apply omap_bump_at_Forall; lia|]. by intros cand [? _].
Qed.

Lemma last_digit_lengths (base_id : pystr) :
  digits_decimal base_id = true →
  ∃ r, _increment_last_digit base_id 10 = Ok r ∧ (length r ≤ 10)%nat ∧
       Forall (λ cand, length cand = length base_id) r.
Proof.
  intros Hd.
  destruct (split_last isdigit base_id) as [[[pre c] post]|] eqn:Hs.
  - apply split_last_Some in Hs as (-> & Hc & Hpost).
    rewrite increment_last_digit_found; [| |done].
    2:{ apply (digits_decimal_elem _ _ Hd); [|done].
        apply elem_of_app. right. left. }
    eexists. split; [done|]. split.
    + rewrite length_fmap, length_seqZ. lia.
    + apply Forall_fmap, Forall_forall. intros i _. cbn.
      rewrite !length_app. done.
  - apply split_last_None in Hs.
    rewrite increment_last_digit_none by done.
    exists []. split; [done|]. split; [simpl; lia|done].
Qed.

Lemma last_letter_lengths (base_id : pystr) :
  ∃ r, _increment_last_letter base_id 5 = Ok r ∧ (length r ≤ 5)%nat ∧
       Forall (λ cand, length cand = length base_id) r.
Proof.
  destruct (split_last isalpha base_id) as [[[pre c] post]|] eqn:Hs.
  - apply split_last_Some in Hs as (-> & Hc & Hpost).
    rewrite increment_last_letter_found by done.
    change (range2 1 (5 + 1)) with (seqZ 1 5).
    eexists. split; [done|]. split; [apply (length_omap_le _ (seqZ 1 5))|].
    eapply Forall_impl; [apply omap_bump_at_Forall; lia|]. by intros cand [? _].
  - apply split_last_None in Hs.
    rewrite increment_last_letter_none by done.
    exists []. split; [done|]. split; [simpl; lia|done].
Qed.

(** X18.  [POST /generate-increments/{base_id}] on a seed whose digits are
    among 0..9.  Without a strategy list the handler never answers 500: it
    replies with its three default strategies and with at most 20
    candidates, all different, each of the length of the seed, and [count]
    is their number; the empty seed gets none.  With a strategy list it
    answers 500 exactly when [pattern_based] is asked for on a seed of
    fewer than five characters, and the cause is a [ValueError]. *)
Theorem generate_endpoint_response (base_id : pystr) :
  digits_decimal base_id = true →
  (∃ r, generate_incremented_ids_endpoint base_id None = Reply r ∧
     gen_strategies r = endpoint_default_strategies ∧
     gen_count r = len (gen_incremented_ids r) ∧
     gen_count r ≤ 20 ∧
     NoDup (gen_incremented_ids r) ∧
     Forall (λ cand, length cand = length base_id) (gen_incremented_ids r) ∧
     (base_id = [] → gen_incremented_ids r = [])) ∧
  ∀ strategies,
    ((∃ status e, generate_incremented_ids_endpoint base_id (Some strategies)
                  = HTTPException status e) ↔
     str "pattern_based" ∈ strategies ∧ len base_id < 5) ∧
    (∀ status e, generate_incremented_ids_endpoint base_id (Some strategies)
                 = HTTPException status e → status = 500 ∧ e = ValueError).
Proof.
  intros Hd. split.
  - unfold generate_incremented_ids_endpoint, generate_incremented_ids,
      endpoint_default_strategies. cbn [for_].
    destruct (last_char_lengths base_id Hd) as (r1 & Hr1 & Hl1 & Hf1).
    destruct (last_digit_lengths base_id Hd) as (r2 & Hr2 & Hl2 & Hf2).
    destruct (last_letter_lengths base_id) as (r3 & Hr3 & Hl3 & Hf3).
    change (apply_strategy base_id (str "last_char") []) with
      (r ← _increment_last_char base_id 5; Ok ([] ++ r)).
    rewrite Hr1, !bind_Ok.
    change (apply_strategy base_id (str "last_digit") ([] ++ r1)) with
      (r ← _increment_last_digit base_id 10; Ok (([] ++ r1) ++ r)).
    rewrite Hr2, !bind_Ok.
    change (apply_strategy base_id (str "last_letter") (([] ++ r1) ++ r2)) with
      (r ← _increment_last_letter base_id 5; Ok ((([] ++ r1) ++ r2) ++ r)).
    rewrite Hr3, !bind_Ok. cbn [app].
    set (ids := (r1 ++ r2) ++ r3).
    set (out := elements (list_to_set ids : gset pystr)).
    assert (Hnd : NoDup out) by apply NoDup_elements.
    assert (Hin : ∀ cand, cand ∈ out ↔ cand ∈ ids).
    { intros cand. unfold out. by rewrite elem_of_elements, elem_of_list_to_set. }
    assert (Hids : Forall (λ cand, length cand = length base_id) ids).
    { unfold ids. rewrite !Forall_app. done. }
    eexists. split; [done|].
    cbn [gen_strategies gen_count gen_incremented_ids].
    split; [done|]. split; [done|]. split.
    { assert (length out ≤ length ids)%nat as Hle.
      { apply submseteq_length, NoDup_submseteq; [done|].
        intros cand. by rewrite Hin. }
      unfold len. unfold ids in Hle. rewrite !length_app in Hle. lia. }
    split; [done|]. split.
    { apply Forall_forall. intros cand Hc%Hin.
      by eapply Forall_forall in Hids. }
    intros ->. revert Hr1 Hr2 Hr3. cbn.
    assert (out = [] ↔ ids = []) as Hnil.
    { split; intros H0.
      - destruct ids as [|x ids']; [done|].
        assert (x ∈ out) as Hx by (apply Hin; left).
        rewrite H0 in Hx. by apply elem_of_nil in Hx.
      - destruct out as [|x out']; [done|].
        assert (x ∈ ids) as Hx by (apply Hin; left).
        rewrite H0 in Hx. by apply elem_of_nil in Hx. }
    intros [= <-] H2 H3. apply Hnil. unfold ids.
    assert (r2 = []) as -> by (vm_compute in H2; congruence).
    assert (r3 = []) as -> by (vm_compute in H3; congruence).
    done.
  - intros strategies. unfold generate_incremented_ids_endpoint.
    rewrite <- (generate_raises_iff base_id strategies Hd).
    destruct (generate_incremented_ids base_id (Some strategies)) as [ids|e] eqn:Hg.
    + split; [|done]. split; [by intros (? & ? & ?)|by intros [? ?]].
    + split.
      * split; [by eexists|]. intros _. by exists 500, e.
      * intros status e' [= <- <-]. split; [done|].
        by apply (generate_raise_is_ValueError base_id strategies).
Qed.

Lemma generate_endpoint_response_witness :
  ∃ r, generate_incremented_ids_endpoint (str "a1") None = Reply r ∧
       gen_count r ≤ 20.
Proof.
  destruct (generate_endpoint_response (str "a1"))
    as [(r & Hr & _ & _ & Hc & _) _]; [reflexivity|].
  exists r. split; [exact Hr | exact Hc].
Defined.

(** ** When an increment raises *)

Lemma increment_all_positions_unfold (s : pystr) (m : Z) :
  _increment_all_positions s m = for_ (range1 (len s)) (all_positions_body s m) [].
Proof. reflexivity. Qed.

Lemma all_positions_body_ok (pre post : pystr) (c : ascii) (m : Z) (st : list pystr) :
  (isdigit c = true → isdecimal c = true) →
  all_positions_body (pre ++ c :: post) m (len pre) st
  = Ok (st ++ omap (bump_at (pre ++ c :: post) (length pre)) (range2 1 (m + 1))).
Proof.
  intros Hc. unfold all_positions_body.
  rewrite getitem_middle, bind_Ok. cbv zeta.
  rewrite slice_prefix, slice_after_middle.
  apply for_omap. intros i st' Hi%elem_of_range2.
  rewrite bump_body_spec, bump_at_middle; [done|done|lia].
Qed.

Lemma all_positions_body_raise (pre post : pystr) (c : ascii) (m : Z) (st : list pystr) :
  1 ≤ m → isdigit c = true → isdecimal c = false →
  all_positions_body (pre ++ c :: post) m (len pre) st = Raise ValueError.
Proof.
  intros Hm Hd Hdec. unfold all_positions_body.
  rewrite getitem_middle, bind_Ok. cbv zeta.
  unfold range2. rewrite seqZ_cons by lia. cbn [for_].
  by rewrite bump_body_superscript.
Qed.

(** The first digit of a string that is not one of 0..9. *)
Lemma digits_decimal_false (s : pystr) :
  digits_decimal s = false →
  ∃ pre c post, s = pre ++ c :: post ∧ digits_decimal pre = true ∧
    isdigit c = true ∧ isdecimal c = false.
Proof.
  induction s as [|x s IH]; [done|]. unfold digits_decimal. cbn [forallb].
  destruct (implb (isdigit x) (isdecimal x)) eqn:Hx.
  - rewrite andb_true_l. intros Hs.
    destruct (IH Hs) as (pre & c & post & -> & Hpre & Hc).
    exists (x :: pre), c, post. split; [done|]. split; [|done].
    unfold digits_decimal. cbn [forallb]. by rewrite Hx.
  - intros _. exists [], x, s. split; [done|]. split; [done|].
    destruct (isdigit x), (isdecimal x); done.
Qed.

Lemma all_positions_raise (s : pystr) (m : Z) :
  1 ≤ m → digits_decimal s = false → _increment_all_positions s m = Raise ValueError.
Proof.
  intros Hm Hs.
  destruct (digits_decimal_false s Hs) as (pre & c & post & -> & Hpre & Hd & Hdec).
  rewrite increment_all_positions_unfold.
  assert (range1 (len (pre ++ c :: post))
          = seqZ 0 (len pre) ++ len pre :: seqZ (len pre + 1) (len post)) as ->.
  { unfold range1, range2. rewrite len_app, len_cons, Z.sub_0_r.
    pose proof (len_nonneg pre). pose proof (len_nonneg post).
    rewrite seqZ_app by lia. f_equal. rewrite seqZ_cons by lia.
    do 2 f_equal; lia. }
  rewrite for_app.
  rewrite (for_bind (λ pos, omap (bump_at (pre ++ c :: post) (Z.to_nat pos))
                              (range2 1 (m + 1)))).
  - rewrite bind_Ok. cbn [for_]. by rewrite all_positions_body_raise.
  - intros pos st Hpos%elem_of_seqZ.
    destruct (getitem_split pre pos) as (p1 & c1 & p2 & Hp & -> & _); [lia|].
    rewrite Hp. rewrite <- (assoc_L (++)). cbn [app].
    rewrite all_positions_body_ok.
    + unfold len. by rewrite Nat2Z.id.
    + apply (digits_decimal_elem _ _ Hpre). rewrite Hp.
      apply elem_of_app. right. left.
Qed.

Lemma last_char_raise (pre : pystr) (c : ascii) (count : Z) :
  1 ≤ count → isdigit c = true → isdecimal c = false →
  _increment_last_char (pre ++ [c]) count = Raise ValueError.
Proof.
  intros Hcount Hd Hdec. unfold _increment_last_char.
  rewrite decide_False by (by destruct pre).
  rewrite getitem_last, bind_Ok. cbv zeta.
  match goal with |- for_ ?xs _ ?st = ?r =>
    change (for_ xs (bump_body c (λ x, slice (pre ++ [c]) None (Some (-1)) ++ x)) st = r)
  end.
  unfold range2. rewrite seqZ_cons by lia. cbn [for_].
  by rewrite bump_body_superscript.
Qed.

Lemma last_digit_is_decimal_dec (s : pystr) :
  last_digit_is_decimal s ∨ ¬ last_digit_is_decimal s.
Proof.
  unfold last_digit_is_decimal.
  destruct (split_last isdigit s) as [[[pre c] post]|]; [|by left].
  destruct (isdecimal c); [by left|by right].
Qed.

(** X19.  The increments raise on one kind of input only, a digit that
    [isdigit] accepts and [int] refuses (a superscript two, three or one),
    and then with [ValueError]: [_increment_last_char] when that is the
    last character of the seed, [_increment_last_digit] when it is the
    rightmost digit, [_increment_all_positions] when the seed has one
    anywhere.  On every other seed each of them returns a list. *)
Theorem increment_failures (doc_id : pystr) :
  (if last_is_superscript doc_id
   then _increment_last_char doc_id 5 = Raise ValueError
   else is_ok (_increment_last_char doc_id 5)) ∧
  (last_digit_is_decimal doc_id → is_ok (_increment_last_digit doc_id 10)) ∧
  (¬ last_digit_is_decimal doc_id →
   _increment_last_digit doc_id 10 = Raise ValueError) ∧
  (if digits_decimal doc_id
   then is_ok (_increment_all_positions doc_id 2)
   else _increment_all_positions doc_id 2 = Raise ValueError).
Proof.
  split; [|split; [|split]].
  - unfold last_is_superscript.
    destruct doc_id as [|c pre _] using rev_ind; [by exists []|].
    rewrite last_snoc. destruct (isdigit c && negb (isdecimal c)) eqn:Hc.
    + apply andb_true_iff in Hc as [Hd Hn]. apply negb_true_iff in Hn.
      by apply last_char_raise.
    + rewrite increment_last_char_snoc; [by eexists|].
      intros Hd. rewrite Hd in Hc. by destruct (isdecimal c).
  - unfold last_digit_is_decimal.
    destruct (split_last isdigit doc_id) as [[[pre c] post]|] eqn:Hs.
    + apply split_last_Some in Hs as (-> & Hc & Hpost). intros Hdec.
      rewrite increment_last_digit_found by done. by eexists.
    + apply split_last_None in Hs. intros _.
      rewrite increment_last_digit_none by done. by eexists.
  - unfold last_digit_is_decimal.
    destruct (split_last isdigit doc_id) as [[[pre c] post]|] eqn:Hs; [|done].
    apply split_last_Some in Hs as (-> & Hc & Hpost). intros Hdec.
    apply increment_last_digit_superscript; [done| |done].
    by destruct (isdecimal c).
  - destruct (digits_decimal doc_id) eqn:Hd.
    + rewrite increment_all_positions_spec by done. by eexists.
    + by apply all_positions_raise.
Qed.

(** ** The digit-sequence heuristic and the four heuristics together *)

(** [int] accepts every match of [\d+]. *)
Lemma int_of_run (s : pystr) (seq : pystr) :
  seq ∈ re_findall re_digits s → int_ seq = Ok (int_digits seq).
Proof.
  intros Hin. pose proof (findall_plus_runs isdecimal s) as Hruns.
  apply runs_of_concat in Hruns as [_ Hall].
  eapply Forall_forall in Hall as [Hne Hdec]; [|exact Hin].
  unfold int_. rewrite bool_decide_eq_true_2 by done.
  assert (forallb isdecimal seq = true) as ->; [|done].
  apply forallb_forall. intros c Hc%list_elem_of_In.
  by eapply Forall_forall in Hdec.
Qed.

Lemma digit_sequence_shape (base_id : pystr) (count : Z) :
  ∃ out, _test_digit_sequence_patterns base_id count = Ok out ∧
    (0 ≤ count → len out ≤ count) ∧
    Forall (λ cand, cand ≠ base_id ∧
      ∃ seq delta, seq ∈ re_findall re_digits base_id ∧ 2 ≤ len seq ∧
        delta ∈ [-2; -1; 1; 2] ∧
        cand = replace1 seq
                 (zfill (len seq) (str_of_int (Z.max 0 (int_digits seq + delta))))
                 base_id) out ∧
    (Forall (λ seq, len seq < 2) (re_findall re_digits base_id) → out = []).
Proof.
  unfold _test_digit_sequence_patterns. cbv zeta.
  set (Q := λ cand : pystr, cand ≠ base_id ∧
      ∃ seq delta, seq ∈ re_findall re_digits base_id ∧ 2 ≤ len seq ∧
        delta ∈ [-2; -1; 1; 2] ∧
        cand = replace1 seq
                 (zfill (len seq) (str_of_int (Z.max 0 (int_digits seq + delta))))
                 base_id).
  set (P := λ results : list pystr, Forall Q results ∧
      (Forall (λ seq, len seq < 2) (re_findall re_digits base_id) → results = [])).
  edestruct (for_invariant P (re_findall re_digits base_id))
    as (results & -> & Hres & Hnil).
  - intros seq st Hseq [Hst Hst0].
    destruct (decide (len seq >= 2)) as [Hlen|Hshort];
      [|exists st; split; [done|by split]].
    rewrite (int_of_run base_id seq Hseq), bind_Ok.
    edestruct (for_invariant P [-2; -1; 1; 2]) as (st' & -> & Hst');
      [|by split|].
    + intros delta st1 Hdelta [Hst1 Hst10].
      destruct (decide (_ ≠ base_id)) as [Hne|];
        [|exists st1; split; [done|by split]].
      eexists. split; [done|]. split.
      * apply Forall_app. split; [done|]. apply Forall_singleton.
        split; [done|]. exists seq, delta. split; [done|]. split; [lia|]. done.
      * intros Hall. eapply Forall_forall in Hall; [|exact Hseq]. lia.
    + by exists st'.
  - split; [done|done].
  - rewrite bind_Ok. destruct (slice_head results count) as (n & -> & Hn & _).
    eexists. split; [done|]. split.
    + intros Hc. specialize (Hn Hc). unfold len. rewrite length_take. lia.
    + split; [by apply Forall_take|]. intros Hall. rewrite (Hnil Hall). apply take_nil.
Qed.

(** X20.  [_test_digit_sequence_patterns] never raises.  For a count that
    is not negative it returns at most [count] candidates; each is the
    seed with the first occurrence of one of its runs of two or more
    digits replaced by that number moved by -2, -1, 1 or 2, not below 0
    and padded with zeros to the width of the run, and is never the seed
    itself; a seed without such a run gets none. *)
Theorem digit_sequence_candidates (base_id : pystr) (count : Z) :
  ∃ out, _test_digit_sequence_patterns base_id count = Ok out ∧
    (0 ≤ count → len out ≤ count) ∧
    Forall (λ cand, cand ≠ base_id ∧
      ∃ seq delta, seq ∈ re_findall re_digits base_id ∧ 2 ≤ len seq ∧
        delta ∈ [-2; -1; 1; 2] ∧
        cand = replace1 seq
                 (zfill (len seq) (str_of_int (Z.max 0 (int_digits seq + delta))))
                 base_id) out ∧
    (Forall (λ seq, len seq < 2) (re_findall re_digits base_id) → out = []).
Proof. exact (digit_sequence_shape base_id count). Qed.

(** X21.  [_generate_pattern_based_ids] on a seed of at least five
    characters returns at most 20 candidates, and the seed itself is among
    them exactly when it is 44 characters long and has no hyphen, in which
    case the hyphen heuristic hands it back unchanged. *)
Theorem pattern_based_candidates (base_id : pystr) :
  5 ≤ len base_id →
  ∃ out, _generate_pattern_based_ids base_id 20 = Ok out ∧
    len out ≤ 20 ∧
    (base_id ∈ out ↔ len base_id = 44 ∧ dash ∉ base_id).
Proof.
  intros Hlen. unfold _generate_pattern_based_ids.
  change (floordiv 20 4) with (Ok 5 : result Z). cbv zeta. rewrite !bind_Ok.
  destruct (hyphen_variations_exact base_id 5) as [Hh Hself]; [lia|].
  cbv zeta in Hh. rewrite Hh, !bind_Ok.
  destruct (digit_sequence_shape base_id 5) as (r2 & -> & Hl2 & Hr2 & _).
  rewrite !bind_Ok.
  destruct (segment_swaps base_id 5) as (r3 & -> & Hl3 & Hr3).
  rewrite !bind_Ok.
  destruct (length_variations_shape base_id 5) as (r4 & -> & Hl4 & _ & Hr4);
    [lia|].
  rewrite !bind_Ok.
  set (stripped := filter (λ c, c ≠ dash) base_id) in *.
  set (r1 := if decide (len stripped = 44) then [stripped] else []).
  assert (len r1 ≤ 1) as Hl1 by (unfold r1; by destruct (decide _)).
  eexists. split; [done|]. split.
  { rewrite !len_app. specialize (Hl2 ltac:(lia)). specialize (Hl3 ltac:(lia)).
    change (len []) with 0. lia. }
  assert (Hstrip : stripped = base_id ↔ dash ∉ base_id).
  { unfold stripped. clear. induction base_id as [|c s IH]; [split; [|done]|].
    - intros _ Hin. by apply elem_of_nil in Hin.
    - destruct (decide (c = dash)) as [->|Hc].
      + rewrite filter_cons_False by (intros H; by apply H). split.
        * intros Heq. exfalso.
          pose proof (length_filter (λ c, c ≠ dash) s) as Hle.
          rewrite Heq in Hle. simpl in Hle. lia.
        * intros Hn. exfalso. apply Hn. left.
      + rewrite filter_cons_True by done. split.
        * intros [= Heq]. apply IH in Heq. intros [?|?]%elem_of_cons; done.
        * intros Hn. f_equal. apply IH. intros Hin. apply Hn. by right. }
  split.
  - rewrite !elem_of_app. intros [[[[Hnil|H1]|H2]|H3]|H4].
    + by apply elem_of_nil in Hnil.
    + unfold r1 in H1. destruct (decide (len stripped = 44)) as [H44|];
        [|by apply elem_of_nil in H1].
      apply list_elem_of_singleton in H1. split; [by rewrite H1|].
      by apply Hstrip.
    + eapply Forall_forall in Hr2 as [Hne _]; [|exact H2]. done.
    + eapply Forall_forall in Hr3 as (_ & _ & Hne); [|exact H3]. done.
    + eapply Forall_forall in Hr4 as (pre & c & post & Hs & Hc); [|exact H4].
      exfalso. apply (f_equal length) in Hs.
      destruct Hc as [[Hc _]|[Hc _]]; apply (f_equal length) in Hc;
        rewrite Hc in Hs; rewrite !length_app in Hs; simpl in Hs; lia.
  - intros [H44 Hdash]. rewrite !elem_of_app. left. left. left. right.
    apply Hstrip in Hdash. unfold r1. rewrite Hdash.
    rewrite decide_True by done. left.
Qed.

Lemma pattern_based_candidates_witness :
  ∃ out, _generate_pattern_based_ids (str "ab-12") 20 = Ok out ∧ len out ≤ 20.
Proof.
  destruct (pattern_based_candidates (str "ab-12")) as (out & Hout & Hlen & _).
  - vm_compute. discriminate.
  - exists out. split; [exact Hout | exact Hlen].
Defined.

(** ** When a batch has no duplicate *)

Lemma first_seen_length (l : list pystr) :
  (length (first_seen l) ≤ length l)%nat ∧
  (length (first_seen l) = length l ↔ NoDup l).
Proof.
  induction l as [|h l [IHle IHeq]] using rev_ind; [split; [done|]|].
  { split; [constructor|done]. }
  rewrite first_seen_snoc, length_app. cbn [length].
  destruct (decide (h ∈ l)) as [Hin|Hnotin].
  - split; [lia|]. split; [lia|].
    intros Hnd. apply NoDup_app in Hnd as (_ & Hdis & _).
    exfalso. apply (Hdis h Hin). left.
  - rewrite length_app. cbn [length]. split; [lia|]. split.
    + intros Heq. apply NoDup_app. split; [apply IHeq; lia|]. split.
      * intros x Hx Hx'%list_elem_of_singleton. by subst.
      * apply NoDup_singleton.
    + intros Hnd. apply NoDup_app in Hnd as (Hnd & _ & _).
      apply IHeq in Hnd. lia.
Qed.

Lemma counted_hashes_length (results : list DocumentInfo.t) :
  (length (counted_hashes results)
   ≤ length (filter (λ r, DocumentInfo.accessible r = true) results))%nat ∧
  (length (counted_hashes results)
   = length (filter (λ r, DocumentInfo.accessible r = true) results) ↔
   Forall (λ r, DocumentInfo.accessible r = true →
                truthy (DocumentInfo.content_hash r) = true) results).
Proof.
  induction results as [|r results [IHle IHeq]].
  { split; [done|]. split; [constructor|done]. }
  unfold counted_hashes. cbn [omap list_omap]. fold (counted_hashes results).
  destruct (DocumentInfo.accessible r) eqn:Ha.
  - rewrite filter_cons_True by done. cbn [andb length].
    destruct (truthy (DocumentInfo.content_hash r)) eqn:Ht.
    + destruct (DocumentInfo.content_hash r) as [h|] eqn:Hh;
        [|cbv in Ht; discriminate].
      cbn [length]. split; [lia|]. split.
      * intros Heq. constructor; [intros _; by rewrite Hh|]. apply IHeq. lia.
      * intros Hall. apply Forall_cons in Hall as [_ Hall].
        apply IHeq in Hall. lia.
    + split; [lia|]. split; [lia|].
      intros Hall. apply Forall_cons in Hall as [Hr _].
      specialize (Hr Ha). congruence.
  - rewrite filter_cons_False by congruence. cbn [andb]. split; [done|].
    rewrite IHeq. split.
    + intros Hall. constructor; [cbn; intros ?; congruence|done].
    + by intros [_ Hall]%Forall_cons.
Qed.

(** X22.  [analyze_uniqueness] counts as duplicates the accessible results
    beyond the distinct fingerprints: [duplicate_count] is the number of
    accessible results less the number of distinct non-empty fingerprints
    among them.  It is 0 exactly when every accessible result has a
    fingerprint and no two of them have the same one. *)
Theorem duplicate_count_meaning (results : list DocumentInfo.t) :
  ∃ report, analyze_uniqueness results = Ok report ∧
    duplicate_count report
    = len (filter (λ r, DocumentInfo.accessible r = true) results)
      - len (first_seen (counted_hashes results)) ∧
    (duplicate_count report = 0 ↔
     NoDup (counted_hashes results) ∧
     Forall (λ r, DocumentInfo.accessible r = true →
                  truthy (DocumentInfo.content_hash r) = true) results).
Proof.
  destruct (analyze_uniqueness_counts results)
    as (report & hc & Hrep & _ & Hacc & _ & Hdup & _).
  destruct (analyze_uniqueness_keys results) as (report' & Hrep' & _ & Hu & Hn).
  rewrite Hrep in Hrep'. injection Hrep' as <-.
  exists report. split; [done|].
  assert (duplicate_count report
          = len (filter (λ r, DocumentInfo.accessible r = true) results)
            - len (first_seen (counted_hashes results))) as Hd
    by (by rewrite Hdup, Hacc, Hn, Hu).
  split; [done|]. rewrite Hd.
  destruct (first_seen_length (counted_hashes results)) as [Hle1 Heq1].
  destruct (counted_hashes_length results) as [Hle2 Heq2].
  rewrite <- Heq1, <- Heq2. unfold len. lia.
Qed.

(** ** The text that is hashed *)

Lemma sub_skip (r : regex) (repl : pystr) (n : nat) (s : pystr) :
  sub_from r repl n s = sub_from r repl 0 (drop n s).
Proof.
  revert n. induction s as [|c s IH]; intros [|n]; try done.
  cbn [sub_from drop]. apply IH.
Qed.

Lemma sub_spaces_char (c : ascii) (s : pystr) :
  isspace c = false →
  sub_from re_spaces (str " ") 0 (c :: s) = c :: sub_from re_spaces (str " ") 0 s.
Proof.
  intros Hc. cbn [sub_from]. pose proof (match_len_plus isspace c s) as Hm.
  rewrite Hc in Hm. unfold re_spaces. by rewrite Hm.
Qed.

Lemma sub_spaces_run (c : ascii) (s : pystr) :
  isspace c = true →
  ∃ r rest, s = r ++ rest ∧ (∀ x, head rest = Some x → isspace x = false) ∧
    sub_from re_spaces (str " ") 0 (c :: s)
    = space :: sub_from re_spaces (str " ") 0 rest.
Proof.
  intros Hc. cbn [sub_from]. pose proof (match_len_plus isspace c s) as Hm.
  rewrite Hc in Hm. destruct Hm as (r & rest & -> & _ & Hrest & Hm).
  exists r, rest. split; [done|]. split; [done|].
  unfold re_spaces. rewrite Hm. rewrite sub_skip, drop_app_length. done.
Qed.

Lemma sub_spaces_collapsed (s : pystr) :
  collapsed (re_sub re_spaces (str " ") s).
Proof.
  unfold re_sub.
  assert (∀ n s, (length s ≤ n)%nat →
            collapsed (sub_from re_spaces (str " ") 0 s)) as H;
    [|by apply (H (length s))].
  clear s. induction n as [|n IH]; intros [|c s] Hlen; try (by constructor).
  { simpl in Hlen. lia. }
  destruct (isspace c) eqn:Hc.
  - destruct (sub_spaces_run c s Hc) as (r & rest & -> & Hrest & ->).
    apply collapsed_space.
    + destruct rest as [|x rest']; [done|].
      rewrite sub_spaces_char by (by apply Hrest). by intros ? [= <-]; apply Hrest.
    + apply IH. simpl in Hlen. rewrite length_app in Hlen. lia.
  - rewrite sub_spaces_char by done. apply collapsed_char; [done|].
    apply IH. simpl in Hlen. lia.
Qed.

Lemma isspace_space : isspace space = true.
Proof. reflexivity. Qed.

(** Inside, a collapsed text has single spaces only. *)
Lemma collapsed_inner (s : pystr) :
  collapsed s →
  Forall (λ c, isspace c = true → c = space) s ∧
  ∀ pre post, s ≠ pre ++ space :: space :: post.
Proof.
  induction 1 as [|c s Hc _ [IH1 IH2]|s Hs _ [IH1 IH2]].
  - split; [done|]. intros [|x pre] post; done.
  - split; [constructor; [congruence|done]|].
    intros [|x pre] post Heq.
    + injection Heq as -> _. by rewrite isspace_space in Hc.
    + injection Heq as _ Heq. by apply IH2 in Heq.
  - split; [by constructor|].
    intros [|x pre] post Heq.
    + injection Heq as ->. specialize (Hs space eq_refl).
      by rewrite isspace_space in Hs.
    + injection Heq as _ Heq. by apply IH2 in Heq.
Qed.

Lemma lstrip_suffix (s : pystr) : ∃ pre, s = pre ++ lstrip s.
Proof.
  induction s as [|c s [pre IH]]; [by exists []|]. cbn [lstrip].
  destruct (isspace c); [|by exists []].
  exists (c :: pre). cbn [app]. by f_equal.
Qed.

Lemma lstrip_head (s : pystr) (c : ascii) :
  head (lstrip s) = Some c → isspace c = false.
Proof.
  induction s as [|x s IH]; [done|]. cbn [lstrip].
  destruct (isspace x) eqn:Hx; [done|]. by intros [= <-].
Qed.

Lemma inner_segment (pre s post : pystr) :
  Forall (λ c, isspace c = true → c = space) (pre ++ s ++ post) ∧
  (∀ a b, pre ++ s ++ post ≠ a ++ space :: space :: b) →
  Forall (λ c, isspace c = true → c = space) s ∧
  (∀ a b, s ≠ a ++ space :: space :: b).
Proof.
  intros [Hall Hno]. split.
  - by apply Forall_app in Hall as [_ [Hall _]%Forall_app].
  - intros a b ->. apply (Hno (pre ++ a) (b ++ post)).
    by rewrite <- !(assoc_L (++)).
Qed.

Lemma inner_reverse (s : pystr) :
  Forall (λ c, isspace c = true → c = space) s ∧
  (∀ a b, s ≠ a ++ space :: space :: b) →
  Forall (λ c, isspace c = true → c = space) (reverse s) ∧
  (∀ a b, reverse s ≠ a ++ space :: space :: b).
Proof.
  intros [Hall Hno]. split; [by apply Forall_reverse|].
  intros a b Heq. apply (Hno (reverse b) (reverse a)).
  rewrite <- (reverse_involutive s), Heq.
  rewrite reverse_app, !reverse_cons, <- !(assoc_L (++)). done.
Qed.

(** Stripping a collapsed text leaves it single-spaced. *)
Lemma strip_single_spaced (s : pystr) : collapsed s → single_spaced (strip s).
Proof.
  intros Hs%collapsed_inner. unfold strip, rstrip.
  destruct (lstrip_suffix s) as [p1 Hp1].
  set (t := lstrip s) in *.
  destruct (lstrip_suffix (reverse t)) as [p2 Hp2].
  set (u := lstrip (reverse t)) in *.
  assert (Ht : Forall (λ c, isspace c = true → c = space) t ∧
               (∀ a b, t ≠ a ++ space :: space :: b)).
  { apply (inner_segment p1 t []). by rewrite app_nil_r, <- Hp1. }
  assert (Hu : Forall (λ c, isspace c = true → c = space) u ∧
               (∀ a b, u ≠ a ++ space :: space :: b)).
  { apply (inner_segment p2 u []). rewrite app_nil_r, <- Hp2.
    by apply inner_reverse. }
  apply inner_reverse in Hu as [Hu1 Hu2].
  split; [done|]. split; [done|]. split.
  - intros c. rewrite head_reverse. intros Hc.
    assert (last (reverse t) = Some c) as Hl.
    { rewrite Hp2. rewrite last_app, Hc. done. }
    rewrite last_reverse in Hl. by apply (lstrip_head s).
  - intros c. rewrite last_reverse. apply lstrip_head.
Qed.

(** X23.  The text that the two hashing functions digest is
    whitespace-normal, whatever the content: spaces are its only
    whitespace, no two of them stand in a row, and none stands at the
    beginning or the end.  So it is for the regex fallback and for the
    text taken from the parsed tree. *)
Theorem normalized_text_single_spaced (content : pystr) (soup : SoupView) :
  single_spaced (fallback_normalize content) ∧
  single_spaced (soup_normalize soup).
Proof.
  split.
  - unfold fallback_normalize. cbv zeta.
    apply strip_single_spaced, sub_spaces_collapsed.
  - unfold soup_normalize. cbv zeta.
    apply strip_single_spaced, sub_spaces_collapsed.
Qed.

(** ** A probe and the answers it got *)

(** The three URLs of an identifier. *)
Lemma format_urls (doc_id : pystr) :
  (λ t, format t doc_id) <$> base_urls =
  [str "https://docs.google.com/document/d/" ++ doc_id ++ str "/edit";
   str "https://docs.google.com/document/d/" ++ doc_id ++ str "/export?format=txt";
   str "https://docs.google.com/document/d/" ++ doc_id ++ str "/pub"].
Proof. vm_compute. reflexivity. Qed.

Section probe_recorded.
Context (parse : pystr → option SoupView) {W : Type}.
Context (http_get : pystr → W → http_outcome * W).

Local Abbreviation R := (W * list (pystr * http_outcome))%type.
Local Abbreviation rget := (recorded_get http_get).
Local Abbreviation rtry := (try_urls parse R rget).
Local Abbreviation rprobe := (test_document_access parse R rget).

Lemma try_urls_outcomes (templates : list pystr) (doc_id : pystr)
    (d : DocumentInfo.t) (wl : R) :
  let res := rtry templates doc_id d wl in
  ∃ more,
    res.2.2 = wl.2 ++ more ∧
    more.*1 `prefix_of` (λ t, format t doc_id) <$> templates ∧
    DocumentInfo.error res.1
    = match last (omap failure_message more.*2) with
      | Some m => Some m
      | None => DocumentInfo.error d
      end ∧
    ((∃ init u content,
        more = init ++ [(u, Response 200 content)] ∧
        Forall (λ o, is_Some (failure_message o)) init.*2 ∧
        DocumentInfo.accessible res.1 = true ∧
        DocumentInfo.url res.1 = u ∧
        DocumentInfo.content_hash res.1
        = Some (_calculate_content_hash parse content))
     ∨ (length more = length templates ∧
        Forall (λ o, is_Some (failure_message o)) more.*2 ∧
        DocumentInfo.accessible res.1 = DocumentInfo.accessible d)).
Proof.
  revert d wl. induction templates as [|t ts IH]; intros d wl res; subst res.
  { exists []. rewrite app_nil_r. split; [done|]. split; [done|].
    split; [done|]. right. done. }
  set (u := format t doc_id).
  assert (Hfail : ∀ o m w',
    failure_message o = Some m →
    let res := rtry ts doc_id (set_error m (set_url u d)) (w', wl.2 ++ [(u, o)]) in
    ∃ more,
      res.2.2 = wl.2 ++ more ∧
      more.*1 `prefix_of` (λ t, format t doc_id) <$> t :: ts ∧
      DocumentInfo.error res.1
      = match last (omap failure_message more.*2) with
        | Some m => Some m
        | None => DocumentInfo.error d
        end ∧
      ((∃ init u content,
          more = init ++ [(u, Response 200 content)] ∧
          Forall (λ o, is_Some (failure_message o)) init.*2 ∧
          DocumentInfo.accessible res.1 = true ∧
          DocumentInfo.url res.1 = u ∧
          DocumentInfo.content_hash res.1
          = Some (_calculate_content_hash parse content))
       ∨ (length more = length (t :: ts) ∧
          Forall (λ o, is_Some (failure_message o)) more.*2 ∧
          DocumentInfo.accessible res.1 = DocumentInfo.accessible d))).
  { intros o m w' Hm res. subst res.
    destruct (IH (set_error m (set_url u d)) (w', wl.2 ++ [(u, o)]))
      as (more & Hlog & Hpre & Herr & Hcase).
    exists ((u, o) :: more). split.
    { rewrite Hlog. cbn [snd]. by rewrite <- (assoc_L (++)). }
    split.
    { cbn [fmap list_fmap fst]. by apply prefix_cons. }
    split.
    { rewrite Herr. cbn [fmap list_fmap snd omap list_omap]. rewrite Hm.
      rewrite last_cons. by destruct (last (omap failure_message more.*2)). }
    destruct Hcase as [(init & u' & content & -> & Hinit & Ha & Hu & Hh)
                      |(Hlen & Hall & Ha)].
    - left. exists ((u, o) :: init), u', content. split; [done|].
      split; [|done]. cbn [fmap list_fmap snd]. constructor; [|done].
      by rewrite Hm.
    - right. split; [cbn [length]; by rewrite Hlen|]. split; [|done].
      cbn [fmap list_fmap snd]. constructor; [|done]. by rewrite Hm. }
  cbn [try_urls]. cbv zeta. fold u. unfold recorded_get.
  destruct (http_get u wl.1) as [[status content|e] w'].
  - destruct (decide (status = 200)) as [->|H200].
    + exists [(u, Response 200 content)]. split; [reflexivity|]. split.
      { cbn [fmap list_fmap fst]. apply prefix_cons, prefix_nil. }
      split; [reflexivity|]. left. exists [], u, content.
      split; [reflexivity|]. split; [constructor|]. split; [reflexivity|].
      split; reflexivity.
    + destruct (decide (status = 403)) as [H403|H403].
      { apply Hfail. cbn [failure_message].
        by rewrite decide_False, decide_True by done. }
      destruct (decide (status = 404)) as [H404|H404].
      { apply Hfail. cbn [failure_message].
        by rewrite !decide_False, decide_True by done. }
      apply Hfail. cbn [failure_message]. by rewrite !decide_False by done.
  - apply Hfail. done.
Qed.

End probe_recorded.

(** ** Uniqueness of a batch, end to end *)

Section api_uniqueness.
Context (parse : pystr → option SoupView) {W float : Type}.
Context (http_get : pystr → W → http_outcome * W) (sleep : float → W → W).

End api_uniqueness.
